(** * gopromise: promises over goroutines, mutexes, wait groups and channels

    A shallow embedding of [promise.go].  The type parameters of the Go code
    are instantiated at [any]; a promise cell is a record, the goroutines
    are tasks of an interleaving machine, and the code of a task is a tree
    of the operations the Go code performs on shared state.  A schedule
    picks the task that moves next; the other goroutines keep running when
    the goroutine of the caller has exited. *)

From Stdlib Require Import ZArith String.
From stdpp Require Import base tactics option list relations.

Local Open Scope string_scope.
Local Open Scope list_scope.

(** ** Errors, values and panic payloads *)

(** A non-nil Go [error] value.  [ErrorsNew] carries the address of the
    allocation, so two errors with one message are still told apart. *)
Inductive goerror : Type :=
| ErrorsNew (addr : nat) (msg : string)
| FmtErrorf (msg : string)
| RuntimeError (msg : string).

(** The interface type [error]; [None] is [nil]. *)
Definition error : Type := option goerror.

Definition Error (e : goerror) : string :=
  match e with
  | ErrorsNew _ m => m
  | FmtErrorf m => m
  | RuntimeError m => m
  end.

(** Values of type [any].  [APromise p] is a [*Promise[any]], nil when [p]
    is [None]; [ASlice a] is a slice header that points at the array [a]. *)
Inductive any : Type :=
| ANil
| ABool (b : bool)
| AInt (z : Z)
| AString (s : string)
| AError (e : goerror)
| APromise (p : option nat)
| ASlice (a : nat).

Definition any_of_error (e : error) : any :=
  match e with
  | Some g => AError g
  | None => ANil
  end.

Definition error_of_any (v : any) : error :=
  match v with
  | AError g => Some g
  | _ => None
  end.

(** What [recover()] hands to the deferred function of [New]: [PNil] when
    the goroutine did not panic (or panicked with nil: the tests run on
    Go 1.19, where [recover()] is nil then too), an error value, a string, or
    a value of some other dynamic type, kept with the text that the verb
    [%+v] prints for it. *)
Inductive payload : Type :=
| PNil
| PError (e : goerror)
| PString (s : string)
| POther (rendering : string).

(** [fmt.Sprintf("%+v", r)]. *)
Definition Sprintf_v (r : payload) : string :=
  match r with
  | PNil => "<nil>"
  | PError e => Error e
  | PString s => s
  | POther t => t
  end.

(** The deferred function of [New], lines 39-46: the argument that it
    passes to [p.reject]. *)
Definition recovered_reason (r : payload) : error :=
  match r with
  | PError err => Some err
  | _ => Some (FmtErrorf (Sprintf_v r))
  end.

Definition nil_dereference : goerror :=
  RuntimeError "runtime error: invalid memory address or nil pointer dereference".

Definition negative_counter : payload :=
  PString "sync: negative WaitGroup counter".

Definition index_out_of_range : goerror :=
  RuntimeError "runtime error: index out of range".

(** ** The promise cell *)

Inductive promiseStatus : Type := PENDING | FULFILLED | REJECTED.

Global Instance promiseStatus_eq_dec : EqDecision promiseStatus.
Proof. solve_decision. Defined.

(** [Promise[T]]: the mutex is not a field here, every method body that
    holds it is one atomic step; [wg] is the counter of the wait group. *)
Record Promise : Type := mkPromise {
  value : any;
  reason : error;
  status : promiseStatus;
  wg : nat
}.

(** [wg.Done()]: panics when the counter would become negative. *)
Definition wg_Done (n : nat) : nat * option payload :=
  match n with
  | O => (O, Some negative_counter)
  | S m => (m, None)
  end.

(** [p.resolve(val)], lines 53-64.  The second component is the panic
    raised by [wg.Done], if any. *)
Definition resolve (val : any) (p : Promise) : Promise * option payload :=
  if decide (status p = PENDING) then
    let '(n, pan) := wg_Done (wg p) in
    (mkPromise val (reason p) FULFILLED n, pan)
  else (p, None).

(** [p.reject(err)], lines 66-77. *)
Definition reject (err : error) (p : Promise) : Promise * option payload :=
  if decide (status p = PENDING) then
    let '(n, pan) := wg_Done (wg p) in
    (mkPromise (value p) err REJECTED n, pan)
  else (p, None).

(** The cell that [New] allocates, lines 29-35. *)
Definition pending_promise : Promise := mkPromise ANil None PENDING 1.

(** [Resolve(value)] and [Reject(err)], lines 120-137. *)
Definition Resolve (v : any) : Promise := mkPromise v None FULFILLED 0.
Definition Reject (err : error) : Promise := mkPromise ANil err REJECTED 0.

(** A settlement call, as a datum. *)
Inductive settle_call : Type :=
| call_resolve (val : any)
| call_reject (err : error).

Definition settle (c : settle_call) (p : Promise) : Promise * option payload :=
  match c with
  | call_resolve v => resolve v p
  | call_reject e => reject e p
  end.

(** A sequence of settlement calls in the order in which they acquire the
    mutex. *)
Fixpoint settle_all (cs : list settle_call) (p : Promise) : Promise :=
  match cs with
  | [] => p
  | c :: cs' => settle_all cs' (fst (settle c p))
  end.

(** ** Code of a task *)

(** The operations a goroutine performs, each with the rest of the code.
    The calls [Then] and [Catch] that the bodies of [Then] and [Catch] make
    themselves are nodes of the tree; entering the callee is a step. *)
Inductive prog : Type :=
| Ret (v : any)
| Panic (r : payload)
| Call_resolve (p : nat) (val : any) (k : prog)
| Call_reject (p : nat) (err : error) (k : prog)
| Call_Await (p : option nat) (k : any -> error -> prog)
| Spawn (exec : nat -> prog) (k : nat -> prog)
| Call_Then (src : option nat) (cb : any -> prog) (k : nat -> prog)
| Call_Catch (src : option nat) (cb : error -> prog) (k : nat -> prog)
| Call_Resolve (v : any) (k : nat -> prog)
| Call_Reject (err : error) (k : nat -> prog)
| MakeChan (capacity : nat) (k : nat -> prog)
| Send (c : nat) (v : any) (k : prog)
| Select (c1 c2 : nat) (k1 k2 : any -> prog)
| MakeSlice (n : nat) (k : nat -> prog)
| SetIndex (a i : nat) (v : any) (k : prog).

(** Sequencing: run [m], then [f] on what it returns; a panic unwinds. *)
Fixpoint bind (m : prog) (f : any -> prog) : prog :=
  match m with
  | Ret v => f v
  | Panic r => Panic r
  | Call_resolve p v k => Call_resolve p v (bind k f)
  | Call_reject p e k => Call_reject p e (bind k f)
  | Call_Await p k => Call_Await p (fun v e => bind (k v e) f)
  | Spawn exec k => Spawn exec (fun p => bind (k p) f)
  | Call_Then src cb k => Call_Then src cb (fun p => bind (k p) f)
  | Call_Catch src cb k => Call_Catch src cb (fun p => bind (k p) f)
  | Call_Resolve v k => Call_Resolve v (fun p => bind (k p) f)
  | Call_Reject e k => Call_Reject e (fun p => bind (k p) f)
  | MakeChan n k => MakeChan n (fun c => bind (k c) f)
  | Send c v k => Send c v (bind k f)
  | Select c1 c2 k1 k2 => Select c1 c2 (fun v => bind (k1 v) f) (fun v => bind (k2 v) f)
  | MakeSlice n k => MakeSlice n (fun a => bind (k a) f)
  | SetIndex a i v k => SetIndex a i v (bind k f)
  end.

(** [New(exec)], lines 24-51.  The executor receives the promise whose
    [resolve] and [reject] it is given; [Spawn] is the allocation and the
    [go] statement. *)
Definition New (exec : option (nat -> prog)) (k : nat -> prog) : prog :=
  match exec with
  | None => Panic (PString "executor cannot be nil")
  | Some e => Spawn e k
  end.

(** The flattening branch shared by [Then] and [Catch], lines 96-98 and
    110-112. *)
Definition adopt (self : nat) (rp : option nat) : prog :=
  Call_Then rp (fun val => Call_resolve self val (Ret val)) (fun _ =>
  Call_Catch rp (fun err => Call_reject self err (Ret ANil)) (fun _ =>
  Ret ANil)).

(** The executor of [Then], lines 88-101. *)
Definition Then_exec (src : option nat) (cb : any -> prog) (self : nat) : prog :=
  Call_Await src (fun val err =>
    match err with
    | Some _ => Call_reject self err (Ret ANil)
    | None =>
        bind (cb val) (fun resOrProm =>
          match resOrProm with
          | APromise rp => adopt self rp
          | _ => Call_resolve self resOrProm (Ret ANil)
          end)
    end).

(** [Then(src, cb)], lines 84-102. *)
Definition Then (src : option nat) (cb : any -> prog) (k : nat -> prog) : prog :=
  match src with
  | None => Panic (PString "must provide valid promise")
  | Some _ => New (Some (Then_exec src cb)) k
  end.

(** The executor of [Catch], lines 105-117. *)
Definition Catch_exec (src : option nat) (cb : error -> prog) (self : nat) : prog :=
  Call_Await src (fun _ err =>
    match err with
    | Some _ =>
        bind (cb err) (fun resOrProm =>
          match resOrProm with
          | APromise rp => adopt self rp
          | _ => Call_resolve self resOrProm (Ret ANil)
          end)
    | None => Ret ANil
    end).

(** [Catch(src, cb)], lines 104-118. *)
Definition Catch (src : option nat) (cb : error -> prog) (k : nat -> prog) : prog :=
  New (Some (Catch_exec src cb)) k.

(** The first loop of [All], lines 152-163. *)
Fixpoint All_range (doneChan errChan values idx : nat)
    (promises : list (option nat)) (k : prog) : prog :=
  match promises with
  | [] => k
  | p :: rest =>
      Then p (fun val => SetIndex values idx val (Send doneChan (ABool true) (Ret val))) (fun _ =>
      Catch p (fun err => Send errChan (any_of_error err) (Ret (any_of_error err))) (fun _ =>
      All_range doneChan errChan values (S idx) rest k))
  end.

(** The second loop of [All], lines 165-172, with [n] iterations left. *)
Fixpoint All_collect (self doneChan errChan n : nat) (k : prog) : prog :=
  match n with
  | O => k
  | S n' =>
      Select doneChan errChan
        (fun _ => All_collect self doneChan errChan n' k)
        (fun err => Call_reject self (error_of_any err) (Ret ANil))
  end.

(** The executor of [All], lines 148-174. *)
Definition All_exec (promises : list (option nat)) (self : nat) : prog :=
  MakeChan (length promises) (fun doneChan =>
  MakeChan 1 (fun errChan =>
  MakeSlice (length promises) (fun values =>
  All_range doneChan errChan values 0 promises
    (All_collect self doneChan errChan (length promises)
       (Call_resolve self (ASlice values) (Ret ANil)))))).

(** [All(promises...)], lines 144-175; the result is a pointer, [None]
    when it is nil. *)
Definition All (promises : list (option nat)) (k : option nat -> prog) : prog :=
  match promises with
  | [] => k None
  | _ :: _ => New (Some (All_exec promises)) (fun p => k (Some p))
  end.

(** The loop of [Race], lines 184-193. *)
Fixpoint Race_range (valueChan errChan : nat) (promises : list (option nat))
    (k : prog) : prog :=
  match promises with
  | [] => k
  | p :: rest =>
      Then p (fun val => Send valueChan val (Ret val)) (fun _ =>
      Catch p (fun err => Send errChan (any_of_error err) (Ret (any_of_error err))) (fun _ =>
      Race_range valueChan errChan rest k))
  end.

(** The executor of [Race], lines 181-201. *)
Definition Race_exec (promises : list (option nat)) (self : nat) : prog :=
  MakeChan 1 (fun valueChan =>
  MakeChan 1 (fun errChan =>
  Race_range valueChan errChan promises
    (Select valueChan errChan
       (fun val => Call_resolve self val (Ret ANil))
       (fun err => Call_reject self (error_of_any err) (Ret ANil))))).

(** [Race(promises...)], lines 177-203. *)
Definition Race (promises : list (option nat)) (k : option nat -> prog) : prog :=
  match promises with
  | [] => k None
  | _ :: _ => New (Some (Race_exec promises)) (fun p => k (Some p))
  end.

(** ** The machine *)

(** A buffered channel. *)
Record chan : Type := mkChan {
  capacity : nat;
  buffer : list any
}.

(** A goroutine: the promise its deferred function settles ([None] for
    the goroutine of the caller, which has no such function) and the code
    it has left ([None] once it has exited). *)
Record task : Type := mkTask {
  owner : option nat;
  code : option prog
}.

Record state : Type := mkState {
  promises : list Promise;
  chans : list chan;
  slices : list (list any);
  tasks : list task;
  crashed : option payload
}.

Definition set_promise (p : nat) (c : Promise) (s : state) : state :=
  mkState (<[p := c]> (promises s)) (chans s) (slices s) (tasks s) (crashed s).

Definition set_chan (c : nat) (ch : chan) (s : state) : state :=
  mkState (promises s) (<[c := ch]> (chans s)) (slices s) (tasks s) (crashed s).

Definition set_slice (a : nat) (l : list any) (s : state) : state :=
  mkState (promises s) (chans s) (<[a := l]> (slices s)) (tasks s) (crashed s).

Definition set_tasks (ts : list task) (s : state) : state :=
  mkState (promises s) (chans s) (slices s) ts (crashed s).

Definition crash (r : payload) (s : state) : state :=
  mkState (promises s) (chans s) (slices s) (tasks s) (Some r).

Definition alloc_promise (c : Promise) (s : state) : state :=
  mkState (promises s ++ [c]) (chans s) (slices s) (tasks s) (crashed s).

Definition alloc_chan (ch : chan) (s : state) : state :=
  mkState (promises s) (chans s ++ [ch]) (slices s) (tasks s) (crashed s).

Definition alloc_slice (l : list any) (s : state) : state :=
  mkState (promises s) (chans s) (slices s ++ [l]) (tasks s) (crashed s).

(** What one step of a task yields: the state with the heap, the channels
    and the arrays as the step leaves them, the code the task has left
    ([None] when it exits), and the tasks it starts. *)
Definition outcome : Type := (state * option prog * list task)%type.

(** A settlement call on promise [p]; a panic of [wg.Done] unwinds the
    caller. *)
Definition do_settle (p : nat) (c : settle_call) (k : prog) (s : state) : option outcome :=
  match promises s !! p with
  | None => None
  | Some cell =>
      let '(cell', pan) := settle c cell in
      Some (set_promise p cell' s, Some (match pan with Some r => Panic r | None => k end), [])
  end.

(** The end of a goroutine started by [New] on promise [p]: the deferred
    function runs with [r] the result of [recover()], lines 39-46.  A panic
    inside the deferred function is not recovered by anyone. *)
Definition deferred (p : nat) (r : payload) (s : state) : option outcome :=
  match promises s !! p with
  | None => None
  | Some cell =>
      let '(cell', pan) := reject (recovered_reason r) cell in
      Some (match pan with
            | Some r' => crash r' (set_promise p cell' s)
            | None => set_promise p cell' s
            end, None, [])
  end.

(** One step of the code [c] of a task owned by [own].  [pick] decides a
    [select] with both cases ready.  [None]: the task cannot move (it is
    blocked, or refers to something that does not exist). *)
Definition step_code (pick : bool) (own : option nat) (c : prog) (s : state) : option outcome :=
  match c with
  | Ret _ =>
      match own with
      | Some p => deferred p PNil s
      | None => Some (s, None, [])
      end
  | Panic r =>
      match own with
      | Some p => deferred p r s
      | None => Some (crash r s, None, [])
      end
  | Call_resolve p v k => do_settle p (call_resolve v) k s
  | Call_reject p e k => do_settle p (call_reject e) k s
  | Call_Await None _ => Some (s, Some (Panic (PError nil_dereference)), [])
  | Call_Await (Some p) k =>
      match promises s !! p with
      | None => None
      | Some cell =>
          match wg cell with
          | O => Some (s, Some (k (value cell) (reason cell)), [])
          | S _ => None
          end
      end
  | Spawn exec k =>
      let p := length (promises s) in
      Some (alloc_promise pending_promise s, Some (k p), [mkTask (Some p) (Some (exec p))])
  | Call_Then src cb k => Some (s, Some (Then src cb k), [])
  | Call_Catch src cb k => Some (s, Some (Catch src cb k), [])
  | Call_Resolve v k =>
      Some (alloc_promise (Resolve v) s, Some (k (length (promises s))), [])
  | Call_Reject e k =>
      Some (alloc_promise (Reject e) s, Some (k (length (promises s))), [])
  | MakeChan n k =>
      Some (alloc_chan (mkChan n []) s, Some (k (length (chans s))), [])
  | Send c v k =>
      match chans s !! c with
      | None => None
      | Some ch =>
          if decide (length (buffer ch) < capacity ch)
          then Some (set_chan c (mkChan (capacity ch) (buffer ch ++ [v])) s, Some k, [])
          else None
      end
  | Select c1 c2 k1 k2 =>
      match chans s !! c1, chans s !! c2 with
      | Some ch1, Some ch2 =>
          match buffer ch1, buffer ch2 with
          | [], [] => None
          | v :: b, [] => Some (set_chan c1 (mkChan (capacity ch1) b) s, Some (k1 v), [])
          | [], v :: b => Some (set_chan c2 (mkChan (capacity ch2) b) s, Some (k2 v), [])
          | v1 :: b1, v2 :: b2 =>
              if pick
              then Some (set_chan c1 (mkChan (capacity ch1) b1) s, Some (k1 v1), [])
              else Some (set_chan c2 (mkChan (capacity ch2) b2) s, Some (k2 v2), [])
          end
      | _, _ => None
      end
  | MakeSlice n k =>
      Some (alloc_slice (replicate n ANil) s, Some (k (length (slices s))), [])
  | SetIndex a i v k =>
      match slices s !! a with
      | None => None
      | Some l =>
          if decide (i < length l)
          then Some (set_slice a (<[i := v]> l) s, Some k, [])
          else Some (s, Some (Panic (PError index_out_of_range)), [])
      end
  end.

(** A scheduling decision: the task that moves, and the case a [select]
    with two ready cases takes. *)
Definition choice : Type := (nat * bool)%type.

(** The task [ch.1] makes one step; nothing moves once the program has
    crashed. *)
Definition step (ch : choice) (s : state) : option state :=
  match crashed s with
  | Some _ => None
  | None =>
      match tasks s !! ch.1 with
      | Some (mkTask own (Some c)) =>
          match step_code ch.2 own c s with
          | Some (s1, c', started) =>
              Some (set_tasks (<[ch.1 := mkTask own c']> (tasks s) ++ started) s1)
          | None => None
          end
      | _ => None
      end
  end.

(** A schedule is run to its end; it is refused when one of its decisions
    names a task that cannot move. *)
Fixpoint run (sched : list choice) (s : state) : option state :=
  match sched with
  | [] => Some s
  | ch :: rest =>
      match step ch s with
      | Some s' => run rest s'
      | None => None
      end
  end.

Definition step_rel (s s' : state) : Prop := exists ch, step ch s = Some s'.

Definition reachable (s s' : state) : Prop := rtc step_rel s s'.

(** Nothing can move any more. *)
Definition quiescent (s : state) : Prop := forall ch, step ch s = None.

(** The program [main] started on a heap that holds the cells [heap]. *)
Definition boot (heap : list Promise) (main : prog) : state :=
  mkState heap [] [] [mkTask None (Some main)] None.

(** [p.Await()] as the caller observes it, lines 79-82. *)
Definition Await (s : state) (p : nat) : option (any * error) :=
  match promises s !! p with
  | Some cell =>
      match wg cell with
      | O => Some (value cell, reason cell)
      | S _ => None
      end
  | None => None
  end.

(** ** Cells: what a settlement call does *)

(** The shapes a cell has in the code: [New] makes it pending with a
    counter of one, settling brings the counter to zero and fills one of
    [value] and [reason]. *)
Definition consistent (c : Promise) : Prop :=
  match status c with
  | PENDING => wg c = 1 /\ value c = ANil /\ reason c = None
  | FULFILLED => wg c = 0 /\ reason c = None
  | REJECTED => wg c = 0 /\ value c = ANil
  end.

Lemma settle_settled c p : status p <> PENDING -> settle c p = (p, None).
Proof.
  intros H. destruct c; simpl; unfold resolve, reject;
    destruct (decide (status p = PENDING)); congruence.
Qed.

Lemma settle_pending_status c p :
  status p = PENDING -> status (settle c p).1 <> PENDING.
Proof.
  intros H. destruct c; simpl; unfold resolve, reject;
    destruct (decide (status p = PENDING)); try congruence;
    destruct (wg_Done (wg p)); simpl; congruence.
Qed.

Lemma settle_status c p : status (settle c p).1 = PENDING -> False.
Proof.
  destruct (decide (status p = PENDING)) as [E|E].
  - by apply settle_pending_status.
  - by rewrite settle_settled.
Qed.

Lemma settle_all_settled cs p : status p <> PENDING -> settle_all cs p = p.
Proof.
  induction cs as [|c cs IH]; intros H; simpl; [done|].
  rewrite settle_settled by done. simpl. auto.
Qed.

Lemma settle_consistent c p : consistent p -> consistent (settle c p).1.
Proof.
  unfold consistent. intros H.
  destruct c; simpl; unfold resolve, reject;
    destruct (decide (status p = PENDING)) as [E|E]; simpl; try done;
    rewrite E in H; destruct H as (-> & ? & ?); simpl; auto.
Qed.

Lemma settle_consistent_no_panic c p : consistent p -> (settle c p).2 = None.
Proof.
  unfold consistent. intros H.
  destruct c; simpl; unfold resolve, reject;
    destruct (decide (status p = PENDING)) as [E|E]; simpl; try done;
    rewrite E in H; destruct H as (-> & ? & ?); simpl; auto.
Qed.

Lemma consistent_wg c : consistent c -> (wg c = 0 <-> status c <> PENDING).
Proof.
  unfold consistent. destruct (status c); intros H; split; intros; try done; lia.
Qed.

(** ** Steps: what one step does to the heap and to the tasks *)

Lemma step_unfold tid pick s s' :
  step (tid, pick) s = Some s' ->
  exists own c s1 c' started,
    crashed s = None /\ tasks s !! tid = Some (mkTask own (Some c))
    /\ step_code pick own c s = Some (s1, c', started)
    /\ s' = set_tasks (<[tid := mkTask own c']> (tasks s) ++ started) s1.
Proof.
  unfold step. simpl. destruct (crashed s); [done|].
  destruct (tasks s !! tid) as [[own [c|]]|] eqn:E; try done.
  destruct (step_code pick own c s) as [[[s1 c'] started]|] eqn:E1; [|done].
  intros [= <-]. by exists own, c, s1, c', started.
Qed.

Lemma step_fold tid pick s own c s1 c' started :
  crashed s = None -> tasks s !! tid = Some (mkTask own (Some c)) ->
  step_code pick own c s = Some (s1, c', started) ->
  step (tid, pick) s
    = Some (set_tasks (<[tid := mkTask own c']> (tasks s) ++ started) s1).
Proof. intros Hc Ht Hs. unfold step. simpl. by rewrite Hc, Ht, Hs. Qed.

Lemma deferred_promises p r s o :
  deferred p r s = Some o ->
  o.1.2 = None /\ o.2 = []
  /\ exists cell, promises s !! p = Some cell
    /\ promises o.1.1 = <[p := (settle (call_reject (recovered_reason r)) cell).1]> (promises s).
Proof.
  unfold deferred. intros H. destruct (promises s !! p) as [cell|] eqn:E; [|done].
  destruct (reject _ cell) as [cell' pan] eqn:R.
  injection H as <-. simpl. split; [done|]. split; [done|].
  exists cell. split; [done|]. rewrite R. by destruct pan.
Qed.

Lemma do_settle_promises p c k s o :
  do_settle p c k s = Some o ->
  is_Some o.1.2 /\ o.2 = []
  /\ exists cell, promises s !! p = Some cell
    /\ promises o.1.1 = <[p := (settle c cell).1]> (promises s).
Proof.
  unfold do_settle. intros H. destruct (promises s !! p) as [cell|] eqn:E; [|done].
  destruct (settle c cell) as [cell' pan] eqn:R. injection H as <-.
  simpl. split; [done|]. split; [done|]. exists cell. by rewrite R.
Qed.

(** A step leaves the heap alone, extends it by one cell, or applies one
    settlement call to one cell. *)
Lemma step_code_promises pick own c s o :
  step_code pick own c s = Some o ->
  promises o.1.1 = promises s
  \/ (exists cell, promises o.1.1 = promises s ++ [cell] /\ consistent cell)
  \/ (exists p sc cell, promises s !! p = Some cell
        /\ promises o.1.1 = <[p := (settle sc cell).1]> (promises s)).
Proof.
  intros H. destruct c; simpl in H.
  - destruct own as [p|]; [|injection H as <-; auto].
    apply deferred_promises in H as (_ & _ & cell & ? & ?). right; right; eauto.
  - destruct own as [p|]; [|injection H as <-; auto].
    apply deferred_promises in H as (_ & _ & cell & ? & ?). right; right; eauto.
  - apply do_settle_promises in H as (_ & _ & cell & ? & ?). right; right; eauto.
  - apply do_settle_promises in H as (_ & _ & cell & ? & ?). right; right; eauto.
  - destruct p as [p|]; [|injection H as <-; auto].
    destruct (promises s !! p) as [cell|]; [|done].
    destruct (wg cell); [|done]. injection H as <-; auto.
  - injection H as <-. right; left. exists pending_promise. split; [done|]. by compute.
  - injection H as <-; auto.
  - injection H as <-; auto.
  - injection H as <-. right; left. exists (Resolve v). split; [done|]. by compute.
  - injection H as <-. right; left. exists (Reject err). split; [done|]. by compute.
  - injection H as <-; auto.
  - destruct (chans s !! c) as [ch|]; [|done].
    destruct (decide _); [|done]. injection H as <-; auto.
  - destruct (chans s !! c1) as [ch1|]; [|done].
    destruct (chans s !! c2) as [ch2|]; [|done].
    destruct (buffer ch1), (buffer ch2); try done; [| |destruct pick];
      injection H as <-; auto.
  - injection H as <-; auto.
  - destruct (slices s !! a) as [l|]; [|done].
    destruct (decide _); injection H as <-; auto.
Qed.

Lemma step_promises ch s s' :
  step ch s = Some s' ->
  promises s' = promises s
  \/ (exists cell, promises s' = promises s ++ [cell] /\ consistent cell)
  \/ (exists p sc cell, promises s !! p = Some cell
        /\ promises s' = <[p := (settle sc cell).1]> (promises s)).
Proof.
  destruct ch as [tid pick]. intros H.
  apply step_unfold in H as (own & c & s1 & c' & started & _ & _ & H & ->).
  by apply step_code_promises in H.
Qed.

(** A settled cell is never written again. *)
Lemma step_settled ch s s' p cell :
  step ch s = Some s' ->
  promises s !! p = Some cell -> status cell <> PENDING ->
  promises s' !! p = Some cell.
Proof.
  intros H Hp Hs.
  destruct (step_promises _ _ _ H) as [->|[(c & -> & _)|(q & c & cell0 & Hq & ->)]].
  - done.
  - by apply lookup_app_l_Some.
  - destruct (decide (q = p)) as [->|Hne].
    + rewrite Hp in Hq. inversion Hq; subst cell0.
      rewrite settle_settled by done. simpl.
      rewrite list_lookup_insert_eq; [done|]. by eapply lookup_lt_Some.
    + by rewrite list_lookup_insert_ne.
Qed.

(** Induction on the steps of a run, the last step last. *)
Lemma reachable_invariant (P : state -> Prop) (s0 : state) :
  P s0 ->
  (forall ch s s', reachable s0 s -> P s -> step ch s = Some s' -> P s') ->
  forall s, reachable s0 s -> P s.
Proof.
  intros H0 Hstep. apply rtc_ind_r; [done|].
  intros s s' Hr [ch Hs] HP. by eapply Hstep.
Qed.

Lemma reachable_settled s s' p cell :
  reachable s s' ->
  promises s !! p = Some cell -> status cell <> PENDING ->
  promises s' !! p = Some cell.
Proof.
  induction 1 as [|s1 s2 s3 [ch H12] _ IH]; [done|].
  intros Hp Hs. apply IH; [|done]. by eapply step_settled.
Qed.

(** Every cell of the heap keeps one of the shapes of [consistent]. *)
Lemma step_consistent ch s s' :
  step ch s = Some s' ->
  Forall consistent (promises s) -> Forall consistent (promises s').
Proof.
  intros H Hc.
  destruct (step_promises _ _ _ H) as [->|[(c & -> & Hcc)|(q & c & cell0 & Hq & ->)]].
  - done.
  - apply Forall_app. split; [done|]. by constructor.
  - apply Forall_insert; [done|]. apply settle_consistent.
    rewrite Forall_lookup in Hc. by eapply Hc.
Qed.

Lemma reachable_consistent s s' :
  reachable s s' ->
  Forall consistent (promises s) -> Forall consistent (promises s').
Proof.
  induction 1 as [|s1 s2 s3 [ch H12] _ IH]; [done|].
  intros Hc. apply IH. by eapply step_consistent.
Qed.

Lemma run_reachable sched s s' : run sched s = Some s' -> reachable s s'.
Proof.
  revert s. induction sched as [|ch sched IH]; intros s H; simpl in H.
  - inversion H. apply rtc_refl.
  - destruct (step ch s) as [s1|] eqn:E; [|done].
    eapply rtc_l; [by exists ch|]. by apply IH.
Qed.

Lemma reachable_step ch s s' s'' :
  step ch s = Some s' -> reachable s' s'' -> reachable s s''.
Proof. intros H Hr. eapply rtc_l; [by exists ch|done]. Qed.

(** A task that exits leaves the promise it owns settled, and a task that
    is started has code to run. *)
Lemma step_code_exit pick own c s s1 started :
  step_code pick own c s = Some (s1, None, started) ->
  forall p, own = Some p ->
    exists cell, promises s1 !! p = Some cell /\ status cell <> PENDING.
Proof.
  intros H p ->.
  assert (forall r, deferred p r s = Some (s1, None, started) ->
    exists cell, promises s1 !! p = Some cell /\ status cell <> PENDING) as Hdef.
  { intros r Hd. apply deferred_promises in Hd as (_ & _ & cell & Hp & Hs1).
    simpl in Hs1. eexists. split.
    - rewrite Hs1. apply list_lookup_insert_eq. by eapply lookup_lt_Some.
    - intros E. exact (settle_status (call_reject _) _ E). }
  destruct c; simpl in H; try done.
  - by eapply Hdef.
  - by eapply Hdef.
  - by apply do_settle_promises in H as ([? [=]] & _).
  - by apply do_settle_promises in H as ([? [=]] & _).
  - destruct p0 as [p0|]; [|done].
    destruct (promises s !! p0) as [cell|]; [|done]. by destruct (wg cell).
  - destruct (chans s !! c) as [ch|]; [|done]. by destruct (decide _).
  - destruct (chans s !! c1) as [ch1|]; [|done].
    destruct (chans s !! c2) as [ch2|]; [|done].
    destruct (buffer ch1), (buffer ch2); try done. by destruct pick.
  - destruct (slices s !! a) as [l|]; [|done]. by destruct (decide _).
Qed.

Lemma step_code_started pick own c s o :
  step_code pick own c s = Some o ->
  o.2 = [] \/ exists p e, o.2 = [mkTask (Some p) (Some e)].
Proof.
  intros H. destruct c; simpl in H;
    try (injection H as <-; simpl; eauto; fail).
  - destruct own as [p|]; [|injection H as <-; auto].
    apply deferred_promises in H as (_ & ? & _). auto.
  - destruct own as [p|]; [|injection H as <-; auto].
    apply deferred_promises in H as (_ & ? & _). auto.
  - apply do_settle_promises in H as (_ & ? & _). auto.
  - apply do_settle_promises in H as (_ & ? & _). auto.
  - destruct p as [p|]; [|injection H as <-; auto].
    destruct (promises s !! p) as [cell|]; [|done].
    destruct (wg cell); [|done]. injection H as <-; auto.
  - destruct (chans s !! c) as [ch|]; [|done].
    destruct (decide _); [|done]. injection H as <-; auto.
  - destruct (chans s !! c1) as [ch1|]; [|done].
    destruct (chans s !! c2) as [ch2|]; [|done].
    destruct (buffer ch1), (buffer ch2); try done; [| |destruct pick];
      injection H as <-; auto.
  - destruct (slices s !! a) as [l|]; [|done].
    destruct (decide _); injection H as <-; auto.
Qed.

(** Every task that has exited has settled the promise it owns. *)
Definition exits_settled (s : state) : Prop :=
  forall t p, tasks s !! t = Some (mkTask (Some p) None) ->
    exists cell, promises s !! p = Some cell /\ status cell <> PENDING.

Lemma step_exits_settled ch s s' :
  step ch s = Some s' -> exits_settled s -> exits_settled s'.
Proof.
  destruct ch as [tid pick]. intros H Hinv t p Ht.
  pose proof (step_unfold _ _ _ _ H) as (own & c & s1 & c' & started & _ & Htid & Hc & E).
  subst s'. simpl in *.
  apply lookup_app_Some in Ht as [Ht|[_ Ht]].
  - destruct (decide (t = tid)) as [->|Hne].
    + rewrite list_lookup_insert_eq in Ht by (by eapply lookup_lt_Some).
      injection Ht as -> ->. by eapply step_code_exit.
    + rewrite list_lookup_insert_ne in Ht by done.
      destruct (Hinv _ _ Ht) as (cell & Hp & Hs).
      exists cell. split; [|done].
      eapply (step_settled (tid, pick)) in Hp; [|done..]. done.
  - apply step_code_started in Hc as [Hc|(q & e & Hc)]; simpl in Hc; subst started.
    + by rewrite lookup_nil in Ht.
    + destruct (t - _); simpl in Ht; [done|]. by rewrite lookup_nil in Ht.
Qed.

Lemma reachable_exits_settled s s' :
  reachable s s' -> exits_settled s -> exits_settled s'.
Proof.
  induction 1 as [|s1 s2 s3 [ch H12] _ IH]; [done|].
  intros Hc. apply IH. by eapply step_exits_settled.
Qed.

Lemma boot_exits_settled heap main : exits_settled (boot heap main).
Proof. intros [|t] p H; simpl in H; [done|]. by rewrite lookup_nil in H. Qed.

(** ** Settlement *)

(** C1: a promise settles at most once.  A pending cell [p] leaves
    [PENDING] at the first settlement call [c]; whatever calls [cs] follow,
    in whatever order they take the mutex, change nothing (each is a
    no-op on the settled cell); in every later state of the machine the
    cell still has the status, value and reason that [c] gave it; and a
    fulfilled cell has only its value set, a rejected cell only its
    reason. *)
Theorem settlement_at_most_once (p : Promise) (c : settle_call) (cs : list settle_call)
    (s s' : state) (r : nat) :
  status p = PENDING ->
  promises s !! r = Some (settle c p).1 ->
  reachable s s' ->
  status (settle c p).1 <> PENDING
  /\ settle_all (c :: cs) p = (settle c p).1
  /\ (forall c', settle c' (settle c p).1 = ((settle c p).1, None))
  /\ promises s' !! r = Some (settle c p).1
  /\ match c with
     | call_resolve v =>
         status (settle c p).1 = FULFILLED /\ value (settle c p).1 = v
         /\ reason (settle c p).1 = reason p
     | call_reject e =>
         status (settle c p).1 = REJECTED /\ reason (settle c p).1 = e
         /\ value (settle c p).1 = value p
     end
  /\ (consistent p -> consistent (settle c p).1).
Proof.
  intros Hp Hr Hreach.
  pose proof (settle_pending_status c p Hp) as Hq.
  split_and!.
  - done.
  - simpl. by apply settle_all_settled.
  - intros c'. by apply settle_settled.
  - by eapply reachable_settled.
  - destruct c; simpl; unfold resolve, reject;
      destruct (decide (status p = PENDING)); try done;
      destruct (wg_Done (wg p)); done.
  - apply settle_consistent.
Qed.

Lemma settlement_at_most_once_witness :
  settle_all [call_resolve (AInt 42); call_reject (Some (FmtErrorf "late")); call_resolve (AInt 7)]
    pending_promise = Resolve (AInt 42)
  /\ promises (boot [Resolve (AInt 42)] (Ret ANil)) !! 0 = Some (Resolve (AInt 42)).
Proof.
  pose proof (settlement_at_most_once pending_promise (call_resolve (AInt 42))
    [call_reject (Some (FmtErrorf "late")); call_resolve (AInt 7)]
    (boot [Resolve (AInt 42)] (Ret ANil)) (boot [Resolve (AInt 42)] (Ret ANil)) 0
    eq_refl eq_refl (rtc_refl _ _)) as (_ & H1 & _ & H2 & _).
  split; [exact H1 | exact H2].
Defined.

(** ** The task boundary of [New] *)



(** C10: an executor that returns without a call of [resolve] or
    [reject] does not leave its promise pending: [recover()] yields nil in
    the deferred function, which rejects the promise with a new error
    whose message is ["<nil>"].  So in every state of a run, the promise of
    every task that has exited is settled with its counter at zero, and
    [Await] on it returns. *)
Theorem executor_return_settles (heap : list Promise) (main : prog) (s : state) :
  Forall consistent heap ->
  reachable (boot heap main) s ->
  (forall t q, tasks s !! t = Some (mkTask (Some q) None) ->
     exists cell, promises s !! q = Some cell /\ status cell <> PENDING
       /\ (forall s', reachable s s' -> Await s' q = Some (value cell, reason cell)))
  /\ (forall tid p v pick cell,
        crashed s = None ->
        tasks s !! tid = Some (mkTask (Some p) (Some (Ret v))) ->
        promises s !! p = Some cell -> status cell = PENDING ->
        exists s', step (tid, pick) s = Some s'
          /\ tasks s' !! tid = Some (mkTask (Some p) None)
          /\ promises s' !! p = Some (Reject (Some (FmtErrorf "<nil>")))
          /\ Error (FmtErrorf "<nil>") = "<nil>"
          /\ (forall s'', reachable s' s'' ->
                Await s'' p = Some (ANil, Some (FmtErrorf "<nil>")))).
Proof.
  intros Hheap Hreach.
  assert (Forall consistent (promises s)) as Hcons
    by (by eapply reachable_consistent).
  assert (forall s' q cell, reachable s s' -> promises s !! q = Some cell ->
    status cell <> PENDING -> Await s' q = Some (value cell, reason cell)) as Hawait.
  { intros s' q cell Hr Hq Hst. unfold Await.
    erewrite reachable_settled by done.
    rewrite Forall_lookup in Hcons. apply Hcons in Hq.
    apply consistent_wg in Hq. apply Hq in Hst. by rewrite Hst. }
  split.
  - intros t q Ht.
    pose proof (reachable_exits_settled _ _ Hreach (boot_exits_settled _ _) t q Ht)
      as (cell & Hq & Hst).
    exists cell. split_and!; [done..|]. intros s' Hr. by eapply Hawait.
  - intros tid p v pick cell Hc Ht Hp Hst.
    pose proof Hcons as Hcell. rewrite Forall_lookup in Hcell. apply Hcell in Hp as Hcp.
    unfold consistent in Hcp. rewrite Hst in Hcp. destruct Hcp as (Hwg & Hv & Hr).
    destruct cell as [cv cr cs cw]. simpl in *. subst.
    assert (step (tid, pick) s = Some
      (set_tasks (<[tid := mkTask (Some p) None]> (tasks s) ++ [])
         (set_promise p (Reject (Some (FmtErrorf "<nil>"))) s))) as Hstep.
    { unfold step. simpl. rewrite Hc, Ht. simpl. unfold deferred. rewrite Hp. done. }
    eexists. split; [exact Hstep|].
    assert (promises (set_tasks (<[tid := mkTask (Some p) None]> (tasks s) ++ [])
         (set_promise p (Reject (Some (FmtErrorf "<nil>"))) s))
      !! p = Some (Reject (Some (FmtErrorf "<nil>")))) as Hp'.
    { simpl. apply list_lookup_insert_eq. by eapply lookup_lt_Some. }
    split_and!.
    + simpl. apply lookup_app_l_Some, list_lookup_insert_eq. by eapply lookup_lt_Some.
    + done.
    + done.
    + intros s'' Hr. unfold Await. erewrite reachable_settled; [|done..].
      done.
Qed.

Lemma executor_return_settles_witness :
  exists s',
    step (1, true) (mkState [pending_promise] [] []
        [mkTask None (Some (Ret (APromise (Some 0)))); mkTask (Some 0) (Some (Ret ANil))] None)
      = Some s'
    /\ Await s' 0 = Some (ANil, Some (FmtErrorf "<nil>")).
Proof.
  assert (reachable (boot [] (New (Some (fun _ => Ret ANil)) (fun q => Ret (APromise (Some q)))))
    (mkState [pending_promise] [] []
       [mkTask None (Some (Ret (APromise (Some 0)))); mkTask (Some 0) (Some (Ret ANil))] None))
    as Hreach.
  { apply (run_reachable [(0, true)]). reflexivity. }
  destruct (executor_return_settles [] _ _ (Forall_nil_2 _) Hreach) as [_ H].
  destruct (H 1 0 ANil true pending_promise eq_refl eq_refl eq_refl eq_refl)
    as (s' & H1 & _ & _ & _ & H2).
  exists s'. split; [exact H1|]. apply H2. apply rtc_refl.
Defined.

(** ** Empty input *)

(** C9: [All] and [Race] of no promise return nil: the call performs no
    operation, allocates no promise and starts no task, and its caller goes
    on with a nil result; with at least one promise the call is [New] and
    the result is its promise. *)
Theorem empty_input_returns_nil (k : option nat -> prog) :
  All [] k = k None
  /\ Race [] k = k None
  /\ (forall p ps, All (p :: ps) k = Spawn (All_exec (p :: ps)) (fun q => k (Some q)))
  /\ (forall p ps, Race (p :: ps) k = Spawn (Race_exec (p :: ps)) (fun q => k (Some q))).
Proof. split_and!; reflexivity. Qed.

(** ** Runs of small programs *)

(** What a run leaves in the heap, and whether it crashed. *)
Definition heap_after (sched : list choice) (s : state) : option (list Promise) :=
  promises <$> run sched s.

Definition crash_after (sched : list choice) (s : state) : option (option payload) :=
  crashed <$> run sched s.

(** The tasks that have not exited, each with the promise it owns. *)
Definition live_tasks (s : state) : list (nat * option nat) :=
  omap (fun '(i, t) => match code t with Some _ => Some (i, owner t) | None => None end)
    (imap (fun i t => (i, t)) (tasks s)).

(** Every task moves in turn, each with the first case of a [select]. *)
Definition by_turns (tids : list nat) : list choice := (fun t => (t, true)) <$> tids.

(** C7: a nil executor given to [New] and a nil source given to [Then]
    panic in the caller before any promise exists; a nil source given to
    [Catch] does not: [Catch] has no such test, it returns a promise, the
    task of that promise fails on the nil pointer in [src.Await()], and the
    deferred function turns the failure into a rejection. *)
Theorem nil_source_of_Catch_is_rejected (cb : any -> prog) (cbe : error -> prog)
    (k : nat -> prog) :
  heap_after [(0, true)] (boot [] (New None k)) = Some []
  /\ crash_after [(0, true)] (boot [] (New None k))
       = Some (Some (PString "executor cannot be nil"))
  /\ heap_after [(0, true)] (boot [] (Then None cb k)) = Some []
  /\ crash_after [(0, true)] (boot [] (Then None cb k))
       = Some (Some (PString "must provide valid promise"))
  /\ crash_after [(0, true)] (boot [] (Catch None cbe k)) = Some None
  /\ heap_after [(0, true)] (boot [] (Catch None cbe k)) = Some [pending_promise]
  /\ crash_after [(0, true); (1, true); (1, true)] (boot [] (Catch None cbe k)) = Some None
  /\ heap_after [(0, true); (1, true); (1, true)] (boot [] (Catch None cbe k))
       = Some [Reject (Some nil_dereference)].
Proof. split_and!; reflexivity. Qed.

(** The continuation of C4: it starts a promise that is resolved with 2
    and returns it. *)
Definition returns_a_promise : any -> prog :=
  fun _ => New (Some (fun p => Call_resolve p (AInt 2) (Ret ANil))) (fun P => Ret (APromise (Some P))).

(** C4: [Then] on a fulfilled promise (cell 0) with a continuation that
    returns the promise P (cell 2).  The executor of [Then] starts the two
    tasks that are to hand on what P settles to, and returns; its deferred
    function then rejects the result (cell 1) with ["<nil>"], since it is
    still pending.  In the first run P is fulfilled with 2 after that, in
    the second before it: the result adopts 2 only in the second.  A
    continuation that returns a value that is no promise fulfils the
    result with it. *)
Theorem adoption_races_with_return :
  heap_after (by_turns [0; 0; 1; 1; 1; 1; 1; 1; 1; 2; 2; 3; 3; 3; 3; 4; 4])
      (boot [Resolve (AInt 1)] (Then (Some 0) returns_a_promise (fun q => Ret (APromise (Some q)))))
    = Some [Resolve (AInt 1); Reject (Some (FmtErrorf "<nil>")); Resolve (AInt 2);
            Resolve (AInt 2); Reject (Some (FmtErrorf "<nil>"))]
  /\ heap_after (by_turns [0; 1; 1; 2; 2; 1; 1; 3; 3; 3; 3; 1; 1; 4; 4; 1; 0])
      (boot [Resolve (AInt 1)] (Then (Some 0) returns_a_promise (fun q => Ret (APromise (Some q)))))
    = Some [Resolve (AInt 1); Resolve (AInt 2); Resolve (AInt 2);
            Resolve (AInt 2); Reject (Some (FmtErrorf "<nil>"))]
  /\ heap_after (by_turns [0; 0; 1; 1; 1])
      (boot [Resolve (AInt 1)] (Then (Some 0) (fun v => Ret (AString "plain")) (fun q => Ret (APromise (Some q)))))
    = Some [Resolve (AInt 1); Resolve (AString "plain")].
Proof. split_and!; reflexivity. Qed.

Definition Err1 : goerror := ErrorsNew 1 "Err 1".
Definition Err2 : goerror := ErrorsNew 2 "Err 2".
Definition Err3 : goerror := ErrorsNew 3 "Err 3".

(** The caller of [All] and of [Race] in the runs below: it keeps the
    result. *)
Definition keep : option nat -> prog :=
  fun r => Ret (APromise r).

(** C8: the channels of [All] and [Race] do not hold one signal per
    promise.  [errChan] has capacity 1 in both, and so has [valueChan] of
    [Race].  With three rejected promises given to [All], the loop takes
    the first reason and returns, the second reason stays in the buffer,
    and the task that is to send the third (task 7, whose promise is cell
    9) is blocked in its send for ever: nothing can move any more.  The
    same with three fulfilled promises given to [Race] (task 6, cell 8). *)
Theorem third_sender_blocks_forever :
  (exists s,
     run (by_turns [0; 0; 1; 1; 1; 1; 1; 1; 1; 1; 1; 2; 2; 2; 3; 3; 1; 1; 1; 3; 3; 4; 4;
                    4; 5; 5; 5; 5; 6; 6; 6; 7])
       (boot [Reject (Some Err1); Reject (Some Err2); Reject (Some Err3)]
          (All [Some 0; Some 1; Some 2] keep)) = Some s
     /\ chans s = [mkChan 3 []; mkChan 1 [AError Err2]]
     /\ promises s !! 3 = Some (Reject (Some Err1))
     /\ promises s !! 9 = Some pending_promise
     /\ live_tasks s = [(7, Some 9)]
     /\ quiescent s)
  /\ (exists s,
     run (by_turns [0; 0; 1; 1; 1; 1; 1; 1; 1; 1; 2; 2; 1; 1; 1; 2; 2; 3; 3; 4; 4; 4; 4;
                    5; 5; 6; 7; 7])
       (boot [Resolve (AInt 1); Resolve (AInt 2); Resolve (AInt 3)]
          (Race [Some 0; Some 1; Some 2] keep)) = Some s
     /\ chans s = [mkChan 1 [AInt 2]; mkChan 1 []]
     /\ promises s !! 3 = Some (Resolve (AInt 1))
     /\ promises s !! 8 = Some pending_promise
     /\ live_tasks s = [(6, Some 8)]
     /\ quiescent s).
Proof.
  split.
  - eexists. split; [vm_compute; reflexivity|].
    split_and!; try reflexivity.
    intros [tid pick].
    do 8 (destruct tid as [|tid]; [reflexivity|]). reflexivity.
  - eexists. split; [vm_compute; reflexivity|].
    split_and!; try reflexivity.
    intros [tid pick].
    do 8 (destruct tid as [|tid]; [reflexivity|]). reflexivity.
Qed.

(** ** [All]: lists and multisets of tasks *)

Lemma insert_Permutation {A} (l : list A) (i : nat) (x y : A) :
  l !! i = Some x -> <[i := y]> l ≡ₚ y :: delete i l.
Proof.
  intros H. rewrite insert_take_drop by (by eapply lookup_lt_Some).
  rewrite delete_take_drop. solve_Permutation.
Qed.

Lemma sum_list_with_insert {A} (f : A -> nat) (l : list A) (i : nat) (x y : A) :
  l !! i = Some x ->
  sum_list_with f (<[i := y]> l) + f x = sum_list_with f l + f y.
Proof.
  revert i. induction l as [|z l IH]; intros [|i] H; simpl in *; try done.
  - injection H as ->. lia.
  - specialize (IH i H). lia.
Qed.

(** The step of a task, with the tasks taken as a multiset. *)
Lemma step_multiset tid pick s s' (L : list task) :
  step (tid, pick) s = Some s' ->
  tasks s ≡ₚ L ->
  exists own c s1 c' started rest,
    crashed s = None
    /\ tasks s !! tid = Some (mkTask own (Some c))
    /\ L ≡ₚ mkTask own (Some c) :: rest
    /\ step_code pick own c s = Some (s1, c', started)
    /\ tasks s' ≡ₚ mkTask own c' :: rest ++ started
    /\ promises s' = promises s1 /\ chans s' = chans s1
    /\ slices s' = slices s1 /\ crashed s' = crashed s1.
Proof.
  intros H HL.
  apply step_unfold in H as (own & c & s1 & c' & started & Hc & Ht & Hs & ->).
  exists own, c, s1, c', started, (delete tid (tasks s)).
  split_and!; try done.
  - rewrite <- HL. by apply delete_Permutation.
  - simpl. rewrite (insert_Permutation _ _ _ _ Ht). done.
Qed.

(** ** Code that leaves a promise, channels and arrays alone *)

(** Code that makes no settlement call on the promise [pA], that neither
    sends on nor receives from a channel of [FC] and that writes in no
    array of [FS].  It may make promises, channels and arrays of its own
    and use them, and use every promise, channel and array that is not
    kept from it.  [resolve] and [reject] of a promise are handed to its
    executor only; the channels and the array of [All] and of [Race] are
    local variables of their executors. *)
Inductive quiet (pA : nat) (FC FS : nat -> Prop) : prog -> Prop :=
| quiet_Ret v : quiet pA FC FS (Ret v)
| quiet_Panic r : quiet pA FC FS (Panic r)
| quiet_resolve p v k :
    p <> pA -> quiet pA FC FS k -> quiet pA FC FS (Call_resolve p v k)
| quiet_reject p e k :
    p <> pA -> quiet pA FC FS k -> quiet pA FC FS (Call_reject p e k)
| quiet_Await p k :
    (forall v e, quiet pA FC FS (k v e)) -> quiet pA FC FS (Call_Await p k)
| quiet_Spawn exec k :
    (forall r, r <> pA -> quiet pA FC FS (exec r)) ->
    (forall r, r <> pA -> quiet pA FC FS (k r)) ->
    quiet pA FC FS (Spawn exec k)
| quiet_Then src cb k :
    (forall v, quiet pA FC FS (cb v)) -> (forall r, r <> pA -> quiet pA FC FS (k r)) ->
    quiet pA FC FS (Call_Then src cb k)
| quiet_Catch src cb k :
    (forall e, quiet pA FC FS (cb e)) -> (forall r, r <> pA -> quiet pA FC FS (k r)) ->
    quiet pA FC FS (Call_Catch src cb k)
| quiet_Resolve v k :
    (forall r, r <> pA -> quiet pA FC FS (k r)) -> quiet pA FC FS (Call_Resolve v k)
| quiet_Reject e k :
    (forall r, r <> pA -> quiet pA FC FS (k r)) -> quiet pA FC FS (Call_Reject e k)
| quiet_MakeChan n k :
    (forall c, ~ FC c -> quiet pA FC FS (k c)) -> quiet pA FC FS (MakeChan n k)
| quiet_Send c v k :
    ~ FC c -> quiet pA FC FS k -> quiet pA FC FS (Send c v k)
| quiet_Select c1 c2 k1 k2 :
    ~ FC c1 -> ~ FC c2 ->
    (forall v, quiet pA FC FS (k1 v)) -> (forall v, quiet pA FC FS (k2 v)) ->
    quiet pA FC FS (Select c1 c2 k1 k2)
| quiet_MakeSlice n k :
    (forall a, ~ FS a -> quiet pA FC FS (k a)) -> quiet pA FC FS (MakeSlice n k)
| quiet_SetIndex a i v k :
    ~ FS a -> quiet pA FC FS k -> quiet pA FC FS (SetIndex a i v k).

(** A task that does not own [pA] and whose code is quiet. *)
Definition bystander (pA : nat) (FC FS : nat -> Prop) (t : task) : Prop :=
  owner t <> Some pA /\ forall c, code t = Some c -> quiet pA FC FS c.

(** No channel, no array: nothing is kept from the code. *)
Definition nothing : nat -> Prop := fun _ => False.

(** Code that makes no settlement call on the promise [p], and a task
    that does not own [p] and has such code.  They may do everything
    else. *)
Definition aloof (p : nat) (c : prog) : Prop := quiet p nothing nothing c.

Definition outsider (p : nat) (t : task) : Prop := bystander p nothing nothing t.

(** The two channels and the array that an executor of [All] or of
    [Race] has made for itself. *)
Definition own_chans (d e : nat) : nat -> Prop := fun c => c = d \/ c = e.

Definition own_slice (a : nat) : nat -> Prop := fun x => x = a.

(** A task from which the promise [pA] is kept, and the channels and the
    arrays that do not exist yet in [s]: it has no settlement call on
    [pA], and whichever two channels [d], [e] and array [a] are made
    after [s], it neither sends on nor receives from [d] and [e], and
    does not write in [a]; it may make channels and arrays itself and use
    them, and use every one that exists in [s]. *)
Definition apart (pA : nat) (s : state) (t : task) : Prop :=
  forall d e a,
    length (chans s) <= d -> length (chans s) <= e -> length (slices s) <= a ->
    bystander pA (own_chans d e) (own_slice a) t.

(** The same for the two channels of [Race], which makes no array. *)
Definition apart_chans (pR : nat) (s : state) (t : task) : Prop :=
  forall d e,
    length (chans s) <= d -> length (chans s) <= e ->
    bystander pR (own_chans d e) nothing t.

(** How [Then] and [Catch] end: with the result of the continuation. *)
Definition finish (self : nat) (resOrProm : any) : prog :=
  match resOrProm with
  | APromise rp => adopt self rp
  | _ => Call_resolve self resOrProm (Ret ANil)
  end.

Lemma quiet_bind pA FC FS m f :
  quiet pA FC FS m -> (forall v, quiet pA FC FS (f v)) -> quiet pA FC FS (bind m f).
Proof.
  intros Hm Hf. induction Hm; simpl; try (constructor; auto; fail). apply Hf.
Qed.

Lemma quiet_finish pA FC FS self v : self <> pA -> quiet pA FC FS (finish self v).
Proof.
  intros H. destruct v; simpl; unfold adopt; by repeat constructor.
Qed.

Lemma quiet_Then_exec pA FC FS src cb self :
  (forall v, quiet pA FC FS (cb v)) -> self <> pA ->
  quiet pA FC FS (Then_exec src cb self).
Proof.
  intros Hcb Hs. constructor. intros v [e|].
  - by repeat constructor.
  - apply quiet_bind; [done|]. intros w. by apply (quiet_finish pA FC FS self w).
Qed.

Lemma quiet_Catch_exec pA FC FS src cb self :
  (forall e, quiet pA FC FS (cb e)) -> self <> pA ->
  quiet pA FC FS (Catch_exec src cb self).
Proof.
  intros Hcb Hs. constructor. intros v [e|].
  - apply quiet_bind; [done|]. intros w. by apply (quiet_finish pA FC FS self w).
  - constructor.
Qed.

Lemma quiet_call_Then pA FC FS src cb k :
  (forall v, quiet pA FC FS (cb v)) -> (forall r, r <> pA -> quiet pA FC FS (k r)) ->
  quiet pA FC FS (Then src cb k).
Proof.
  intros Hcb Hk. unfold Then. destruct src; [|constructor]. simpl.
  constructor; [|done]. intros r Hne. by apply quiet_Then_exec.
Qed.

Lemma quiet_call_Catch pA FC FS src cb k :
  (forall e, quiet pA FC FS (cb e)) -> (forall r, r <> pA -> quiet pA FC FS (k r)) ->
  quiet pA FC FS (Catch src cb k).
Proof.
  intros Hcb Hk. unfold Catch. simpl.
  constructor; [|done]. intros r Hne. by apply quiet_Catch_exec.
Qed.

(** The executors of [All] and [Race] use the channels and the array
    they make and settle their own promise. *)
Lemma quiet_All_collect pA FC FS self d e n k :
  self <> pA -> ~ FC d -> ~ FC e -> quiet pA FC FS k ->
  quiet pA FC FS (All_collect self d e n k).
Proof.
  intros Hs Hd He Hk. induction n as [|n IH]; simpl; [done|].
  constructor; try done. intros v. by repeat constructor.
Qed.

Lemma quiet_All_range pA FC FS d e a i l k :
  ~ FC d -> ~ FC e -> ~ FS a -> quiet pA FC FS k ->
  quiet pA FC FS (All_range d e a i l k).
Proof.
  intros Hd He Ha Hk. revert i. induction l as [|p l IH]; intros i; simpl; [done|].
  apply quiet_call_Then; [intros v; by repeat constructor|]. intros r _.
  apply quiet_call_Catch; [intros g; by repeat constructor|]. intros r' _.
  apply IH.
Qed.

Lemma quiet_All_exec pA FC FS l self :
  self <> pA -> quiet pA FC FS (All_exec l self).
Proof.
  intros Hs. unfold All_exec. constructor. intros d Hd. constructor. intros e He.
  constructor. intros a Ha. apply quiet_All_range; try done.
  apply quiet_All_collect; try done. by repeat constructor.
Qed.

Lemma quiet_Race_range pA FC FS d e l k :
  ~ FC d -> ~ FC e -> quiet pA FC FS k -> quiet pA FC FS (Race_range d e l k).
Proof.
  intros Hd He Hk. induction l as [|p l IH]; simpl; [done|].
  apply quiet_call_Then; [intros v; by repeat constructor|]. intros r _.
  apply quiet_call_Catch; [intros g; by repeat constructor|]. intros r' _.
  apply IH.
Qed.

Lemma quiet_Race_exec pA FC FS l self :
  self <> pA -> quiet pA FC FS (Race_exec l self).
Proof.
  intros Hs. unfold Race_exec. constructor. intros d Hd. constructor. intros e He.
  apply quiet_Race_range; try done.
  constructor; try done; intros v; by repeat constructor.
Qed.

Lemma bystander_exit pA FC FS own :
  own <> Some pA -> bystander pA FC FS (mkTask own None).
Proof. intros H. split; [done|]. by intros c [=]. Qed.

Lemma bystander_code pA FC FS own k :
  own <> Some pA -> quiet pA FC FS k -> bystander pA FC FS (mkTask own (Some k)).
Proof. intros H Hk. split; [done|]. by intros c [= <-]. Qed.

Lemma quiet_deferred pA p r s o :
  p <> pA -> deferred p r s = Some o ->
  chans o.1.1 = chans s /\ slices o.1.1 = slices s
  /\ promises o.1.1 !! pA = promises s !! pA
  /\ o.1.2 = None /\ o.2 = [].
Proof.
  intros Hp Hd. unfold deferred in Hd.
  destruct (promises s !! p) as [cell|]; [|done].
  destruct (reject _ cell) as [cell' pan]. injection Hd as <-.
  destruct pan; simpl; by rewrite list_lookup_insert_ne.
Qed.

Lemma quiet_do_settle pA FC FS p sc k s o :
  p <> pA -> quiet pA FC FS k -> do_settle p sc k s = Some o ->
  chans o.1.1 = chans s /\ slices o.1.1 = slices s
  /\ promises o.1.1 !! pA = promises s !! pA
  /\ (exists k', o.1.2 = Some k' /\ quiet pA FC FS k') /\ o.2 = [].
Proof.
  intros Hp Hk Hd. unfold do_settle in Hd.
  destruct (promises s !! p) as [cell|]; [|done].
  destruct (settle sc cell) as [cell' pan]. injection Hd as <-. simpl.
  rewrite list_lookup_insert_ne by done. split_and!; try done.
  eexists. split; [done|]. destruct pan; [constructor|done].
Qed.

(** What a step of quiet code keeps: the channels and the arrays that
    are kept from it. *)
Definition kept (FC FS : nat -> Prop) (s s1 : state) : Prop :=
  (forall x, FC x -> chans s1 !! x = chans s !! x)
  /\ (forall x, FS x -> slices s1 !! x = slices s !! x)
  /\ length (chans s) <= length (chans s1)
  /\ length (slices s) <= length (slices s1).

Lemma kept_same FC FS s s1 :
  chans s1 = chans s -> slices s1 = slices s -> kept FC FS s s1.
Proof. intros H1 H2. unfold kept. rewrite H1, H2. by split_and!. Qed.

(** A step of quiet code leaves [pA] as it is, and the channels and the
    arrays that are kept from it, and leaves and starts quiet code; the
    channel or the array that the step makes is not one of them. *)
Lemma quiet_step_code pA FC FS pick own c s s1 c' started :
  quiet pA FC FS c -> own <> Some pA -> pA < length (promises s) ->
  step_code pick own c s = Some (s1, c', started) ->
  (forall x, FC x -> x < length (chans s1) -> x < length (chans s)) ->
  (forall x, FS x -> x < length (slices s1) -> x < length (slices s)) ->
  kept FC FS s s1
  /\ promises s1 !! pA = promises s !! pA
  /\ bystander pA FC FS (mkTask own c')
  /\ Forall (bystander pA FC FS) started.
Proof.
  intros Hq Hown HpA H HFC HFS.
  assert (forall r, own = Some r -> r <> pA) as Hr by (intros r -> ->; done).
  assert (length (promises s) <> pA) as Hfresh by lia.
  destruct Hq; simpl in H.
  - destruct own as [p|].
    + apply (quiet_deferred pA) in H as (? & ? & ? & E1 & E2); [|by apply Hr].
      simpl in *. subst. split_and!; auto using bystander_exit, kept_same.
    + injection H as <- <- <-. split_and!; auto using bystander_exit, kept_same.
  - destruct own as [p|].
    + apply (quiet_deferred pA) in H as (? & ? & ? & E1 & E2); [|by apply Hr].
      simpl in *. subst. split_and!; auto using bystander_exit, kept_same.
    + injection H as <- <- <-. split_and!; auto using bystander_exit, kept_same.
  - apply (quiet_do_settle pA FC FS) in H as (? & ? & ? & (k' & E1 & ?) & E2); [|done..].
    simpl in *. subst. split_and!; auto using bystander_code, kept_same.
  - apply (quiet_do_settle pA FC FS) in H as (? & ? & ? & (k' & E1 & ?) & E2); [|done..].
    simpl in *. subst. split_and!; auto using bystander_code, kept_same.
  - destruct p as [p|].
    + destruct (promises s !! p) as [cell|]; [|done].
      destruct (wg cell); [|done]. injection H as <- <- <-.
      split_and!; auto using bystander_code, kept_same.
    + injection H as <- <- <-. split_and!; auto using kept_same.
      apply bystander_code; [done|]. constructor.
  - injection H as <- <- <-. split_and!; auto using bystander_code, kept_same.
    + simpl. by rewrite lookup_app_l.
    + constructor; [|done]. apply bystander_code; [by intros [=]|]. auto.
  - injection H as <- <- <-. split_and!; auto using kept_same.
    apply bystander_code; [done|]. by apply quiet_call_Then.
  - injection H as <- <- <-. split_and!; auto using kept_same.
    apply bystander_code; [done|]. by apply quiet_call_Catch.
  - injection H as <- <- <-. split_and!; auto using bystander_code, kept_same.
    simpl. by rewrite lookup_app_l.
  - injection H as <- <- <-. split_and!; auto using bystander_code, kept_same.
    simpl. by rewrite lookup_app_l.
  - injection H as <- <- <-. simpl in *.
    assert (~ FC (length (chans s))) as Hnew.
    { intros HF. specialize (HFC _ HF). rewrite length_app in HFC. simpl in HFC. lia. }
    split_and!; auto using bystander_code.
    split_and!; simpl; try done.
    + intros x Hx. destruct (decide (x = length (chans s))) as [->|Hne]; [done|].
      destruct (decide (x < length (chans s))).
      * by rewrite lookup_app_l.
      * rewrite !lookup_ge_None_2; [done|lia|]. rewrite length_app. simpl. lia.
    + rewrite length_app. lia.
  - destruct (chans s !! c) as [ch|] eqn:E; [|done].
    destruct (decide _); [|done]. injection H as <- <- <-.
    split_and!; auto using bystander_code.
    split_and!; simpl; try done.
    + intros x Hx. rewrite list_lookup_insert_ne; [done|]. by intros ->.
    + by rewrite length_insert.
  - destruct (chans s !! c1) as [ch1|] eqn:E1; [|done].
    destruct (chans s !! c2) as [ch2|] eqn:E2; [|done].
    assert (forall c ch, ~ FC c -> kept FC FS s (set_chan c ch s)) as Hk.
    { intros c ch Hc. split_and!; simpl; try done.
      - intros x Hx. rewrite list_lookup_insert_ne; [done|]. by intros ->.
      - by rewrite length_insert. }
    destruct (buffer ch1), (buffer ch2); try done; [| |destruct pick];
      injection H as <- <- <-; split_and!; auto using bystander_code.
  - injection H as <- <- <-. simpl in *.
    assert (~ FS (length (slices s))) as Hnew.
    { intros HF. specialize (HFS _ HF). rewrite length_app in HFS. simpl in HFS. lia. }
    split_and!; auto using bystander_code.
    split_and!; simpl; try done.
    + intros x Hx. destruct (decide (x = length (slices s))) as [->|Hne]; [done|].
      destruct (decide (x < length (slices s))).
      * by rewrite lookup_app_l.
      * rewrite !lookup_ge_None_2; [done|lia|]. rewrite length_app. simpl. lia.
    + rewrite length_app. lia.
  - destruct (slices s !! a) as [l|] eqn:E; [|done].
    destruct (decide _); injection H as <- <- <-.
    + split_and!; auto using bystander_code.
      split_and!; simpl; try done.
      * intros x Hx. rewrite list_lookup_insert_ne; [done|]. by intros ->.
      * by rewrite length_insert.
    + split_and!; auto using kept_same. apply bystander_code; [done|]. constructor.
Qed.

(** The tasks after the step of the task [t]: the old tasks [L] with
    [t'] and the tasks it started are the new tasks [K] with [t]. *)
Lemma tasks_after_step s tid t t' started L K :
  tasks s !! tid = Some t -> tasks s ≡ₚ L ->
  t' :: started ++ L ≡ₚ t :: K ->
  <[tid := t']> (tasks s) ++ started ≡ₚ K.
Proof.
  intros Ht HL HK. rewrite (insert_Permutation _ _ _ _ Ht).
  apply (inj (cons t)). rewrite <- HK, <- HL.
  rewrite (delete_Permutation _ _ _ Ht) at 2. solve_Permutation.
Qed.

(** A step makes channels and arrays, and removes none. *)
Lemma step_code_lengths pick own c s s1 c' started :
  step_code pick own c s = Some (s1, c', started) ->
  length (chans s) <= length (chans s1) /\ length (slices s) <= length (slices s1).
Proof.
  intros H. destruct c; simpl in H.
  - destruct own as [p|]; [|by injection H as <- <- <-].
    unfold deferred in H. destruct (promises s !! p); [|done].
    destruct (reject _ _) as [cell' pan]. injection H as <- <- <-. by destruct pan.
  - destruct own as [p|]; [|by injection H as <- <- <-].
    unfold deferred in H. destruct (promises s !! p); [|done].
    destruct (reject _ _) as [cell' pan]. injection H as <- <- <-. by destruct pan.
  - unfold do_settle in H. destruct (promises s !! p); [|done].
    destruct (settle _ _) as [cell' pan]. by injection H as <- <- <-.
  - unfold do_settle in H. destruct (promises s !! p); [|done].
    destruct (settle _ _) as [cell' pan]. by injection H as <- <- <-.
  - destruct p as [p|]; [|by injection H as <- <- <-].
    destruct (promises s !! p) as [cell|]; [|done].
    destruct (wg cell); [|done]. by injection H as <- <- <-.
  - by injection H as <- <- <-.
  - by injection H as <- <- <-.
  - by injection H as <- <- <-.
  - by injection H as <- <- <-.
  - by injection H as <- <- <-.
  - injection H as <- <- <-. simpl. rewrite length_app. simpl. lia.
  - destruct (chans s !! c) as [ch|]; [|done].
    destruct (decide _); [|done]. injection H as <- <- <-. simpl.
    by rewrite length_insert.
  - destruct (chans s !! c1) as [ch1|]; [|done].
    destruct (chans s !! c2) as [ch2|]; [|done].
    destruct (buffer ch1), (buffer ch2); try done; [| |destruct pick];
      injection H as <- <- <-; simpl; by rewrite length_insert.
  - injection H as <- <- <-. simpl. rewrite length_app. simpl. lia.
  - destruct (slices s !! a) as [l|]; [|done].
    destruct (decide _); injection H as <- <- <-; simpl; [|done].
    by rewrite length_insert.
Qed.

(** The tasks of a run that is given in full: their code is read. *)
Ltac quiet_code :=
  repeat first
    [ done | by intros [] | (unfold own_chans, own_slice; lia)
    | apply quiet_call_Then | apply quiet_call_Catch
    | apply quiet_Then_exec | apply quiet_Catch_exec
    | apply quiet_All_exec | apply quiet_Race_exec
    | progress intros | constructor ].

Ltac outsider_task :=
  split; [done|]; intros ? [=]; subst; quiet_code.

Ltac apart_chans_task :=
  let d := fresh "d" in let e := fresh "e" in
  let Hd := fresh "Hd" in let He := fresh "He" in
  intros d e Hd He; simpl in Hd, He;
  split; [done|]; intros ? [=]; subst; quiet_code.

Ltac apart_task :=
  let d := fresh "d" in let e := fresh "e" in let a := fresh "a" in
  let Hd := fresh "Hd" in let He := fresh "He" in let Ha := fresh "Ha" in
  intros d e a Hd He Ha; simpl in Hd, He, Ha;
  split; [done|]; intros ? [=]; subst; quiet_code.

(** ** [All]: the tasks it starts and what they have done *)

Section All_protocol.
(** The promises given to [All], the promise of [All], its channels
    [doneChan] and [errChan] and its array [values], once the executor
    has made them. *)
Context (ps : list nat) (pA dC eC aS : nat).

(** The continuations that [All] gives to [Then] and [Catch],
    lines 154-162. *)
Definition on_value (i : nat) (val : any) : prog :=
  SetIndex aS i val (Send dC (ABool true) (Ret val)).

Definition on_error (err : error) : prog :=
  Send eC (any_of_error err) (Ret (any_of_error err)).

(** Where the task of [Then] on the promise of index [i] stands: about
    to wait, about to write the value, about to signal, or done with
    the array and the channel (after the signal, or because the promise
    was rejected). *)
Inductive tphase : Type :=
| T_await (r : nat)
| T_write (r : nat) (v : any)
| T_send (r : nat) (v : any)
| T_sent (v : any)
| T_skip (g : goerror).

(** Where the task of [Catch] stands. *)
Inductive cphase : Type :=
| C_await (r : nat)
| C_send (r : nat) (g : goerror)
| C_sent (g : goerror)
| C_skip.

Definition then_task (i p : nat) (ph : tphase) : list task :=
  match ph with
  | T_await r => [mkTask (Some r) (Some (Then_exec (Some p) (on_value i) r))]
  | T_write r v =>
      [mkTask (Some r) (Some (SetIndex aS i v (Send dC (ABool true) (finish r v))))]
  | T_send r v => [mkTask (Some r) (Some (Send dC (ABool true) (finish r v)))]
  | T_sent _ | T_skip _ => []
  end.

Definition catch_task (p : nat) (ph : cphase) : list task :=
  match ph with
  | C_await r => [mkTask (Some r) (Some (Catch_exec (Some p) on_error r))]
  | C_send r g =>
      [mkTask (Some r) (Some (Send eC (AError g) (finish r (AError g))))]
  | C_sent _ | C_skip => []
  end.

Fixpoint then_tasks (i : nat) (l : list nat) (ths : list tphase) : list task :=
  match l, ths with
  | p :: l', ph :: ths' => then_task i p ph ++ then_tasks (S i) l' ths'
  | _, _ => []
  end.

Fixpoint catch_tasks (l : list nat) (cas : list cphase) : list task :=
  match l, cas with
  | p :: l', ph :: cas' => catch_task p ph ++ catch_tasks l' cas'
  | _, _ => []
  end.

(** Where the executor of [All] stands, once it has made its channels
    and its array. *)
Inductive aphase : Type :=
| A_range (j : nat) (catch_next : bool)
| A_collect (k : nat)
| A_reject (e : error)
| A_done (c : settle_call) (exited : bool).

Definition collect_code (k : nat) : prog :=
  All_collect pA dC eC k (Call_resolve pA (ASlice aS) (Ret ANil)).

Definition range_code (j : nat) (l : list nat) : prog :=
  All_range dC eC aS j (Some <$> l) (collect_code (length ps)).

Definition slice_code (d e : nat) : prog :=
  MakeSlice (length ps) (fun values =>
    All_range d e values 0 (Some <$> ps)
      (All_collect pA d e (length ps) (Call_resolve pA (ASlice values) (Ret ANil)))).

Definition acode (a : aphase) : option prog :=
  match a with
  | A_range j false => Some (range_code j (drop j ps))
  | A_range j true =>
      Some (Catch (ps !! j) on_error (fun _ => range_code (S j) (drop (S j) ps)))
  | A_collect k => Some (collect_code k)
  | A_reject e => Some (Call_reject pA e (Ret ANil))
  | A_done _ false => Some (Ret ANil)
  | A_done _ true => None
  end.

Definition acell (a : aphase) : Promise :=
  match a with
  | A_done c _ => (settle c pending_promise).1
  | _ => pending_promise
  end.

(** What is known of [All] at a point of a run: where its executor
    stands, where the tasks it has started stand, how many signals wait
    in [doneChan], the errors that wait in [errChan], the array, and the
    other tasks. *)
Record view : Type := mkView {
  v_phase : aphase;
  v_thens : list tphase;
  v_catches : list cphase;
  v_done : nat;
  v_errs : list goerror;
  v_vals : list any;
  v_rest : list task
}.

(** The promise [p] is settled, with this value and this reason. *)
Definition settled_as (s : state) (p : nat) (v : any) (e : error) : Prop :=
  exists cell, promises s !! p = Some cell /\ status cell <> PENDING
    /\ wg cell = 0 /\ value cell = v /\ reason cell = e.

(** The error is the reason of one of the promises. *)
Definition from_constituent (s : state) (e : error) : Prop :=
  exists i p g v, ps !! i = Some p /\ e = Some g /\ settled_as s p v (Some g).

Definition then_ok (s : state) (vals : list any) (i p : nat) (ph : tphase) : Prop :=
  match ph with
  | T_await r => r <> pA
  | T_write r v => r <> pA /\ settled_as s p v None
  | T_send r v => r <> pA /\ settled_as s p v None /\ vals !! i = Some v
  | T_sent v => settled_as s p v None /\ vals !! i = Some v
  | T_skip g => exists v, settled_as s p v (Some g)
  end.

Definition catch_ok (s : state) (p : nat) (ph : cphase) : Prop :=
  match ph with
  | C_await r => r <> pA
  | C_send r g => r <> pA /\ exists v, settled_as s p v (Some g)
  | C_sent g => exists v, settled_as s p v (Some g)
  | C_skip => exists v, settled_as s p v None
  end.

Definition sent (ph : tphase) : nat := match ph with T_sent _ => 1 | _ => 0 end.
Definition csent (ph : cphase) : nat := match ph with C_sent _ => 1 | _ => 0 end.

Definition chans_ok (nd : nat) (errs : list goerror) (s : state) : Prop :=
  chans s !! dC = Some (mkChan (length ps) (replicate nd (ABool true)))
  /\ chans s !! eC = Some (mkChan 1 (AError <$> errs)).

Definition slices_ok (vals : list any) (s : state) : Prop :=
  slices s !! aS = Some vals.

(** How many tasks of [Then] and of [Catch] have been started. *)
Definition started_ok (a : aphase) (nt nc : nat) : Prop :=
  match a with
  | A_range j false => nt = j /\ nc = j /\ j < length ps
  | A_range j true => nt = S j /\ nc = j /\ j < length ps
  | _ => nt = length ps /\ nc = length ps
  end.

(** The signals: every one sent is in a buffer or was taken by the loop. *)
Definition signals_ok (a : aphase) (ths : list tphase) (cas : list cphase)
    (nd : nat) (errs : list goerror) : Prop :=
  match a with
  | A_collect k =>
      k <= length ps /\ sum_list_with sent ths = nd + (length ps - k)
      /\ sum_list_with csent cas = length errs
  | A_reject _ | A_done _ _ => True
  | _ => sum_list_with sent ths = nd /\ sum_list_with csent cas = length errs
  end.

(** What the loop has decided. *)
Definition decided_ok (a : aphase) (ths : list tphase) (s : state) : Prop :=
  match a with
  | A_reject e | A_done (call_reject e) _ => from_constituent s e
  | A_done (call_resolve v) _ =>
      v = ASlice aS /\ sum_list_with sent ths = length ps
  | _ => True
  end.

Record Rel (w : view) (s : state) : Prop := mkRel {
  R_tasks : tasks s ≡ₚ
    mkTask (Some pA) (acode (v_phase w))
      :: then_tasks 0 ps (v_thens w) ++ catch_tasks ps (v_catches w) ++ v_rest w;
  R_rest : Forall (bystander pA (own_chans dC eC) (own_slice aS)) (v_rest w);
  R_heap : Forall consistent (promises s);
  R_pA : promises s !! pA = Some (acell (v_phase w));
  R_chans : chans_ok (v_done w) (v_errs w) s;
  R_slices : slices_ok (v_vals w) s;
  R_vals : length (v_vals w) = length ps;
  R_started : started_ok (v_phase w) (length (v_thens w)) (length (v_catches w));
  R_thens : forall i p ph, ps !! i = Some p -> v_thens w !! i = Some ph ->
    then_ok s (v_vals w) i p ph;
  R_catches : forall i p ph, ps !! i = Some p -> v_catches w !! i = Some ph ->
    catch_ok s p ph;
  R_signals : signals_ok (v_phase w) (v_thens w) (v_catches w) (v_done w) (v_errs w);
  R_errs : Forall (fun g => from_constituent s (Some g)) (v_errs w);
  R_decided : decided_ok (v_phase w) (v_thens w) s
}.


(** *** The tasks of a list of phases *)

Lemma then_tasks_peel i0 l ths i p ph ph' :
  l !! i = Some p -> ths !! i = Some ph ->
  then_tasks i0 l (<[i := ph']> ths)
    ≡ₚ then_task (i0 + i) p ph' ++ then_tasks i0 l (<[i := T_sent ANil]> ths).
Proof.
  revert i0 ths i. induction l as [|q l IH]; intros i0 [|ph0 ths] [|i] Hl Ht;
    simpl in *; try done.
  - injection Hl as ->. by rewrite Nat.add_0_r.
  - rewrite (IH (S i0) ths i Hl Ht).
    replace (S i0 + i) with (i0 + S i) by lia. solve_Permutation.
Qed.

Lemma then_tasks_peel_id i0 l ths i p ph :
  l !! i = Some p -> ths !! i = Some ph ->
  then_tasks i0 l ths
    ≡ₚ then_task (i0 + i) p ph ++ then_tasks i0 l (<[i := T_sent ANil]> ths).
Proof.
  intros Hl Ht. rewrite <- (then_tasks_peel i0 l ths i p ph ph Hl Ht).
  by rewrite list_insert_id.
Qed.

Lemma then_tasks_snoc i0 l ths p ph :
  l !! length ths = Some p ->
  then_tasks i0 l (ths ++ [ph])
    = then_tasks i0 l ths ++ then_task (i0 + length ths) p ph.
Proof.
  revert i0 ths. induction l as [|q l IH]; intros i0 [|ph0 ths] Hl;
    simpl in *; try done.
  - injection Hl as ->. rewrite Nat.add_0_r. destruct l; simpl; by rewrite app_nil_r.
  - rewrite (IH (S i0) ths Hl). rewrite <- app_assoc.
    by replace (S i0 + length ths) with (i0 + S (length ths)) by lia.
Qed.

Lemma then_tasks_nil i0 l : then_tasks i0 l [] = [].
Proof. by destruct l. Qed.

Lemma catch_tasks_nil l : catch_tasks l [] = [].
Proof. by destruct l. Qed.

Lemma then_tasks_elem i0 l ths t :
  t ∈ then_tasks i0 l ths ->
  exists i p ph, l !! i = Some p /\ ths !! i = Some ph /\ t ∈ then_task (i0 + i) p ph.
Proof.
  revert i0 ths. induction l as [|q l IH]; intros i0 [|ph0 ths] H;
    simpl in *; try by apply elem_of_nil in H.
  apply elem_of_app in H as [H|H].
  - exists 0, q, ph0. by rewrite Nat.add_0_r.
  - apply IH in H as (i & p & ph & ? & ? & ?).
    exists (S i), p, ph. by replace (i0 + S i) with (S i0 + i) by lia.
Qed.

Lemma catch_tasks_peel l cas i p ph ph' :
  l !! i = Some p -> cas !! i = Some ph ->
  catch_tasks l (<[i := ph']> cas)
    ≡ₚ catch_task p ph' ++ catch_tasks l (<[i := C_skip]> cas).
Proof.
  revert cas i. induction l as [|q l IH]; intros [|ph0 cas] [|i] Hl Ht;
    simpl in *; try done.
  - by injection Hl as ->.
  - rewrite (IH cas i Hl Ht). solve_Permutation.
Qed.

Lemma catch_tasks_peel_id l cas i p ph :
  l !! i = Some p -> cas !! i = Some ph ->
  catch_tasks l cas ≡ₚ catch_task p ph ++ catch_tasks l (<[i := C_skip]> cas).
Proof.
  intros Hl Ht. rewrite <- (catch_tasks_peel l cas i p ph ph Hl Ht).
  by rewrite list_insert_id.
Qed.

Lemma catch_tasks_snoc l cas p ph :
  l !! length cas = Some p ->
  catch_tasks l (cas ++ [ph]) = catch_tasks l cas ++ catch_task p ph.
Proof.
  revert cas. induction l as [|q l IH]; intros [|ph0 cas] Hl; simpl in *; try done.
  - injection Hl as ->. destruct l; simpl; by rewrite app_nil_r.
  - rewrite (IH cas Hl). by rewrite <- app_assoc.
Qed.

Lemma catch_tasks_elem l cas t :
  t ∈ catch_tasks l cas ->
  exists i p ph, l !! i = Some p /\ cas !! i = Some ph /\ t ∈ catch_task p ph.
Proof.
  revert cas. induction l as [|q l IH]; intros [|ph0 cas] H;
    simpl in *; try by apply elem_of_nil in H.
  apply elem_of_app in H as [H|H].
  - by exists 0, q, ph0.
  - apply IH in H as (i & p & ph & ? & ? & ?). by exists (S i), p, ph.
Qed.

(** *** What a step keeps *)

Lemma settled_as_step ch s s' p v e :
  step ch s = Some s' -> settled_as s p v e -> settled_as s' p v e.
Proof.
  intros H (cell & Hp & Hs & ?). exists cell. split; [|done].
  by eapply step_settled.
Qed.

Lemma from_constituent_step ch s s' e :
  step ch s = Some s' -> from_constituent s e -> from_constituent s' e.
Proof.
  intros H (i & p & g & v & ? & ? & Hs). exists i, p, g, v.
  split_and!; [done..|]. by eapply settled_as_step.
Qed.

Lemma then_ok_step ch s s' vals vals' i p ph :
  step ch s = Some s' -> vals' !! i = vals !! i ->
  then_ok s vals i p ph -> then_ok s' vals' i p ph.
Proof.
  intros H Hv. destruct ph; simpl; rewrite ?Hv; try done.
  - intros [? ?]. eauto using settled_as_step.
  - intros (? & ? & ?). eauto using settled_as_step.
  - intros (? & ?). eauto using settled_as_step.
  - intros (v & ?). eauto using settled_as_step.
Qed.

Lemma catch_ok_step ch s s' p ph :
  step ch s = Some s' -> catch_ok s p ph -> catch_ok s' p ph.
Proof.
  intros H. destruct ph; simpl; try done.
  - intros (? & v & ?). eauto using settled_as_step.
  - intros (v & ?). eauto using settled_as_step.
  - intros (v & ?). eauto using settled_as_step.
Qed.

(** *** The steps of the executor of [All] *)

Ltac rel_intro :=
  intros [Ht Hr Hh HpA Hc Hs Hv Hst Hth Hca Hsi He Hd] Hcr Htid; simpl in *.

Ltac rel_step pick s1 c' started :=
  match goal with
  | Hcr : crashed ?s = None, Htid : tasks ?s !! ?tid = Some (mkTask ?own (Some ?c))
    |- _ =>
      let Hstep := fresh "Hstep" in
      assert (step (tid, pick) s
        = Some (set_tasks (<[tid := mkTask own c']> (tasks s) ++ started) s1)) as Hstep;
      [ apply (step_fold _ _ _ _ c); [exact Hcr|exact Htid|]
      | eexists; split; [exact Hstep|]; split; [exact Hcr|] ]
  end.

(** The parts of [Rel] that every step keeps. *)
Ltac rel_frame :=
  match goal with
  | Hstep : step _ ?s = Some ?s' |- _ =>
      first
        [ match goal with H : Forall consistent (promises s) |- _ =>
            exact (step_consistent _ _ _ Hstep H) end
        | match goal with H : forall i p ph, _ -> _ -> then_ok s _ i p ph |- _ =>
            let i := fresh in let q := fresh in let ph := fresh in
            let Hq := fresh in let Hi := fresh in
            intros i q ph Hq Hi;
            exact (then_ok_step _ _ _ _ _ _ _ _ Hstep eq_refl (H _ _ _ Hq Hi)) end
        | match goal with H : forall i p ph, _ -> _ -> catch_ok s p ph |- _ =>
            let i := fresh in let q := fresh in let ph := fresh in
            let Hq := fresh in let Hi := fresh in
            intros i q ph Hq Hi;
            exact (catch_ok_step _ _ _ _ _ Hstep (H _ _ _ Hq Hi)) end
        | match goal with H : Forall (fun g => from_constituent s (Some g)) ?l
            |- Forall _ ?l =>
            exact (Forall_impl _ _ _ H
                     (fun g => from_constituent_step _ _ _ _ Hstep)) end
        | (simpl; done)
        | simpl ]
  end.

Hypothesis ps_nonempty : 0 < length ps.
Hypothesis chans_apart : dC <> eC.

Lemma sum_sent_le ths : sum_list_with sent ths <= length ths.
Proof. induction ths as [|[] ths IH]; simpl; lia. Qed.

Lemma A_range_then_moves j ths cas nd errs vals rest s tid pick :
  Rel (mkView (A_range j false) ths cas nd errs vals rest) s -> crashed s = None ->
  tasks s !! tid = Some (mkTask (Some pA) (acode (A_range j false))) ->
  exists s', step (tid, pick) s = Some s' /\ crashed s' = None
    /\ Rel (mkView (A_range j true) (ths ++ [T_await (length (promises s))])
             cas nd errs vals rest) s'.
Proof.
  rel_intro. destruct Hc as (Hd0 & Hd1). destruct Hst as (Hnt & Hnc & Hj).
  destruct (lookup_lt_is_Some_2 ps j Hj) as [p Hp].
  pose proof (lookup_lt_Some _ _ _ HpA) as HltA.
  rewrite (drop_S _ _ _ Hp) in Htid, Ht. simpl in Htid, Ht.
  rel_step pick (alloc_promise pending_promise s)
    (acode (A_range j true))
    [mkTask (Some (length (promises s)))
       (Some (Then_exec (Some p) (on_value j) (length (promises s))))].
  { simpl. by rewrite Hp. }
  constructor; rel_frame.
  - eapply tasks_after_step; [done..|].
    rewrite (then_tasks_snoc 0 ps ths p) by (by rewrite Hnt). simpl.
    rewrite Hnt. solve_Permutation.
  - by apply lookup_app_l_Some.
  - rewrite length_app. simpl. lia.
  - intros i q ph Hq Hi. apply lookup_app_Some in Hi as [Hi|[Hlen Hi]].
    + exact (then_ok_step _ _ _ _ _ _ _ _ Hstep eq_refl (Hth _ _ _ Hq Hi)).
    + destruct (i - length ths); simpl in Hi; [|by rewrite lookup_nil in Hi].
      injection Hi as <-. simpl. lia.
  - rewrite sum_list_with_app. simpl. by rewrite Nat.add_0_r.
Qed.

(** Where the first loop goes after the promise of index [j]. *)
Definition after_range (j : nat) : aphase :=
  if decide (S j < length ps) then A_range (S j) false else A_collect (length ps).

Lemma acode_after_range j :
  j < length ps -> acode (after_range j) = Some (range_code (S j) (drop (S j) ps)).
Proof.
  intros Hj. unfold after_range. destruct (decide _) as [H|H]; [done|].
  simpl. by rewrite drop_ge by lia.
Qed.

Lemma A_range_catch_moves j ths cas nd errs vals rest s tid pick :
  Rel (mkView (A_range j true) ths cas nd errs vals rest) s -> crashed s = None ->
  tasks s !! tid = Some (mkTask (Some pA) (acode (A_range j true))) ->
  exists s', step (tid, pick) s = Some s' /\ crashed s' = None
    /\ Rel (mkView (after_range j) ths (cas ++ [C_await (length (promises s))])
             nd errs vals rest) s'.
Proof.
  rel_intro. destruct Hc as (Hd0 & Hd1). destruct Hst as (Hnt & Hnc & Hj).
  destruct (lookup_lt_is_Some_2 ps j Hj) as [p Hp].
  pose proof (lookup_lt_Some _ _ _ HpA) as HltA.
  rewrite Hp in Htid, Ht. simpl in Htid, Ht.
  rel_step pick (alloc_promise pending_promise s)
    (acode (after_range j))
    [mkTask (Some (length (promises s)))
       (Some (Catch_exec (Some p) on_error (length (promises s))))].
  { simpl. by rewrite acode_after_range. }
  assert (forall a, a = after_range j ->
    (a = A_range (S j) false /\ S j < length ps)
    \/ (a = A_collect (length ps) /\ S j = length ps)) as Hnext.
  { intros a ->. unfold after_range. destruct (decide _); [by left|right].
    split; [done|lia]. }
  constructor; rel_frame.
  - eapply tasks_after_step; [done..|].
    rewrite (catch_tasks_snoc ps cas p) by (by rewrite Hnc). simpl.
    solve_Permutation.
  - rewrite lookup_app_l by done.
    destruct (Hnext _ eq_refl) as [[-> _]|[-> _]]; done.
  - rewrite length_app. simpl.
    destruct (Hnext _ eq_refl) as [[-> ?]|[-> ?]]; simpl; lia.
  - intros i q ph Hq Hi. apply lookup_app_Some in Hi as [Hi|[Hlen Hi]].
    + exact (catch_ok_step _ _ _ _ _ Hstep (Hca _ _ _ Hq Hi)).
    + destruct (i - length cas); simpl in Hi; [|by rewrite lookup_nil in Hi].
      injection Hi as <-. simpl. lia.
  - destruct Hsi as [Hsi1 Hsi2].
    destruct (Hnext _ eq_refl) as [[-> ?]|[-> ?]]; simpl;
      rewrite sum_list_with_app; simpl; rewrite Nat.add_0_r; [done|].
    split_and!; [done| |done]. rewrite Nat.sub_diag. lia.
  - destruct (Hnext _ eq_refl) as [[-> ?]|[-> ?]]; done.
Qed.


Lemma A_collect_done_moves k ths cas nd errs vals rest s tid pick :
  Rel (mkView (A_collect (S k)) ths cas (S nd) errs vals rest) s -> crashed s = None ->
  tasks s !! tid = Some (mkTask (Some pA) (acode (A_collect (S k)))) ->
  errs = [] \/ pick = true ->
  exists s', step (tid, pick) s = Some s' /\ crashed s' = None
    /\ Rel (mkView (A_collect k) ths cas nd errs vals rest) s'.
Proof.
  rel_intro. intros Hpick. destruct Hc as (Hd0 & Hd1).
  rel_step pick (set_chan dC (mkChan (length ps) (replicate nd (ABool true))) s)
    (acode (A_collect k)) (@nil task).
  { simpl. rewrite Hd0, Hd1. simpl. destruct Hpick as [->| ->]; [done|].
    by destruct errs. }
  constructor; rel_frame.
  - eapply tasks_after_step; [done..|]. solve_Permutation.
  - split.
    + apply list_lookup_insert_eq. by eapply lookup_lt_Some.
    + simpl. by rewrite list_lookup_insert_ne.
  - lia.
Qed.

Lemma A_collect_err_moves k ths cas nd g errs vals rest s tid pick :
  Rel (mkView (A_collect (S k)) ths cas nd (g :: errs) vals rest) s -> crashed s = None ->
  tasks s !! tid = Some (mkTask (Some pA) (acode (A_collect (S k)))) ->
  nd = 0 \/ pick = false ->
  exists s', step (tid, pick) s = Some s' /\ crashed s' = None
    /\ Rel (mkView (A_reject (Some g)) ths cas nd errs vals rest) s'.
Proof.
  rel_intro. intros Hpick. destruct Hc as (Hd0 & Hd1).
  rel_step pick (set_chan eC (mkChan 1 (AError <$> errs)) s)
    (acode (A_reject (Some g))) (@nil task).
  { simpl. rewrite Hd0, Hd1. simpl. destruct Hpick as [->| ->]; [done|].
    by destruct nd. }
  apply Forall_cons in He as [Hg He].
  constructor; rel_frame.
  - eapply tasks_after_step; [done..|]. solve_Permutation.
  - split.
    + simpl. by rewrite list_lookup_insert_ne.
    + apply list_lookup_insert_eq. by eapply lookup_lt_Some.
Qed.

Lemma A_resolve_moves ths cas nd errs vals rest s tid pick :
  Rel (mkView (A_collect 0) ths cas nd errs vals rest) s -> crashed s = None ->
  tasks s !! tid = Some (mkTask (Some pA) (acode (A_collect 0))) ->
  exists s', step (tid, pick) s = Some s' /\ crashed s' = None
    /\ Rel (mkView (A_done (call_resolve (ASlice aS)) false) ths cas nd errs vals rest) s'.
Proof.
  rel_intro.
  rel_step pick (set_promise pA (acell (A_done (call_resolve (ASlice aS)) false)) s)
    (Some (Ret ANil)) (@nil task).
  { simpl. unfold do_settle. by rewrite HpA. }
  constructor; rel_frame.
  - eapply tasks_after_step; [done..|]. solve_Permutation.
  - apply list_lookup_insert_eq. by eapply lookup_lt_Some.
  - split; [done|]. pose proof (sum_sent_le ths). lia.
Qed.

Lemma A_reject_moves e ths cas nd errs vals rest s tid pick :
  Rel (mkView (A_reject e) ths cas nd errs vals rest) s -> crashed s = None ->
  tasks s !! tid = Some (mkTask (Some pA) (acode (A_reject e))) ->
  exists s', step (tid, pick) s = Some s' /\ crashed s' = None
    /\ Rel (mkView (A_done (call_reject e) false) ths cas nd errs vals rest) s'.
Proof.
  rel_intro.
  rel_step pick (set_promise pA (acell (A_done (call_reject e) false)) s)
    (Some (Ret ANil)) (@nil task).
  { simpl. unfold do_settle. by rewrite HpA. }
  constructor; rel_frame.
  - eapply tasks_after_step; [done..|]. solve_Permutation.
  - apply list_lookup_insert_eq. by eapply lookup_lt_Some.
  - exact (from_constituent_step _ _ _ _ Hstep Hd).
Qed.

Lemma decided_ok_step ch s s' a ths ths' :
  step ch s = Some s' -> sum_list_with sent ths' = sum_list_with sent ths ->
  decided_ok a ths s -> decided_ok a ths' s'.
Proof.
  intros H Hsum. destruct a as [| |e|[v|e] x]; simpl; try done.
  - by apply (from_constituent_step ch).
  - by rewrite Hsum.
  - by apply (from_constituent_step ch).
Qed.

Lemma A_exit_moves c ths cas nd errs vals rest s tid pick :
  Rel (mkView (A_done c false) ths cas nd errs vals rest) s -> crashed s = None ->
  tasks s !! tid = Some (mkTask (Some pA) (acode (A_done c false))) ->
  exists s', step (tid, pick) s = Some s' /\ crashed s' = None
    /\ Rel (mkView (A_done c true) ths cas nd errs vals rest) s'.
Proof.
  rel_intro.
  rel_step pick (set_promise pA (acell (A_done c false)) s) (@None prog) (@nil task).
  { simpl. unfold deferred. rewrite HpA. by destruct c. }
  constructor; rel_frame.
  - eapply tasks_after_step; [done..|]. solve_Permutation.
  - apply list_lookup_insert_eq. by eapply lookup_lt_Some.
  - exact (decided_ok_step _ _ _ (A_done c false) _ _ Hstep eq_refl Hd).
Qed.


(** *** The steps of the tasks of [Then] and [Catch] *)

Lemma signals_ok_same a ths ths' cas cas' nd errs :
  sum_list_with sent ths' = sum_list_with sent ths ->
  sum_list_with csent cas' = sum_list_with csent cas ->
  signals_ok a ths cas nd errs -> signals_ok a ths' cas' nd errs.
Proof. intros H1 H2. destruct a; simpl; by rewrite ?H1, ?H2. Qed.

Lemma signals_ok_done a ths ths' cas nd errs :
  sum_list_with sent ths' = S (sum_list_with sent ths) ->
  signals_ok a ths cas nd errs -> signals_ok a ths' cas (S nd) errs.
Proof. intros H1. destruct a; simpl; rewrite ?H1; try done; lia. Qed.

Lemma signals_ok_err a ths cas cas' nd errs g :
  sum_list_with csent cas' = S (sum_list_with csent cas) ->
  signals_ok a ths cas nd errs -> signals_ok a ths cas' nd (errs ++ [g]).
Proof.
  intros H1. destruct a; simpl; rewrite ?H1, ?length_app; simpl; try done; lia.
Qed.

Lemma settled_cell s p cell :
  Forall consistent (promises s) -> promises s !! p = Some cell -> wg cell = 0 ->
  settled_as s p (value cell) (reason cell).
Proof.
  intros Hh Hp Hwg. exists cell. split_and!; try done.
  rewrite Forall_lookup in Hh. by apply (consistent_wg _ (Hh _ _ Hp)).
Qed.

Ltac worker_intro :=
  intros [Ht Hr Hh HpA Hc Hs Hv Hst Hth Hca Hsi He Hd] Hcr Htid Hp Hph; simpl in *.

Lemma T_await_value_moves a ths cas nd errs vals rest s tid pick i p r cell :
  Rel (mkView a ths cas nd errs vals rest) s -> crashed s = None ->
  tasks s !! tid = Some (mkTask (Some r) (Some (Then_exec (Some p) (on_value i) r))) ->
  ps !! i = Some p -> ths !! i = Some (T_await r) ->
  promises s !! p = Some cell -> wg cell = 0 -> reason cell = None ->
  exists s', step (tid, pick) s = Some s' /\ crashed s' = None
    /\ Rel (mkView a (<[i := T_write r (value cell)]> ths) cas nd errs vals rest) s'.
Proof.
  worker_intro. intros Hcell Hwg Hreason.
  rel_step pick s
    (Some (SetIndex aS i (value cell) (Send dC (ABool true) (finish r (value cell)))))
    (@nil task).
  { simpl. by rewrite Hcell, Hwg, Hreason. }
  pose proof (sum_list_with_insert sent ths i _ (T_write r (value cell)) Hph) as Hsum.
  simpl in Hsum.
  constructor; rel_frame.
  - eapply tasks_after_step; [done..|].
    rewrite (then_tasks_peel 0 ps ths i p _ (T_write r (value cell)) Hp Hph).
    rewrite (then_tasks_peel_id 0 ps ths i p _ Hp Hph). simpl. solve_Permutation.
  - by rewrite length_insert.
  - intros i' q ph Hq Hi. destruct (decide (i' = i)) as [->|Hne].
    + rewrite list_lookup_insert_eq in Hi by (by eapply lookup_lt_Some).
      injection Hi as <-. simpl. rewrite Hp in Hq. injection Hq as <-.
      split; [exact (Hth _ _ _ Hp Hph)|].
      rewrite <- Hreason. by apply settled_cell.
    + rewrite list_lookup_insert_ne in Hi by done. eauto.
  - eapply signals_ok_same; [|done..]. lia.
  - eapply decided_ok_step; [done| |done]. lia.
Qed.

Lemma T_await_error_moves a ths cas nd errs vals rest s tid pick i p r cell g :
  Rel (mkView a ths cas nd errs vals rest) s -> crashed s = None ->
  tasks s !! tid = Some (mkTask (Some r) (Some (Then_exec (Some p) (on_value i) r))) ->
  ps !! i = Some p -> ths !! i = Some (T_await r) ->
  promises s !! p = Some cell -> wg cell = 0 -> reason cell = Some g ->
  exists s', step (tid, pick) s = Some s' /\ crashed s' = None
    /\ Rel (mkView a (<[i := T_skip g]> ths) cas nd errs vals
             (mkTask (Some r) (Some (Call_reject r (Some g) (Ret ANil))) :: rest)) s'.
Proof.
  worker_intro. intros Hcell Hwg Hreason.
  rel_step pick s (Some (Call_reject r (Some g) (Ret ANil))) (@nil task).
  { simpl. by rewrite Hcell, Hwg, Hreason. }
  pose proof (sum_list_with_insert sent ths i _ (T_skip g) Hph) as Hsum.
  simpl in Hsum.
  pose proof (Hth _ _ _ Hp Hph) as Hr0. simpl in Hr0.
  constructor; rel_frame.
  - eapply tasks_after_step; [done..|].
    rewrite (then_tasks_peel 0 ps ths i p _ (T_skip g) Hp Hph).
    rewrite (then_tasks_peel_id 0 ps ths i p _ Hp Hph). simpl. solve_Permutation.
  - constructor; [|done]. apply bystander_code; [by intros [=]|].
    by repeat constructor.
  - by rewrite length_insert.
  - intros i' q ph Hq Hi. destruct (decide (i' = i)) as [->|Hne].
    + rewrite list_lookup_insert_eq in Hi by (by eapply lookup_lt_Some).
      injection Hi as <-. simpl. rewrite Hp in Hq. injection Hq as <-.
      exists (value cell). rewrite <- Hreason. by apply settled_cell.
    + rewrite list_lookup_insert_ne in Hi by done. eauto.
  - eapply signals_ok_same; [|done..]. lia.
  - eapply decided_ok_step; [done| |done]. lia.
Qed.


Lemma T_write_moves a ths cas nd errs vals rest s tid pick i p r v :
  Rel (mkView a ths cas nd errs vals rest) s -> crashed s = None ->
  tasks s !! tid
    = Some (mkTask (Some r) (Some (SetIndex aS i v (Send dC (ABool true) (finish r v))))) ->
  ps !! i = Some p -> ths !! i = Some (T_write r v) ->
  exists s', step (tid, pick) s = Some s' /\ crashed s' = None
    /\ Rel (mkView a (<[i := T_send r v]> ths) cas nd errs (<[i := v]> vals) rest) s'.
Proof.
  worker_intro.
  assert (0 < length ths + length cas) as Hlate
    by (apply lookup_lt_Some in Hph; lia).
  assert (i < length vals) as Hi by (rewrite Hv; by eapply lookup_lt_Some).
  rel_step pick (set_slice aS (<[i := v]> vals) s)
    (Some (Send dC (ABool true) (finish r v))) (@nil task).
  { simpl. rewrite Hs. by rewrite decide_True. }
  pose proof (sum_list_with_insert sent ths i _ (T_send r v) Hph) as Hsum.
  simpl in Hsum.
  pose proof (Hth _ _ _ Hp Hph) as [Hr0 Hset]. 
  constructor; rel_frame.
  - eapply tasks_after_step; [done..|].
    rewrite (then_tasks_peel 0 ps ths i p _ (T_send r v) Hp Hph).
    rewrite (then_tasks_peel_id 0 ps ths i p _ Hp Hph). simpl. solve_Permutation.
  - apply list_lookup_insert_eq. by eapply lookup_lt_Some.
  - by rewrite length_insert.
  - by rewrite length_insert.
  - intros i' q ph Hq Hi'. destruct (decide (i' = i)) as [->|Hne].
    + rewrite list_lookup_insert_eq in Hi' by (by eapply lookup_lt_Some).
      injection Hi' as <-. simpl. rewrite Hp in Hq. injection Hq as <-.
      split_and!; [done..|]. by apply list_lookup_insert_eq.
    + rewrite list_lookup_insert_ne in Hi' by done.
      eapply (then_ok_step _ _ _ vals); [done| |by eauto].
      by rewrite list_lookup_insert_ne.
  - eapply signals_ok_same; [|done..]. lia.
  - eapply decided_ok_step; [done| |done]. lia.
Qed.

Lemma sum_sent_all ths i ph :
  sum_list_with sent ths = length ths -> ths !! i = Some ph -> sent ph = 1.
Proof.
  revert i. induction ths as [|ph0 ths IH]; intros [|i] Hsum Hi; simpl in *; try done.
  - injection Hi as ->. pose proof (sum_sent_le ths). destruct ph; simpl in *; lia.
  - apply (IH i); [|done]. pose proof (sum_sent_le ths).
    destruct ph0; simpl in *; lia.
Qed.

Lemma T_send_moves a ths cas nd errs vals rest s tid pick i p r v :
  Rel (mkView a ths cas nd errs vals rest) s -> crashed s = None ->
  tasks s !! tid = Some (mkTask (Some r) (Some (Send dC (ABool true) (finish r v)))) ->
  ps !! i = Some p -> ths !! i = Some (T_send r v) ->
  nd < length ps ->
  exists s', step (tid, pick) s = Some s' /\ crashed s' = None
    /\ Rel (mkView a (<[i := T_sent v]> ths) cas (S nd) errs vals
             (mkTask (Some r) (Some (finish r v)) :: rest)) s'.
Proof.
  worker_intro. intros Hnd.
  assert (0 < length ths + length cas) as Hlate
    by (apply lookup_lt_Some in Hph; lia).
  destruct Hc as [Hd0 Hd1].
  rel_step pick (set_chan dC (mkChan (length ps) (replicate (S nd) (ABool true))) s)
    (Some (finish r v)) (@nil task).
  { simpl. rewrite Hd0. simpl. rewrite length_replicate.
    rewrite decide_True by done. by rewrite <- replicate_S_end. }
  pose proof (sum_list_with_insert sent ths i _ (T_sent v) Hph) as Hsum.
  simpl in Hsum.
  pose proof (Hth _ _ _ Hp Hph) as (Hr0 & Hset & Hval).
  constructor; rel_frame.
  - eapply tasks_after_step; [done..|].
    rewrite (then_tasks_peel 0 ps ths i p _ (T_sent v) Hp Hph).
    rewrite (then_tasks_peel_id 0 ps ths i p _ Hp Hph). simpl. solve_Permutation.
  - constructor; [|done]. apply bystander_code; [by intros [=]|].
    by apply quiet_finish.
  - split.
    + apply list_lookup_insert_eq. by eapply lookup_lt_Some.
    + simpl. by rewrite list_lookup_insert_ne.
  - by rewrite length_insert.
  - intros i' q ph Hq Hi'. destruct (decide (i' = i)) as [->|Hne].
    + rewrite list_lookup_insert_eq in Hi' by (by eapply lookup_lt_Some).
      injection Hi' as <-. simpl. rewrite Hp in Hq. by injection Hq as <-.
    + rewrite list_lookup_insert_ne in Hi' by done. eauto.
  - eapply signals_ok_done; [|done]. lia.
  - destruct a as [| |e|[w|e] x]; simpl in *; try done.
    destruct Hd as [_ Hall], Hst as [Hnt _].
    rewrite <- Hnt in Hall. by apply (sum_sent_all _ _ _ Hall) in Hph.
Qed.


Lemma C_await_error_moves a ths cas nd errs vals rest s tid pick i p r cell g :
  Rel (mkView a ths cas nd errs vals rest) s -> crashed s = None ->
  tasks s !! tid = Some (mkTask (Some r) (Some (Catch_exec (Some p) on_error r))) ->
  ps !! i = Some p -> cas !! i = Some (C_await r) ->
  promises s !! p = Some cell -> wg cell = 0 -> reason cell = Some g ->
  exists s', step (tid, pick) s = Some s' /\ crashed s' = None
    /\ Rel (mkView a ths (<[i := C_send r g]> cas) nd errs vals rest) s'.
Proof.
  worker_intro. intros Hcell Hwg Hreason.
  rel_step pick s
    (Some (Send eC (AError g) (finish r (AError g)))) (@nil task).
  { simpl. by rewrite Hcell, Hwg, Hreason. }
  pose proof (sum_list_with_insert csent cas i _ (C_send r g) Hph) as Hsum.
  simpl in Hsum.
  constructor; rel_frame.
  - eapply tasks_after_step; [done..|].
    rewrite (catch_tasks_peel ps cas i p _ (C_send r g) Hp Hph).
    rewrite (catch_tasks_peel_id ps cas i p _ Hp Hph). simpl. solve_Permutation.
  - by rewrite length_insert.
  - intros i' q ph Hq Hi. destruct (decide (i' = i)) as [->|Hne].
    + rewrite list_lookup_insert_eq in Hi by (by eapply lookup_lt_Some).
      injection Hi as <-. simpl. rewrite Hp in Hq. injection Hq as <-.
      split; [exact (Hca _ _ _ Hp Hph)|].
      exists (value cell). rewrite <- Hreason. by apply settled_cell.
    + rewrite list_lookup_insert_ne in Hi by done. eauto.
  - eapply signals_ok_same; [done| |done]. lia.
Qed.

Lemma C_await_value_moves a ths cas nd errs vals rest s tid pick i p r cell :
  Rel (mkView a ths cas nd errs vals rest) s -> crashed s = None ->
  tasks s !! tid = Some (mkTask (Some r) (Some (Catch_exec (Some p) on_error r))) ->
  ps !! i = Some p -> cas !! i = Some (C_await r) ->
  promises s !! p = Some cell -> wg cell = 0 -> reason cell = None ->
  exists s', step (tid, pick) s = Some s' /\ crashed s' = None
    /\ Rel (mkView a ths (<[i := C_skip]> cas) nd errs vals
             (mkTask (Some r) (Some (Ret ANil)) :: rest)) s'.
Proof.
  worker_intro. intros Hcell Hwg Hreason.
  rel_step pick s (Some (Ret ANil)) (@nil task).
  { simpl. by rewrite Hcell, Hwg, Hreason. }
  pose proof (sum_list_with_insert csent cas i _ C_skip Hph) as Hsum.
  simpl in Hsum.
  pose proof (Hca _ _ _ Hp Hph) as Hr0. simpl in Hr0.
  constructor; rel_frame.
  - eapply tasks_after_step; [done..|].
    rewrite (catch_tasks_peel ps cas i p _ C_skip Hp Hph).
    rewrite (catch_tasks_peel_id ps cas i p _ Hp Hph). simpl. solve_Permutation.
  - constructor; [|done]. apply bystander_code; [by intros [=]|]. constructor.
  - by rewrite length_insert.
  - intros i' q ph Hq Hi. destruct (decide (i' = i)) as [->|Hne].
    + rewrite list_lookup_insert_eq in Hi by (by eapply lookup_lt_Some).
      injection Hi as <-. simpl. rewrite Hp in Hq. injection Hq as <-.
      exists (value cell). rewrite <- Hreason. by apply settled_cell.
    + rewrite list_lookup_insert_ne in Hi by done. eauto.
  - eapply signals_ok_same; [done| |done]. lia.
Qed.

Lemma C_send_moves a ths cas nd vals rest s tid pick i p r g :
  Rel (mkView a ths cas nd [] vals rest) s -> crashed s = None ->
  tasks s !! tid
    = Some (mkTask (Some r) (Some (Send eC (AError g) (finish r (AError g))))) ->
  ps !! i = Some p -> cas !! i = Some (C_send r g) ->
  exists s', step (tid, pick) s = Some s' /\ crashed s' = None
    /\ Rel (mkView a ths (<[i := C_sent g]> cas) nd [g] vals
             (mkTask (Some r) (Some (finish r (AError g))) :: rest)) s'.
Proof.
  worker_intro.
  assert (0 < length ths + length cas) as Hlate
    by (apply lookup_lt_Some in Hph; lia).
  destruct Hc as [Hd0 Hd1].
  rel_step pick (set_chan eC (mkChan 1 [AError g]) s)
    (Some (finish r (AError g))) (@nil task).
  { simpl. by rewrite Hd1. }
  pose proof (sum_list_with_insert csent cas i _ (C_sent g) Hph) as Hsum.
  simpl in Hsum.
  pose proof (Hca _ _ _ Hp Hph) as (Hr0 & Hset).
  constructor; rel_frame.
  - eapply tasks_after_step; [done..|].
    rewrite (catch_tasks_peel ps cas i p _ (C_sent g) Hp Hph).
    rewrite (catch_tasks_peel_id ps cas i p _ Hp Hph). simpl. solve_Permutation.
  - constructor; [|done]. apply bystander_code; [by intros [=]|].
    by apply (quiet_finish pA _ _ r (AError g)).
  - split.
    + simpl. by rewrite list_lookup_insert_ne.
    + apply list_lookup_insert_eq. by eapply lookup_lt_Some.
  - by rewrite length_insert.
  - intros i' q ph Hq Hi'. destruct (decide (i' = i)) as [->|Hne].
    + rewrite list_lookup_insert_eq in Hi' by (by eapply lookup_lt_Some).
      injection Hi' as <-. simpl. rewrite Hp in Hq. by injection Hq as <-.
    + rewrite list_lookup_insert_ne in Hi' by done. eauto.
  - apply (signals_ok_err _ _ cas _ _ [] g); [|done]. lia.
  - constructor; [|done]. destruct Hset as [v Hset]. by exists i, p, g, v.
Qed.

(** *** The steps of the other tasks *)

Lemma bystander_moves a ths cas nd errs vals rest rest' s s' tid pick own c :
  Rel (mkView a ths cas nd errs vals rest) s ->
  tasks s !! tid = Some (mkTask own (Some c)) ->
  rest ≡ₚ mkTask own (Some c) :: rest' ->
  step (tid, pick) s = Some s' ->
  exists rest'', Rel (mkView a ths cas nd errs vals rest'') s'.
Proof.
  intros [Ht Hr Hh HpA Hc Hs Hv Hst Hth Hca Hsi He Hd] Htid Hrest Hstep; simpl in *.
  pose proof (lookup_lt_Some _ _ _ HpA) as HltA.
  rewrite Hrest in Hr. apply Forall_cons in Hr as [[Hown Hq] Hr]. simpl in *.
  pose proof (step_unfold _ _ _ _ Hstep)
    as (own0 & c0 & s1 & c' & started & Hcr & Htid0 & Hcode & Hs').
  rewrite Htid in Htid0. injection Htid0 as <- <-.
  destruct Hc as [Hd0 Hd1].
  destruct (quiet_step_code pA (own_chans dC eC) (own_slice aS) pick own c s s1 c' started
    (Hq _ eq_refl) Hown HltA Hcode) as ((Hch & Hsl & _ & _) & HpA' & Hby & Hst').
  { intros x [->| ->] _; by eapply lookup_lt_Some. }
  { intros x -> _. by eapply lookup_lt_Some. }
  exists (mkTask own c' :: rest' ++ started).
  constructor; rel_frame; subst s'; simpl.
  - eapply tasks_after_step; [done..|]. rewrite Hrest. solve_Permutation.
  - constructor; [done|]. by apply Forall_app.
  - by rewrite HpA'.
  - split.
    + rewrite Hch; [done|by left].
    + rewrite Hch; [done|by right].
  - unfold slices_ok. by rewrite Hsl.
  - exact (decided_ok_step _ _ _ _ _ _ Hstep eq_refl Hd).
Qed.


(** *** Every step keeps the relation *)

Ltac same_step H Hstep :=
  let s'' := fresh "s''" in let E := fresh "E" in let HR := fresh "HR" in
  destruct H as (s'' & E & _ & HR);
  rewrite Hstep in E; injection E as <-; eexists; exact HR.

Lemma Rel_step w s ch s' : Rel w s -> step ch s = Some s' -> exists w', Rel w' s'.
Proof.
  destruct w as [a ths cas nd errs vals rest], ch as [tid pick].
  intros HRel Hstep.
  pose proof (step_unfold _ _ _ _ Hstep)
    as (own & c & s1 & c' & started & Hcr & Htid & Hcode & _).
  pose proof (list_elem_of_lookup_2 _ _ _ Htid) as Hin.
  rewrite (R_tasks _ _ HRel) in Hin. simpl in Hin.
  apply elem_of_cons in Hin as [Hin|Hin];
    [|apply elem_of_app in Hin as [Hin|Hin];
      [|apply elem_of_app in Hin as [Hin|Hin]]].
  - (* the executor of All *)
    injection Hin as -> Ha. rewrite Ha in Htid.
    destruct a as [j [|]|[|k]|e|sc [|]]; try done.
    + same_step (A_range_catch_moves _ _ _ _ _ _ _ _ _ pick HRel Hcr Htid) Hstep.
    + same_step (A_range_then_moves _ _ _ _ _ _ _ _ _ pick HRel Hcr Htid) Hstep.
    + same_step (A_resolve_moves _ _ _ _ _ _ _ _ pick HRel Hcr Htid) Hstep.
    + pose proof (R_chans _ _ HRel) as [Hd0 Hd1]. simpl in Hd0, Hd1.
      injection Ha as ->. simpl in Hcode. rewrite Hd0, Hd1 in Hcode. simpl in Hcode.
      destruct nd as [|nd], errs as [|g errs]; simpl in Hcode; try done.
      * same_step (A_collect_err_moves _ _ _ _ _ _ _ _ _ _ pick HRel Hcr Htid
                     (or_introl eq_refl)) Hstep.
      * same_step (A_collect_done_moves _ _ _ _ _ _ _ _ _ pick HRel Hcr Htid
                     (or_introl eq_refl)) Hstep.
      * destruct pick.
        -- same_step (A_collect_done_moves _ _ _ _ _ _ _ _ _ true HRel Hcr Htid
                        (or_intror eq_refl)) Hstep.
        -- same_step (A_collect_err_moves _ _ _ _ _ _ _ _ _ _ false HRel Hcr Htid
                        (or_intror eq_refl)) Hstep.
    + same_step (A_reject_moves _ _ _ _ _ _ _ _ _ pick HRel Hcr Htid) Hstep.
    + same_step (A_exit_moves _ _ _ _ _ _ _ _ _ pick HRel Hcr Htid) Hstep.
  - (* a task of Then *)
    apply then_tasks_elem in Hin as (i & p & ph & Hp & Hph & Hin). simpl in Hin.
    destruct ph as [r|r v|r v|v|g]; simpl in Hin;
      try (by apply elem_of_nil in Hin);
      apply list_elem_of_singleton in Hin; injection Hin as -> ->.
    + simpl in Hcode.
      destruct (promises s !! p) as [cell|] eqn:Hcell; [|done].
      destruct (wg cell) eqn:Hwg; [|done].
      destruct (reason cell) as [g|] eqn:Hreason.
      * same_step (T_await_error_moves _ _ _ _ _ _ _ _ _ pick _ _ _ _ _
                     HRel Hcr Htid Hp Hph Hcell Hwg Hreason) Hstep.
      * same_step (T_await_value_moves _ _ _ _ _ _ _ _ _ pick _ _ _ _
                     HRel Hcr Htid Hp Hph Hcell Hwg Hreason) Hstep.
    + same_step (T_write_moves _ _ _ _ _ _ _ _ _ pick _ _ _ _
                   HRel Hcr Htid Hp Hph) Hstep.
    + assert (nd < length ps) as Hnd.
      { pose proof (R_chans _ _ HRel) as [Hd0 _]. simpl in Hd0.
        simpl in Hcode. rewrite Hd0 in Hcode. simpl in Hcode.
        rewrite length_replicate in Hcode. by destruct (decide _). }
      same_step (T_send_moves _ _ _ _ _ _ _ _ _ pick _ _ _ _
                   HRel Hcr Htid Hp Hph Hnd) Hstep.
  - (* a task of Catch *)
    apply catch_tasks_elem in Hin as (i & p & ph & Hp & Hph & Hin).
    destruct ph as [r|r g|g|]; simpl in Hin;
      try (by apply elem_of_nil in Hin);
      apply list_elem_of_singleton in Hin; injection Hin as -> ->.
    + simpl in Hcode.
      destruct (promises s !! p) as [cell|] eqn:Hcell; [|done].
      destruct (wg cell) eqn:Hwg; [|done].
      destruct (reason cell) as [g|] eqn:Hreason.
      * same_step (C_await_error_moves _ _ _ _ _ _ _ _ _ pick _ _ _ _ _
                     HRel Hcr Htid Hp Hph Hcell Hwg Hreason) Hstep.
      * same_step (C_await_value_moves _ _ _ _ _ _ _ _ _ pick _ _ _ _
                     HRel Hcr Htid Hp Hph Hcell Hwg Hreason) Hstep.
    + assert (errs = []) as ->.
      { pose proof (R_chans _ _ HRel) as [_ Hd1]. simpl in Hd1.
        simpl in Hcode. rewrite Hd1 in Hcode. simpl in Hcode.
        destruct errs; [done|]. by simpl in Hcode. }
      same_step (C_send_moves _ _ _ _ _ _ _ _ pick _ _ _ _
                   HRel Hcr Htid Hp Hph) Hstep.
  - (* another task *)
    apply elem_of_Permutation in Hin as [rest' Hrest].
    destruct (bystander_moves _ _ _ _ _ _ _ _ _ _ _ _ _ _ HRel Htid Hrest Hstep)
      as [rest'' HR].
    eexists. exact HR.
Qed.


(** *** What the promise of [All] is settled with *)

(** The promise of [All] is pending; or fulfilled with the array, which
    holds at every index the value of the promise of that index, all of
    them settled with a nil error; or rejected with the non-nil reason of
    one of the promises. *)
Definition All_outcome (s : state) : Prop :=
  forall cell, promises s !! pA = Some cell ->
    match status cell with
    | PENDING => True
    | FULFILLED =>
        reason cell = None
        /\ exists vals, value cell = ASlice aS /\ slices s !! aS = Some vals
            /\ length vals = length ps
            /\ forall i p, ps !! i = Some p ->
                 exists v, settled_as s p v None /\ vals !! i = Some v
    | REJECTED => value cell = ANil /\ from_constituent s (reason cell)
    end.

Lemma Rel_outcome w s : Rel w s -> All_outcome s.
Proof.
  destruct w as [a ths cas nd errs vals rest].
  intros [Ht Hr Hh HpA Hc Hs Hv Hst Hth Hca Hsi He Hd] cell Hcell; simpl in *.
  rewrite HpA in Hcell. injection Hcell as <-.
  destruct a as [j [|]|k|e|[v|e] x]; simpl in *; try done.
  destruct Hd as [-> Hall], Hst as [Hnt Hnc].
  split; [done|]. exists vals. split_and!; try done.
  intros i p Hp.
  destruct (lookup_lt_is_Some_2 ths i) as [ph Hph].
  { rewrite Hnt. by eapply lookup_lt_Some. }
  rewrite <- Hnt in Hall. pose proof (sum_sent_all _ _ _ Hall Hph) as Hsent.
  pose proof (Hth _ _ _ Hp Hph) as Hok.
  destruct ph as [r|r v|r v|v|g]; simpl in *; try done. by exists v.
Qed.

(** *** The executor at the start of its first loop *)

Lemma Rel_start rest s :
  tasks s ≡ₚ mkTask (Some pA) (acode (A_range 0 false)) :: rest ->
  Forall (bystander pA (own_chans dC eC) (own_slice aS)) rest ->
  Forall consistent (promises s) -> promises s !! pA = Some pending_promise ->
  chans s !! dC = Some (mkChan (length ps) []) -> chans s !! eC = Some (mkChan 1 []) ->
  slices s !! aS = Some (replicate (length ps) ANil) ->
  Rel (mkView (A_range 0 false) [] [] 0 [] (replicate (length ps) ANil) rest) s.
Proof.
  intros Ht Hr Hh HpA Hd He Hs.
  constructor; [cbn [v_phase v_thens v_catches v_rest]|simpl..]; try done.
  - by rewrite then_tasks_nil, catch_tasks_nil.
  - by rewrite length_replicate.
Qed.

(** *** The promise of [All] gets settled *)

(** The steps that the executor of [All] and the tasks it started have
    left before the promise of [All] is settled. *)
Definition phase_left (a : aphase) : nat :=
  match a with
  | A_range j false => 8 * (length ps - j) + length ps + 2
  | A_range j true => 8 * (length ps - j) + length ps - 2
  | A_collect k => k + 1
  | A_reject _ => 1
  | A_done _ _ => 0
  end.

Definition then_left (ph : tphase) : nat :=
  match ph with
  | T_await _ => 3
  | T_write _ _ => 2
  | T_send _ _ => 1
  | T_sent _ | T_skip _ => 0
  end.

Definition catch_left (ph : cphase) : nat :=
  match ph with
  | C_await _ => 2
  | C_send _ _ => 1
  | C_sent _ | C_skip => 0
  end.

Definition steps_left (w : view) : nat :=
  phase_left (v_phase w) + sum_list_with then_left (v_thens w)
  + sum_list_with catch_left (v_catches w).

Lemma sum_zero_or_pos {A} (f : A -> nat) (l : list A) :
  sum_list_with f l = 0 \/ exists i x, l !! i = Some x /\ 0 < f x.
Proof.
  induction l as [|x l [IH|(i & y & Hi & Hy)]]; simpl.
  - by left.
  - destruct (f x) eqn:E; [left; lia|]. right. exists 0, x. simpl. split; [done|lia].
  - right. by exists (S i), y.
Qed.

Lemma sum_zero_lookup {A} (f : A -> nat) (l : list A) i x :
  sum_list_with f l = 0 -> l !! i = Some x -> f x = 0.
Proof.
  intros Hsum Hi. pose proof (sum_list_with_in x f l) as Hle.
  assert (f x <= sum_list_with f l); [|lia].
  apply Hle. by eapply list_elem_of_lookup_2.
Qed.

Lemma sum_sent_lt ths :
  sum_list_with sent ths < length ths ->
  exists i ph, ths !! i = Some ph /\ sent ph = 0.
Proof.
  induction ths as [|ph ths IH]; simpl; [lia|]. intros H.
  destruct (sent ph) eqn:E; [by exists 0, ph|].
  destruct IH as (i & ph' & ? & ?).
  - pose proof (sum_sent_le ths). destruct ph; simpl in *; try done; lia.
  - by exists (S i), ph'.
Qed.

Lemma task_at s L t : tasks s ≡ₚ L -> t ∈ L -> exists tid, tasks s !! tid = Some t.
Proof. intros HL Hin. apply list_elem_of_lookup_1. by rewrite HL. Qed.

Lemma then_task_at w s i p ph t :
  Rel w s -> ps !! i = Some p -> v_thens w !! i = Some ph ->
  then_task i p ph = [t] -> exists tid, tasks s !! tid = Some t.
Proof.
  intros HR Hp Hph Ht. apply (task_at _ _ _ (R_tasks _ _ HR)).
  rewrite (then_tasks_peel_id 0 ps _ i p ph Hp Hph). simpl. rewrite Ht.
  set_solver.
Qed.

Lemma catch_task_at w s i p ph t :
  Rel w s -> ps !! i = Some p -> v_catches w !! i = Some ph ->
  catch_task p ph = [t] -> exists tid, tasks s !! tid = Some t.
Proof.
  intros HR Hp Hph Ht. apply (task_at _ _ _ (R_tasks _ _ HR)).
  rewrite (catch_tasks_peel_id ps _ i p ph Hp Hph). rewrite Ht.
  set_solver.
Qed.

Lemma A_task_at w s :
  Rel w s -> exists tid, tasks s !! tid = Some (mkTask (Some pA) (acode (v_phase w))).
Proof. intros HR. apply (task_at _ _ _ (R_tasks _ _ HR)). set_solver. Qed.


Ltac moved H tid pick :=
  let s' := fresh "s'" in let Hstep := fresh "Hstep" in
  let Hcr' := fresh "Hcr'" in let HR' := fresh "HR'" in
  destruct H as (s' & Hstep & Hcr' & HR');
  exists (tid, pick), s'; eexists;
  split; [exact Hstep|split; [exact Hcr'|split; [exact HR'|]]];
  unfold steps_left; simpl.

(** While the promise of [All] is pending and the promises given to
    it are settled, the executor of [All] or one of the tasks it started
    can move, and that brings the settlement nearer. *)
Lemma Rel_progress w s :
  Rel w s -> crashed s = None ->
  (forall i p, ps !! i = Some p ->
     exists cell, promises s !! p = Some cell /\ wg cell = 0) ->
  status (acell (v_phase w)) = PENDING ->
  exists ch s' w',
    step ch s = Some s' /\ crashed s' = None /\ Rel w' s'
    /\ steps_left w' < steps_left w.
Proof.
  destruct w as [a ths cas nd errs vals rest]. intros HR Hcr Hset Hpend.
  destruct (A_task_at _ _ HR) as [tidA HtidA]. simpl in HtidA, Hpend.
  pose proof (R_started _ _ HR) as Hst. pose proof (R_signals _ _ HR) as Hsi.
  simpl in Hst, Hsi.
  destruct a as [j [|]|[|k]|e|sc x].
  - destruct Hst as (Hnt & Hnc & Hj).
    moved (A_range_catch_moves _ _ _ _ _ _ _ _ _ true HR Hcr HtidA) tidA true.
    rewrite sum_list_with_app. simpl. unfold after_range.
    destruct (decide _); simpl; lia.
  - destruct Hst as (Hnt & Hnc & Hj).
    moved (A_range_then_moves _ _ _ _ _ _ _ _ _ true HR Hcr HtidA) tidA true.
    rewrite sum_list_with_app. simpl. lia.
  - moved (A_resolve_moves _ _ _ _ _ _ _ _ true HR Hcr HtidA) tidA true. lia.
  - destruct Hst as [Hnt Hnc], Hsi as (Hk & Hsent & Hcsent).
    destruct nd as [|nd]; [destruct errs as [|g errs]|].
    + (* both buffers are empty: a task of Then or Catch can move *)
      destruct (sum_zero_or_pos then_left ths) as [Hth0|(i & ph & Hph & Hpos)];
        [destruct (sum_zero_or_pos catch_left cas) as [Hca0|(i & ph & Hph & Hpos)]|].
      * exfalso.
        destruct (sum_sent_lt ths) as (i & ph & Hph & Hs0); [lia|].
        pose proof (sum_zero_lookup _ _ _ _ Hth0 Hph) as Hl0.
        destruct (lookup_lt_is_Some_2 ps i) as [p Hp].
        { rewrite <- Hnt. by eapply lookup_lt_Some. }
        destruct (lookup_lt_is_Some_2 cas i) as [phc Hphc].
        { rewrite Hnc. by eapply lookup_lt_Some. }
        pose proof (sum_zero_lookup _ _ _ _ Hca0 Hphc) as Hlc0.
        pose proof (sum_zero_lookup _ _ _ _ Hcsent Hphc) as Hcs0.
        pose proof (R_thens _ _ HR _ _ _ Hp Hph) as Hok.
        pose proof (R_catches _ _ HR _ _ _ Hp Hphc) as Hokc.
        destruct ph as [r|r v|r v|v|g]; simpl in *; try done.
        destruct phc as [r|r g'|g'|]; simpl in *; try done.
        destruct Hok as (v & c1 & Hc1 & _ & _ & _ & Hr1).
        destruct Hokc as (v' & c2 & Hc2 & _ & _ & _ & Hr2).
        rewrite Hc1 in Hc2. injection Hc2 as <-. congruence.
      * destruct (lookup_lt_is_Some_2 ps i) as [p Hp].
        { rewrite <- Hnc. by eapply lookup_lt_Some. }
        destruct ph as [r|r g|g|]; simpl in Hpos; try lia.
        -- destruct (catch_task_at _ _ _ _ _ _ HR Hp Hph eq_refl) as [tid Htid].
           destruct (Hset _ _ Hp) as (cell & Hcell & Hwg).
           pose proof (sum_list_with_insert catch_left cas i _ C_skip Hph) as E2.
           destruct (reason cell) as [g|] eqn:Hreason.
           ++ pose proof (sum_list_with_insert catch_left cas i _ (C_send r g) Hph) as E1.
              moved (C_await_error_moves _ _ _ _ _ _ _ _ _ true _ _ _ _ _
                       HR Hcr Htid Hp Hph Hcell Hwg Hreason) tid true.
              simpl in E1. lia.
           ++ moved (C_await_value_moves _ _ _ _ _ _ _ _ _ true _ _ _ _
                       HR Hcr Htid Hp Hph Hcell Hwg Hreason) tid true.
              simpl in E2. lia.
        -- destruct (catch_task_at _ _ _ _ _ _ HR Hp Hph eq_refl) as [tid Htid].
           pose proof (sum_list_with_insert catch_left cas i _ (C_sent g) Hph) as E1.
           moved (C_send_moves _ _ _ _ _ _ _ _ true _ _ _ _
                    HR Hcr Htid Hp Hph) tid true.
           simpl in E1. lia.
      * destruct (lookup_lt_is_Some_2 ps i) as [p Hp].
        { rewrite <- Hnt. by eapply lookup_lt_Some. }
        destruct ph as [r|r v|r v|v|g]; simpl in Hpos; try lia.
        -- destruct (then_task_at _ _ _ _ _ _ HR Hp Hph eq_refl) as [tid Htid].
           destruct (Hset _ _ Hp) as (cell & Hcell & Hwg).
           pose proof (sum_list_with_insert then_left ths i _
                         (T_write r (value cell)) Hph) as E1.
           destruct (reason cell) as [g|] eqn:Hreason.
           ++ pose proof (sum_list_with_insert then_left ths i _ (T_skip g) Hph) as E2.
              moved (T_await_error_moves _ _ _ _ _ _ _ _ _ true _ _ _ _ _
                       HR Hcr Htid Hp Hph Hcell Hwg Hreason) tid true.
              simpl in E2. lia.
           ++ moved (T_await_value_moves _ _ _ _ _ _ _ _ _ true _ _ _ _
                       HR Hcr Htid Hp Hph Hcell Hwg Hreason) tid true.
              simpl in E1. lia.
        -- destruct (then_task_at _ _ _ _ _ _ HR Hp Hph eq_refl) as [tid Htid].
           pose proof (sum_list_with_insert then_left ths i _ (T_send r v) Hph) as E1.
           moved (T_write_moves _ _ _ _ _ _ _ _ _ true _ _ _ _
                    HR Hcr Htid Hp Hph) tid true.
           simpl in E1. lia.
        -- destruct (then_task_at _ _ _ _ _ _ HR Hp Hph eq_refl) as [tid Htid].
           pose proof (sum_list_with_insert then_left ths i _ (T_sent v) Hph) as E1.
           moved (T_send_moves _ _ _ _ _ _ _ _ _ true _ _ _ _
                    HR Hcr Htid Hp Hph ps_nonempty) tid true.
           simpl in E1. lia.
    + moved (A_collect_err_moves _ _ _ _ _ _ _ _ _ _ true HR Hcr HtidA
               (or_introl eq_refl)) tidA true. lia.
    + moved (A_collect_done_moves _ _ _ _ _ _ _ _ _ true HR Hcr HtidA
               (or_intror eq_refl)) tidA true. lia.
  - moved (A_reject_moves _ _ _ _ _ _ _ _ _ true HR Hcr HtidA) tidA true. lia.
  - exfalso. by apply (settle_status sc pending_promise).
Qed.


Lemma Rel_settles n w s :
  steps_left w <= n ->
  Rel w s -> crashed s = None ->
  (forall i p, ps !! i = Some p ->
     exists cell, promises s !! p = Some cell /\ wg cell = 0) ->
  exists s' cell,
    reachable s s' /\ promises s' !! pA = Some cell /\ status cell <> PENDING.
Proof.
  revert w s. induction n as [|n IH]; intros w s Hn HR Hcr Hset;
    (destruct (decide (status (acell (v_phase w)) = PENDING)) as [Hpend|Hpend];
     [|exists s, (acell (v_phase w)); split_and!;
        [apply rtc_refl|exact (R_pA _ _ HR)|done]]);
    destruct (Rel_progress _ _ HR Hcr Hset Hpend)
      as (ch & s1 & w1 & Hstep & Hcr1 & HR1 & Hlt); [lia|].
  destruct (IH w1 s1) as (s' & cell & Hreach & Hcell & Hst); try done; [lia| |].
  - intros i p Hp. destruct (Hset _ _ Hp) as (c & Hc & Hwg).
    exists c. split; [|done]. eapply step_settled; [done..|].
    pose proof (R_heap _ _ HR) as Hh. rewrite Forall_lookup in Hh.
    by apply (consistent_wg _ (Hh _ _ Hc)).
  - exists s', cell. split_and!; [|done..]. by eapply reachable_step.
Qed.

(** *** The promise of [All] gets rejected *)

(** The steps left when the promise of index [i] is rejected: those of
    the executor, and those of the task of [Catch] on that promise. *)
Definition rejected_left (i : nat) (w : view) : nat :=
  phase_left (v_phase w)
  + match v_catches w !! i with Some ph => catch_left ph | None => 2 end.

Ltac moved_on H tid pick :=
  let s' := fresh "s'" in let Hstep := fresh "Hstep" in
  let Hcr' := fresh "Hcr'" in let HR' := fresh "HR'" in
  destruct H as (s' & Hstep & Hcr' & HR');
  exists (tid, pick), s'; eexists;
  split; [exact Hstep|split; [exact Hcr'|split; [exact HR'|]]];
  unfold rejected_left; simpl.

Lemma settled_as_agree s p v e v' e' :
  settled_as s p v e -> settled_as s p v' e' -> v = v' /\ e = e'.
Proof.
  intros (c & Hc & _ & _ & <- & <-) (c' & Hc' & _ & _ & <- & <-).
  rewrite Hc in Hc'. by injection Hc' as <-.
Qed.

(** While the promise of [All] is pending and one of the promises given
    to it is rejected with a non-nil reason, the executor of [All] or the
    task of [Catch] on that promise can move, and that brings the
    rejection nearer; the other promises may be pending. *)
Lemma Rel_progress_rejected i p v g w s :
  Rel w s -> crashed s = None ->
  ps !! i = Some p -> settled_as s p v (Some g) ->
  status (acell (v_phase w)) = PENDING ->
  exists ch s' w',
    step ch s = Some s' /\ crashed s' = None /\ Rel w' s'
    /\ rejected_left i w' < rejected_left i w.
Proof.
  destruct w as [a ths cas nd errs vals rest]. intros HR Hcr Hp Hset Hpend.
  destruct (A_task_at _ _ HR) as [tidA HtidA]. simpl in HtidA, Hpend.
  pose proof (R_started _ _ HR) as Hst. pose proof (R_signals _ _ HR) as Hsi.
  simpl in Hst, Hsi.
  destruct a as [j [|]|[|k]|e|sc x].
  - destruct Hst as (Hnt & Hnc & Hj).
    moved_on (A_range_catch_moves _ _ _ _ _ _ _ _ _ true HR Hcr HtidA) tidA true.
    assert (match (cas ++ [C_await (length (promises s))]) !! i with
            | Some ph => catch_left ph | None => 2 end
            = match cas !! i with Some ph => catch_left ph | None => 2 end) as ->.
    { destruct (decide (i < length cas)) as [Hi|Hi].
      - by rewrite lookup_app_l.
      - rewrite lookup_app_r by lia. rewrite (lookup_ge_None_2 cas) by lia.
        by destruct (i - length cas) as [|n]. }
    unfold after_range. destruct (decide _); simpl; lia.
  - destruct Hst as (Hnt & Hnc & Hj).
    moved_on (A_range_then_moves _ _ _ _ _ _ _ _ _ true HR Hcr HtidA) tidA true. lia.
  - exfalso. destruct Hst as [Hnt Hnc], Hsi as (Hk & Hsent & Hcsent).
    destruct (lookup_lt_is_Some_2 ths i) as [ph Hph].
    { rewrite Hnt. by eapply lookup_lt_Some. }
    assert (sum_list_with sent ths = length ths) as Hall.
    { pose proof (sum_sent_le ths). lia. }
    pose proof (sum_sent_all _ _ _ Hall Hph) as Hs1.
    pose proof (R_thens _ _ HR _ _ _ Hp Hph) as Hok.
    destruct ph as [r|r v'|r v'|v'|g']; simpl in *; try done.
    destruct Hok as [Hok _]. by destruct (settled_as_agree _ _ _ _ _ _ Hset Hok).
  - destruct Hst as [Hnt Hnc], Hsi as (Hk & Hsent & Hcsent).
    destruct errs as [|g' errs].
    + destruct (lookup_lt_is_Some_2 cas i) as [ph Hph].
      { rewrite Hnc. by eapply lookup_lt_Some. }
      pose proof (R_catches _ _ HR _ _ _ Hp Hph) as Hok.
      destruct ph as [r|r g'|g'|]; simpl in Hok.
      * destruct (catch_task_at _ _ _ _ _ _ HR Hp Hph eq_refl) as [tid Htid].
        destruct Hset as (cell & Hcell & _ & Hwg & _ & Hreason).
        moved_on (C_await_error_moves _ _ _ _ _ _ _ _ _ true _ _ _ _ _
                    HR Hcr Htid Hp Hph Hcell Hwg Hreason) tid true.
        rewrite Hph, list_lookup_insert_eq by (by eapply lookup_lt_Some). simpl. lia.
      * destruct (catch_task_at _ _ _ _ _ _ HR Hp Hph eq_refl) as [tid Htid].
        moved_on (C_send_moves _ _ _ _ _ _ _ _ true _ _ _ _
                    HR Hcr Htid Hp Hph) tid true.
        rewrite Hph, list_lookup_insert_eq by (by eapply lookup_lt_Some). simpl. lia.
      * exfalso. simpl in Hcsent.
        by pose proof (sum_zero_lookup _ _ _ _ Hcsent Hph).
      * exfalso. destruct Hok as [v' Hok].
        by destruct (settled_as_agree _ _ _ _ _ _ Hset Hok).
    + moved_on (A_collect_err_moves _ _ _ _ _ _ _ _ _ _ false HR Hcr HtidA
                  (or_intror eq_refl)) tidA false. lia.
  - moved_on (A_reject_moves _ _ _ _ _ _ _ _ _ true HR Hcr HtidA) tidA true. lia.
  - exfalso. by apply (settle_status sc pending_promise).
Qed.

Lemma Rel_settles_rejected n i p v g w s :
  rejected_left i w <= n ->
  Rel w s -> crashed s = None ->
  ps !! i = Some p -> settled_as s p v (Some g) ->
  exists s' cell,
    reachable s s' /\ promises s' !! pA = Some cell /\ status cell <> PENDING.
Proof.
  revert w s. induction n as [|n IH]; intros w s Hn HR Hcr Hp Hset;
    (destruct (decide (status (acell (v_phase w)) = PENDING)) as [Hpend|Hpend];
     [|exists s, (acell (v_phase w)); split_and!;
        [apply rtc_refl|exact (R_pA _ _ HR)|done]]);
    destruct (Rel_progress_rejected _ _ _ _ _ _ HR Hcr Hp Hset Hpend)
      as (ch & s1 & w1 & Hstep & Hcr1 & HR1 & Hlt); [lia|].
  destruct (IH w1 s1) as (s' & cell & Hreach & Hcell & Hst); try done; [lia| |].
  - by eapply settled_as_step.
  - exists s', cell. split_and!; [|done..]. by eapply reachable_step.
Qed.

End All_protocol.

(** ** [All]: the executor makes its channels and its array *)

Section All_setup.
(** The promises given to [All] and the promise of [All].  The channels
    and the array are the next ones of the machine when the executor
    makes them, after those that the other tasks have made meanwhile. *)
Context (ps : list nat) (pA : nat).
Hypothesis ps_nonempty : 0 < length ps.

(** Where the executor stands before its first loop: at its start, after
    it has made [doneChan], after it has made [errChan]. *)
Inductive sphase : Type :=
| S_start
| S_chan (d : nat)
| S_slice (d e : nat).

Definition scode (a : sphase) : prog :=
  match a with
  | S_start => All_exec (Some <$> ps) pA
  | S_chan d => MakeChan 1 (fun e => slice_code ps pA d e)
  | S_slice d e => slice_code ps pA d e
  end.

(** The channels and the array that the executor has made or may still
    make. *)
Definition to_come (a : sphase) (s : state) (d e v : nat) : Prop :=
  match a with
  | S_start => length (chans s) <= d /\ length (chans s) <= e
  | S_chan d0 => d = d0 /\ length (chans s) <= e
  | S_slice d0 e0 => d = d0 /\ e = e0
  end /\ length (slices s) <= v.

Definition made (a : sphase) (s : state) : Prop :=
  match a with
  | S_start => True
  | S_chan d => chans s !! d = Some (mkChan (length ps) [])
  | S_slice d e =>
      chans s !! d = Some (mkChan (length ps) []) /\ chans s !! e = Some (mkChan 1 [])
      /\ d <> e
  end.

Record Setup (a : sphase) (rest : list task) (s : state) : Prop := mkSetup {
  Su_tasks : tasks s ≡ₚ mkTask (Some pA) (Some (scode a)) :: rest;
  Su_rest : forall d e v, to_come a s d e v ->
    Forall (bystander pA (own_chans d e) (own_slice v)) rest;
  Su_heap : Forall consistent (promises s);
  Su_pA : promises s !! pA = Some pending_promise;
  Su_made : made a s
}.

(** The executor is before its first loop, or it has made channels and
    an array and stands with its tasks as [Rel] says. *)
Definition All_inv (s : state) : Prop :=
  (exists a rest, Setup a rest s)
  \/ (exists dC eC aS w, dC <> eC /\ Rel ps pA dC eC aS w s).

Definition Setup_next (a : sphase) (s : state) : Prop :=
  match a with
  | S_start => exists d rest, Setup (S_chan d) rest s
  | S_chan d => exists e rest, Setup (S_slice d e) rest s
  | S_slice d e => exists aS w, d <> e /\ Rel ps pA d e aS w s
  end.

Lemma Setup_next_inv a s : Setup_next a s -> All_inv s.
Proof.
  destruct a as [|d|d e]; simpl.
  - intros (d & rest & H). left. by exists (S_chan d), rest.
  - intros (e & rest & H). left. by exists (S_slice d e), rest.
  - intros (aS & w & Hne & H). right. by exists d, e, aS, w.
Qed.

Lemma to_come_some a s : exists d e v, to_come a s d e v.
Proof.
  destruct a as [|d|d e].
  - by exists (length (chans s)), (length (chans s)), (length (slices s)).
  - by exists d, (length (chans s)), (length (slices s)).
  - by exists d, e, (length (slices s)).
Qed.

Lemma Setup_exec_moves a rest s tid pick :
  Setup a rest s -> crashed s = None ->
  tasks s !! tid = Some (mkTask (Some pA) (Some (scode a))) ->
  exists s', step (tid, pick) s = Some s' /\ crashed s' = None /\ Setup_next a s'.
Proof.
  intros [Ht Hr Hh HpA Hm] Hcr Htid. destruct a as [|d|d e]; simpl in *.
  - assert (step (tid, pick) s
      = Some (set_tasks
          (<[tid := mkTask (Some pA) (Some (scode (S_chan (length (chans s)))))]> (tasks s)
           ++ []) (alloc_chan (mkChan (length ps) []) s))) as Hstep.
    { apply (step_fold _ _ _ _ _ _ _ _ Hcr Htid). unfold All_exec. simpl.
      by rewrite length_fmap. }
    eexists. split; [exact Hstep|]. split; [done|].
    exists (length (chans s)), rest. constructor; simpl.
    + eapply tasks_after_step; [done..|]. solve_Permutation.
    + unfold to_come. simpl. intros d e v ((-> & He) & Hv). apply Hr.
      rewrite length_app in He. simpl in He. split; [split|]; lia.
    + exact (step_consistent _ _ _ Hstep Hh).
    + done.
    + by apply list_lookup_middle.
  - assert (step (tid, pick) s
      = Some (set_tasks
          (<[tid := mkTask (Some pA) (Some (scode (S_slice d (length (chans s)))))]> (tasks s)
           ++ []) (alloc_chan (mkChan 1 []) s))) as Hstep.
    { by apply (step_fold _ _ _ _ _ _ _ _ Hcr Htid). }
    eexists. split; [exact Hstep|]. split; [done|].
    exists (length (chans s)), rest. constructor; simpl.
    + eapply tasks_after_step; [done..|]. solve_Permutation.
    + unfold to_come. simpl. intros d' e' v ((-> & ->) & Hv). apply Hr.
      split; [split; [done|lia]|done].
    + exact (step_consistent _ _ _ Hstep Hh).
    + done.
    + split_and!.
      * by apply lookup_app_l_Some.
      * by apply list_lookup_middle.
      * apply lookup_lt_Some in Hm. lia.
  - destruct Hm as (Hd & He & Hne).
    assert (step (tid, pick) s
      = Some (set_tasks
          (<[tid := mkTask (Some pA)
                      (acode ps pA d e (length (slices s)) (A_range 0 false))]> (tasks s)
           ++ []) (alloc_slice (replicate (length ps) ANil) s))) as Hstep.
    { by apply (step_fold _ _ _ _ _ _ _ _ Hcr Htid). }
    eexists. split; [exact Hstep|]. split; [done|].
    exists (length (slices s)), (mkView (A_range 0 false) [] [] 0 []
                                  (replicate (length ps) ANil) rest).
    split; [done|]. apply (Rel_start ps pA d e (length (slices s)) ps_nonempty); simpl.
    + eapply tasks_after_step; [done..|]. solve_Permutation.
    + apply Hr. by split.
    + done.
    + done.
    + done.
    + done.
    + by apply list_lookup_middle.
Qed.

Lemma Setup_other_moves a rest rest' s s' tid pick own c :
  Setup a rest s ->
  tasks s !! tid = Some (mkTask own (Some c)) ->
  rest ≡ₚ mkTask own (Some c) :: rest' ->
  step (tid, pick) s = Some s' ->
  exists rest'', Setup a rest'' s'.
Proof.
  intros [Ht Hr Hh HpA Hm] Htid Hrest Hstep.
  pose proof (lookup_lt_Some _ _ _ HpA) as HltA.
  pose proof (step_unfold _ _ _ _ Hstep)
    as (own0 & c0 & s1 & c' & started & Hcr & Htid0 & Hcode & Hs').
  rewrite Htid in Htid0. injection Htid0 as <- <-.
  destruct (step_code_lengths _ _ _ _ _ _ _ Hcode) as [Hlc Hls].
  assert (forall d e v, to_come a s' d e v -> to_come a s d e v) as Hmono.
  { intros d e v. subst s'. unfold to_come. destruct a; simpl; intros; lia. }
  assert (forall d e v, to_come a s' d e v ->
    kept (own_chans d e) (own_slice v) s s1
    /\ promises s1 !! pA = promises s !! pA
    /\ bystander pA (own_chans d e) (own_slice v) (mkTask own c')
    /\ Forall (bystander pA (own_chans d e) (own_slice v)) started) as Hfr.
  { intros d e v Hto. pose proof (Hr d e v (Hmono _ _ _ Hto)) as Hb.
    rewrite Hrest in Hb. apply Forall_cons in Hb as [[Hown Hq] _]. simpl in *.
    apply (quiet_step_code pA _ _ pick own c s s1 c' started (Hq _ eq_refl) Hown HltA Hcode).
    - subst s'. intros x Hx Hlt. unfold to_come in Hto.
      destruct a as [|d0|d0 e0]; simpl in *.
      + destruct Hx as [->| ->]; lia.
      + apply lookup_lt_Some in Hm. destruct Hx as [->| ->]; lia.
      + destruct Hm as (Hd & He & _). apply lookup_lt_Some in Hd, He.
        destruct Hx as [->| ->]; lia.
    - subst s'. intros x -> Hlt. destruct Hto as [_ Hv]. simpl in Hv. lia. }
  exists (mkTask own c' :: rest' ++ started). constructor.
  - subst s'. simpl. eapply tasks_after_step; [done..|]. rewrite Hrest. solve_Permutation.
  - intros d e v Hto. destruct (Hfr _ _ _ Hto) as (_ & _ & Hb & Hst).
    pose proof (Hr d e v (Hmono _ _ _ Hto)) as Hb0.
    rewrite Hrest in Hb0. apply Forall_cons in Hb0 as [_ Hb0].
    constructor; [done|]. by apply Forall_app.
  - exact (step_consistent _ _ _ Hstep Hh).
  - destruct (to_come_some a s') as (d & e & v & Hto).
    destruct (Hfr _ _ _ Hto) as (_ & HpA' & _). subst s'. simpl. by rewrite HpA'.
  - destruct a as [|d0|d0 e0]; simpl in *; [done| |].
    + destruct (Hfr d0 (length (chans s')) (length (slices s')))
        as ((Hch & _) & _); [by split_and!|].
      subst s'. simpl. rewrite Hch; [done|by left].
    + destruct Hm as (Hd & He & Hne).
      destruct (Hfr d0 e0 (length (slices s'))) as ((Hch & _) & _); [by split_and!|].
      subst s'. simpl. split_and!; [|  |done].
      * rewrite Hch; [done|by left].
      * rewrite Hch; [done|by right].
Qed.

Lemma All_inv_step ch s s' : All_inv s -> step ch s = Some s' -> All_inv s'.
Proof.
  destruct ch as [tid pick].
  intros [(a & rest & HS)|(dC & eC & aS & w & Hne & HR)] Hstep.
  - pose proof (step_unfold _ _ _ _ Hstep)
      as (own & c & s1 & c' & started & Hcr & Htid & Hcode & _).
    pose proof (list_elem_of_lookup_2 _ _ _ Htid) as Hin.
    rewrite (Su_tasks _ _ _ HS) in Hin. apply elem_of_cons in Hin as [Hin|Hin].
    + injection Hin as -> ->.
      destruct (Setup_exec_moves _ _ _ _ pick HS Hcr Htid) as (s'' & E & _ & Hn).
      rewrite Hstep in E. injection E as <-. by eapply Setup_next_inv.
    + apply elem_of_Permutation in Hin as [rest' Hrest].
      destruct (Setup_other_moves _ _ _ _ _ _ _ _ _ HS Htid Hrest Hstep) as [rest'' H'].
      left. by exists a, rest''.
  - destruct (Rel_step ps pA dC eC aS ps_nonempty Hne _ _ _ _ HR Hstep) as [w' HR'].
    right. by exists dC, eC, aS, w'.
Qed.

Lemma All_inv_reachable s s' : All_inv s -> reachable s s' -> All_inv s'.
Proof.
  intros H. revert s'. apply reachable_invariant; [done|].
  intros ch s1 s2 _ H1 Hstep. by eapply All_inv_step.
Qed.

(** The call of [All]. *)
Lemma All_inv_call s0 caller own k pick s1 :
  tasks s0 !! caller = Some (mkTask own (Some (All (Some <$> ps) k))) ->
  pA = length (promises s0) ->
  Forall consistent (promises s0) ->
  apart pA s0 (mkTask own (Some (k (Some pA)))) ->
  (forall tid t, tasks s0 !! tid = Some t -> tid <> caller -> apart pA s0 t) ->
  step (caller, pick) s0 = Some s1 ->
  All_inv s1.
Proof.
  intros Htid EpA Hh Hk Hby Hstep.
  pose proof (step_unfold _ _ _ _ Hstep)
    as (own0 & c0 & s' & c' & started & Hcr & Htid0 & Hcode & ->).
  rewrite Htid in Htid0. injection Htid0 as <- <-.
  destruct ps as [|p0 ps0] eqn:Eps; [simpl in ps_nonempty; lia|].
  rewrite <- Eps in *. assert (All (Some <$> ps) k
    = Spawn (All_exec (Some <$> ps)) (fun p => k (Some p))) as EAll
    by (by rewrite Eps).
  rewrite EAll in Hcode. simpl in Hcode. injection Hcode as <- <- <-.
  rewrite <- EpA.
  left. exists S_start, (<[caller := mkTask own (Some (k (Some pA)))]> (tasks s0)).
  constructor; simpl.
  - solve_Permutation.
  - intros d e v ((Hd & He) & Hv). apply Forall_lookup. intros tid t Ht.
    destruct (decide (tid = caller)) as [->|Hne].
    + rewrite list_lookup_insert_eq in Ht by (by eapply lookup_lt_Some).
      injection Ht as <-. by apply Hk.
    + rewrite list_lookup_insert_ne in Ht by done. by eapply Hby.
  - apply Forall_app. split; [done|]. constructor; [by compute|done].
  - rewrite EpA. by apply list_lookup_middle.
  - done.
Qed.

(** What the promise of [All] is settled with: it is pending; or
    fulfilled with an array that holds at every index the value of the
    promise of that index, all of them settled with a nil error; or
    rejected with the non-nil reason of one of the promises. *)
Definition All_result (s : state) : Prop :=
  forall cell, promises s !! pA = Some cell ->
    match status cell with
    | PENDING => True
    | FULFILLED =>
        reason cell = None
        /\ exists a vals, value cell = ASlice a /\ slices s !! a = Some vals
            /\ length vals = length ps
            /\ forall i p, ps !! i = Some p ->
                 exists v, settled_as s p v None /\ vals !! i = Some v
    | REJECTED => value cell = ANil /\ from_constituent ps s (reason cell)
    end.

Lemma All_inv_result s : All_inv s -> All_result s.
Proof.
  intros [(a & rest & HS)|(dC & eC & aS & w & Hne & HR)] cell Hcell.
  - rewrite (Su_pA _ _ _ HS) in Hcell. by injection Hcell as <-.
  - pose proof (Rel_outcome ps pA dC eC aS ps_nonempty Hne _ _ HR cell Hcell) as H.
    destruct (status cell); [done| |done].
    destruct H as (Hr & vals & H). split; [done|]. by exists aS, vals.
Qed.

(** The executor can be run to its first loop. *)
Lemma All_inv_enters s :
  All_inv s -> crashed s = None ->
  exists s' dC eC aS w,
    reachable s s' /\ crashed s' = None /\ dC <> eC /\ Rel ps pA dC eC aS w s'.
Proof.
  assert (forall a rest s, Setup a rest s -> crashed s = None ->
    exists s', reachable s s' /\ crashed s' = None /\ Setup_next a s') as Hgo.
  { intros a rest s0 HS Hcr.
    destruct (task_at s0 _ (mkTask (Some pA) (Some (scode a))) (Su_tasks _ _ _ HS))
      as [tid Htid]; [apply elem_of_cons; by left|].
    destruct (Setup_exec_moves _ _ _ _ true HS Hcr Htid) as (s' & Hstep & Hcr' & Hn).
    exists s'. split; [|done]. apply rtc_once. by exists (tid, true). }
  assert (forall d e rest s, Setup (S_slice d e) rest s -> crashed s = None ->
    exists s' dC eC aS w,
      reachable s s' /\ crashed s' = None /\ dC <> eC /\ Rel ps pA dC eC aS w s') as H3.
  { intros d e rest s0 HS Hcr.
    destruct (Hgo _ _ _ HS Hcr) as (s' & Hr & Hcr' & aS & w & Hne & HR).
    by exists s', d, e, aS, w. }
  assert (forall d rest s, Setup (S_chan d) rest s -> crashed s = None ->
    exists s' dC eC aS w,
      reachable s s' /\ crashed s' = None /\ dC <> eC /\ Rel ps pA dC eC aS w s') as H2.
  { intros d rest s0 HS Hcr.
    destruct (Hgo _ _ _ HS Hcr) as (s' & Hr & Hcr' & e & rest' & HS').
    destruct (H3 _ _ _ _ HS' Hcr') as (s'' & dC & eC & aS & w & Hr' & H).
    exists s'', dC, eC, aS, w. split; [|done]. by eapply rtc_trans. }
  intros [(a & rest & HS)|(dC & eC & aS & w & Hne & HR)] Hcr.
  - destruct a as [|d|d e]; [|by eapply H2|by eapply H3].
    destruct (Hgo _ _ _ HS Hcr) as (s' & Hr & Hcr' & d & rest' & HS').
    destruct (H2 _ _ _ HS' Hcr') as (s'' & dC & eC & aS & w & Hr' & H).
    exists s'', dC, eC, aS, w. split; [|done]. by eapply rtc_trans.
  - exists s, dC, eC, aS, w. split; [apply rtc_refl|done].
Qed.

Lemma settled_as_reachable s s' p v e :
  reachable s s' -> settled_as s p v e -> settled_as s' p v e.
Proof.
  intros Hr (cell & Hp & Hs & ?). exists cell. split; [|done].
  by eapply reachable_settled.
Qed.

(** Once the promises are settled, or one of them is rejected with a
    non-nil reason, the run can be continued until the promise of [All]
    is settled. *)
Lemma All_inv_settles s :
  All_inv s -> crashed s = None -> Forall consistent (promises s) ->
  (forall i p, ps !! i = Some p -> exists v e, settled_as s p v e)
  \/ (exists i p v g, ps !! i = Some p /\ settled_as s p v (Some g)) ->
  exists s' cell,
    reachable s s' /\ promises s' !! pA = Some cell /\ status cell <> PENDING.
Proof.
  intros Hinv Hcr Hh Hset.
  destruct (All_inv_enters s Hinv Hcr) as (s1 & dC & eC & aS & w & Hr & Hcr1 & Hne & HR).
  destruct Hset as [Hall|(i & p & v & g & Hp & Hrej)].
  - destruct (Rel_settles ps pA dC eC aS ps_nonempty Hne _ w s1 (Nat.le_refl _) HR Hcr1)
      as (s' & cell & Hr' & H).
    + intros i p Hp. destruct (Hall _ _ Hp) as (v & e & Hs).
      destruct (settled_as_reachable _ _ _ _ _ Hr Hs) as (cell & Hc & _ & Hwg & _).
      by exists cell.
    + exists s', cell. split; [|done]. by eapply rtc_trans.
  - destruct (Rel_settles_rejected ps pA dC eC aS ps_nonempty Hne _ i p v g w s1
      (Nat.le_refl _) HR Hcr1 Hp (settled_as_reachable _ _ _ _ _ Hr Hrej))
      as (s' & cell & Hr' & H).
    exists s', cell. split; [|done]. by eapply rtc_trans.
Qed.

End All_setup.

(** C3, as the claim states it, fails twice.  [All] of one promise that is
    rejected with a nil error is fulfilled, with the zero value in the
    array.  And of two promises, the first rejected with [Err1] and the
    second, later, with [Err2], [All] is rejected with [Err2] when the task
    of [Catch] on the second promise is the first to reach the channel. *)
Lemma All_is_not_by_first_rejection :
  (exists s,
     run (by_turns [0; 1; 1; 1; 1; 1; 2; 2; 2; 1; 1])
       (boot [Reject None] (All [Some 0] keep)) = Some s
     /\ status <$> promises s !! 0 = Some REJECTED
     /\ Await s 1 = Some (ASlice 0, None)
     /\ slices s !! 0 = Some [ANil])
  /\ (exists s1 s2,
     run (by_turns [0; 0; 0; 0; 1; 1])
       (boot []
          (New (Some (fun p => Call_reject p (Some Err1) (Ret ANil))) (fun p1 =>
           New (Some (fun p => Call_reject p (Some Err2) (Ret ANil))) (fun p2 =>
           All [Some p1; Some p2] keep)))) = Some s1
     /\ Await s1 0 = Some (ANil, Some Err1)
     /\ Await s1 1 = None
     /\ run (by_turns [2; 2; 3; 3; 3; 3; 3; 3; 3; 7; 7; 3; 3]) s1 = Some s2
     /\ Await s2 0 = Some (ANil, Some Err1)
     /\ Await s2 1 = Some (ANil, Some Err2)
     /\ Await s2 2 = Some (ANil, Some Err2)).
Proof.
  split.
  - eexists. split; [vm_compute; reflexivity|]. split_and!; reflexivity.
  - eexists. eexists. split; [vm_compute; reflexivity|].
    split; [reflexivity|]. split; [reflexivity|].
    split; [vm_compute; reflexivity|]. split_and!; reflexivity.
Qed.

(** C3, amended: [All] of N >= 1 promises.  The call is made by a task
    of a program whose other code makes no settlement call on the promise
    of [All] and does not use the two channels and the array that the
    executor of [All] makes after the call (of the channels and arrays
    that do not exist at the call, it uses those it makes itself); it is
    free in everything else: it may settle other promises, call [New],
    [Then], [Catch], [All] and [Race], make channels and arrays of its
    own, send, receive and stay blocked.  At every point of every run after the call, the promise
    that [All] returned is pending, or fulfilled with the array that
    holds, index by index, the values of the N promises, every one of
    them settled with a nil error (fulfilled, or rejected with nil, which
    [Then] takes for fulfilled), or rejected with the non-nil reason of
    one of the N promises: the one whose reason the loop received from the
    channel, whichever promise was rejected first.  Once the N promises are
    settled with a nil error, a run that has not crashed can be continued
    to where [Await] on the promise of [All] returns the array of their
    values; and once one of them is rejected with a non-nil reason, the
    others settled or not, to where it returns the non-nil reason of one
    of them. *)
Theorem All_settles_with_its_promises (s0 s1 s : state) (caller : nat) (pick : bool)
    (own : option nat) (ps : list nat) (k : option nat -> prog) :
  ps <> [] ->
  Forall consistent (promises s0) ->
  tasks s0 !! caller = Some (mkTask own (Some (All (Some <$> ps) k))) ->
  apart (length (promises s0)) s0
    (mkTask own (Some (k (Some (length (promises s0)))))) ->
  (forall tid t, tasks s0 !! tid = Some t -> tid <> caller ->
     apart (length (promises s0)) s0 t) ->
  step (caller, pick) s0 = Some s1 ->
  reachable s1 s ->
  (forall cell, promises s !! length (promises s0) = Some cell ->
     match status cell with
     | PENDING => True
     | FULFILLED =>
         reason cell = None
         /\ exists a vals,
             value cell = ASlice a
             /\ slices s !! a = Some vals
             /\ length vals = length ps
             /\ forall i p, ps !! i = Some p ->
                  exists v, settled_as s p v None /\ vals !! i = Some v
     | REJECTED => value cell = ANil /\ from_constituent ps s (reason cell)
     end)
  /\ (crashed s = None ->
      (forall i p, ps !! i = Some p -> exists v, settled_as s p v None) ->
      exists s' a vals,
        reachable s s'
        /\ Await s' (length (promises s0)) = Some (ASlice a, None)
        /\ slices s' !! a = Some vals
        /\ length vals = length ps
        /\ forall i p, ps !! i = Some p ->
             exists v, settled_as s' p v None /\ vals !! i = Some v)
  /\ (crashed s = None ->
      (exists i p v g, ps !! i = Some p /\ settled_as s p v (Some g)) ->
      exists s' g,
        reachable s s'
        /\ Await s' (length (promises s0)) = Some (ANil, Some g)
        /\ from_constituent ps s' (Some g)).
Proof.
  intros Hps Hh Htid Hk Hby Hstep Hreach.
  assert (0 < length ps) as Hlen by (destruct ps; [done|simpl; lia]).
  set (pA := length (promises s0)) in *.
  pose proof (All_inv_call ps pA Hlen s0 caller own k pick s1 Htid eq_refl Hh Hk Hby Hstep)
    as H1.
  assert (forall t, reachable s1 t -> All_inv ps pA t) as Hinv.
  { intros t Ht. exact (All_inv_reachable ps pA Hlen _ _ H1 Ht). }
  assert (forall t, reachable s1 t -> Forall consistent (promises t)) as Hheap.
  { intros t Ht. eapply reachable_consistent; [exact Ht|]. by eapply step_consistent. }
  assert (forall s' cell, reachable s s' -> promises s' !! pA = Some cell ->
    status cell <> PENDING ->
    Await s' pA = Some (value cell, reason cell)
    /\ match status cell with
       | PENDING => True
       | FULFILLED =>
           reason cell = None
           /\ exists a vals,
               value cell = ASlice a
               /\ slices s' !! a = Some vals
               /\ length vals = length ps
               /\ forall i p, ps !! i = Some p ->
                    exists v, settled_as s' p v None /\ vals !! i = Some v
       | REJECTED => value cell = ANil /\ from_constituent ps s' (reason cell)
       end) as Hend.
  { intros s' cell Hr Hc Hst.
    assert (reachable s1 s') as Hr1 by (by eapply rtc_trans).
    split.
    - unfold Await. rewrite Hc.
      pose proof (Hheap _ Hr1) as Hh'. rewrite Forall_lookup in Hh'.
      by rewrite (proj2 (consistent_wg _ (Hh' _ _ Hc)) Hst).
    - exact (All_inv_result ps pA Hlen s' (Hinv _ Hr1) cell Hc). }
  split_and!.
  - exact (All_inv_result ps pA Hlen s (Hinv _ Hreach)).
  - intros Hcr Hall.
    destruct (All_inv_settles ps pA Hlen s (Hinv _ Hreach) Hcr (Hheap _ Hreach))
      as (s' & cell & Hr & Hc & Hst).
    { left. intros i p Hp. destruct (Hall _ _ Hp) as [v Hv]. by exists v, None. }
    destruct (Hend s' cell Hr Hc Hst) as [HA Hres].
    destruct (status cell) eqn:E; [done| |].
    + destruct Hres as (Hnone & a & vals & Hv & Hres).
      exists s', a, vals. split; [done|]. split; [|done].
      by rewrite HA, Hv, Hnone.
    + exfalso. destruct Hres as (_ & i & p & g & v & Hp & Hg & Hs).
      destruct (Hall _ _ Hp) as [v' Hv'].
      by destruct (settled_as_agree _ _ _ _ _ _ Hs (settled_as_reachable _ _ _ _ _ Hr Hv')).
  - intros Hcr (i & p & v & g & Hp & Hrej).
    destruct (All_inv_settles ps pA Hlen s (Hinv _ Hreach) Hcr (Hheap _ Hreach))
      as (s' & cell & Hr & Hc & Hst).
    { right. by exists i, p, v, g. }
    destruct (Hend s' cell Hr Hc Hst) as [HA Hres].
    destruct (status cell) eqn:E; [done| |].
    + exfalso. destruct Hres as (_ & a & vals & _ & _ & _ & Hall).
      destruct (Hall _ _ Hp) as (v' & Hv' & _).
      by destruct (settled_as_agree _ _ _ _ _ _ Hv' (settled_as_reachable _ _ _ _ _ Hr Hrej)).
    + destruct Hres as (Hnil & Hfrom).
      pose proof Hfrom as (i' & p' & g' & v' & Hp' & Hg' & Hs').
      exists s', g'. split; [done|]. rewrite <- Hg'. split; [|done].
      by rewrite HA, Hnil.
Qed.

(** [All] on the promise of [Race] of three fulfilled promises: when
    [All] is called, the task of [Race] that is to send the third value is
    blocked on the channel of [Race], whose buffer holds the second; the
    channels of [All] are the next two. *)
Lemma All_settles_with_its_promises_witness :
  exists s0 s1 s,
    run (by_turns [0; 1; 1; 1; 1; 1; 1; 1; 1; 2; 2; 1; 1; 1; 2; 2; 3; 3; 4; 4; 4; 4;
                   5; 5; 6; 7; 7])
      (boot [Resolve (AInt 1); Resolve (AInt 2); Resolve (AInt 3)]
         (Race [Some 0; Some 1; Some 2] (fun r => All [r] keep))) = Some s0
    /\ step (0, true) s0 = Some s1
    /\ run (by_turns [8; 8; 8; 8; 8; 9; 9; 9; 8; 8]) s1 = Some s
    /\ chans s = [mkChan 1 [AInt 2]; mkChan 1 []; mkChan 1 []; mkChan 1 []]
    /\ live_tasks s0 = [(0, None); (6, Some 8)]
    /\ Await s 10 = Some (ASlice 0, None)
    /\ exists vals,
         slices s !! 0 = Some vals /\ length vals = 1
         /\ forall i p, [3] !! i = Some p ->
              exists v, settled_as s p v None /\ vals !! i = Some v.
Proof.
  eexists. eexists. eexists.
  split; [vm_compute; reflexivity|].
  match goal with |- step _ ?a = Some _ /\ _ => set (S0 := a) end.
  split; [vm_compute; reflexivity|].
  match goal with |- run _ ?a = Some _ /\ _ => set (S1 := a) end.
  split; [vm_compute; reflexivity|].
  match goal with |- chans ?a = _ /\ _ => set (SF := a) end.
  split; [reflexivity|]. split; [reflexivity|]. split; [reflexivity|].
  destruct (All_settles_with_its_promises S0 S1 SF 0 true None [3] keep) as (H & _).
  - done.
  - repeat constructor.
  - reflexivity.
  - apart_task.
  - intros tid t Ht Hne.
    do 8 (destruct tid as [|tid]; [try done; injection Ht as <-; apart_task|]).
    simpl in Ht. by rewrite lookup_nil in Ht.
  - reflexivity.
  - apply (run_reachable (by_turns [8; 8; 8; 8; 8; 9; 9; 9; 8; 8])). vm_compute. reflexivity.
  - destruct (H (Resolve (ASlice 0)) eq_refl) as (_ & a & vals & Ha & Hv & Hl & Hall).
    injection Ha as <-. exists vals. split_and!; [exact Hv|exact Hl|exact Hall].
Defined.

(** ** A task alone on its promise *)

(** The step of a task that makes no settlement call on [pT]: the other
    tasks and the cell of [pT] stay, whatever the step does to channels
    and arrays. *)
Lemma outsider_step pT s s' tid pick (T : task) rest :
  tasks s ≡ₚ T :: rest -> Forall (outsider pT) rest ->
  pT < length (promises s) ->
  step (tid, pick) s = Some s' ->
  (exists t, tasks s !! tid = Some t /\ t ∈ rest) ->
  exists rest', tasks s' ≡ₚ T :: rest' /\ Forall (outsider pT) rest'
    /\ promises s' !! pT = promises s !! pT.
Proof.
  intros Ht Hr HpT Hstep (t & Htid & Hin).
  pose proof (step_unfold _ _ _ _ Hstep)
    as (own & c & s1 & c' & started & Hcr & Htid0 & Hcode & ->).
  rewrite Htid in Htid0. injection Htid0 as ->.
  apply elem_of_Permutation in Hin as [rest' Hrest].
  rewrite Hrest in Hr. apply Forall_cons in Hr as [[Hown Hq] Hr]. simpl in *.
  destruct (quiet_step_code pT nothing nothing pick own c s s1 c' started
    (Hq _ eq_refl) Hown HpT Hcode) as (_ & HpT' & Hby & Hst'); [by intros x []..|].
  exists (mkTask own c' :: rest' ++ started). simpl. split_and!.
  - eapply tasks_after_step; [done..|]. rewrite Hrest. solve_Permutation.
  - constructor; [done|]. by apply Forall_app.
  - done.
Qed.

Section Line.
(** The task that owns [pT] goes down [line], one step a row: a row is the
    code the task has left, [None] once it has exited, and the cell of
    [pT] at that point.  The promise [src] holds the settled cell [scell];
    no other task holds [resolve] or [reject] of [pT]. *)
Context (pT src : nat) (scell : Promise) (line : list (option prog * Promise)).

Record On_line (i : nat) (s : state) : Prop := mkOn_line {
  OL_tasks : exists c cell rest,
    line !! i = Some (c, cell)
    /\ tasks s ≡ₚ mkTask (Some pT) c :: rest /\ Forall (outsider pT) rest
    /\ promises s !! pT = Some cell;
  OL_heap : Forall consistent (promises s);
  OL_src : promises s !! src = Some scell
}.

Hypothesis scell_settled : status scell <> PENDING.
Hypothesis line_moves : forall i c cell s pick,
  line !! i = Some (Some c, cell) -> crashed s = None ->
  promises s !! src = Some scell -> promises s !! pT = Some cell ->
  exists c' cell' s1,
    line !! S i = Some (c', cell')
    /\ step_code pick (Some pT) c s = Some (s1, c', [])
    /\ crashed s1 = None /\ promises s1 !! pT = Some cell'.

Lemma On_line_owner i s t :
  On_line i s -> t ∈ tasks s -> owner t = Some pT ->
  exists cell, line !! i = Some (code t, cell) /\ promises s !! pT = Some cell.
Proof.
  intros [(c & cell & rest & Hl & Ht & Hr & Hc) _ _] Hin Hown.
  rewrite Ht in Hin. apply elem_of_cons in Hin as [->|Hin]; [by exists cell|].
  rewrite Forall_forall in Hr. by destruct (Hr _ Hin).
Qed.

Lemma On_line_task_moves i s tid pick c :
  On_line i s -> crashed s = None ->
  tasks s !! tid = Some (mkTask (Some pT) (Some c)) ->
  exists s', step (tid, pick) s = Some s' /\ crashed s' = None /\ On_line (S i) s'.
Proof.
  intros HI Hcr Htid.
  destruct (On_line_owner i s _ HI (list_elem_of_lookup_2 _ _ _ Htid) eq_refl)
    as (cell0 & Hl0 & Hc0). simpl in Hl0.
  destruct HI as [(c0 & cell & rest & Hl & Ht & Hr & Hc) Hh Hsrc].
  rewrite Hl in Hl0. injection Hl0 as -> ->.
  destruct (line_moves i c cell0 s pick Hl Hcr Hsrc Hc)
    as (c' & cell' & s1 & Hl' & Hcode & Hcr1 & Hc').
  pose proof (step_fold _ _ _ _ _ _ _ _ Hcr Htid Hcode) as Hstep.
  eexists. split; [exact Hstep|]. split; [exact Hcr1|]. constructor.
  - exists c', cell', rest. simpl. split_and!; try done.
    eapply tasks_after_step; [done..|]. solve_Permutation.
  - exact (step_consistent _ _ _ Hstep Hh).
  - exact (step_settled _ _ _ _ _ Hstep Hsrc scell_settled).
Qed.

Lemma On_line_step i s ch s' :
  On_line i s -> step ch s = Some s' -> On_line i s' \/ On_line (S i) s'.
Proof.
  destruct ch as [tid pick]. intros HI Hstep.
  pose proof (step_unfold _ _ _ _ Hstep)
    as (own & c & s1 & c' & started & Hcr & Htid & Hcode & _).
  destruct (decide (own = Some pT)) as [->|Hown].
  - right. destruct (On_line_task_moves i s tid pick c HI Hcr Htid) as (s'' & E & _ & HI').
    rewrite Hstep in E. by injection E as <-.
  - left. destruct HI as [(c0 & cell & rest & Hl & Ht & Hr & Hc) Hh Hsrc].
    pose proof (list_elem_of_lookup_2 _ _ _ Htid) as Hin.
    rewrite Ht in Hin. apply elem_of_cons in Hin as [Hin|Hin]; [by injection Hin|].
    destruct (outsider_step pT s s' tid pick _ rest Ht Hr) as (rest' & Ht' & Hr' & Hc');
      [by eapply lookup_lt_Some|done|by eexists|].
    constructor.
    + exists c0, cell, rest'. by rewrite Hc'.
    + by eapply step_consistent.
    + by eapply step_settled.
Qed.

End Line.

(** ** A task that waits for a promise *)

Section Follow.
(** The task that owns [pT] goes down [line] as before, but [src] need
    not be settled when the task is started: the first row waits for it.
    The task is followed down the line when [src] is settled with the
    cell [scell]. *)
Context (pT src : nat) (scell : Promise) (line : list (option prog * Promise)).
Context (start : prog).

(** The task has not moved. *)
Record Waiting (s : state) : Prop := mkWaiting {
  W_tasks : exists rest,
    tasks s ≡ₚ mkTask (Some pT) (Some start) :: rest /\ Forall (outsider pT) rest;
  W_cell : promises s !! pT = Some pending_promise;
  W_heap : Forall consistent (promises s)
}.

(** The task has not moved; or [src] is settled and, when its cell is
    [scell], the task is on the line. *)
Definition Followed (s : state) : Prop :=
  Waiting s
  \/ exists cell, promises s !! src = Some cell /\ status cell <> PENDING
       /\ (cell = scell -> exists i, On_line pT src scell line i s).

Hypothesis scell_settled : status scell <> PENDING.
Hypothesis line_moves : forall i c cell s pick,
  line !! i = Some (Some c, cell) -> crashed s = None ->
  promises s !! src = Some scell -> promises s !! pT = Some cell ->
  exists c' cell' s1,
    line !! S i = Some (c', cell')
    /\ step_code pick (Some pT) c s = Some (s1, c', [])
    /\ crashed s1 = None /\ promises s1 !! pT = Some cell'.
Hypothesis line_start : line !! 0 = Some (Some start, pending_promise).
Hypothesis start_waits : forall s pick o,
  step_code pick (Some pT) start s = Some o ->
  exists cell, promises s !! src = Some cell /\ wg cell = 0.

Lemma Waiting_On_line s :
  Waiting s -> promises s !! src = Some scell -> On_line pT src scell line 0 s.
Proof.
  intros [(rest & Ht & Hr) Hc Hh] Hsrc. constructor; [|done..].
  by exists (Some start), pending_promise, rest.
Qed.

Lemma Followed_step ch s s' : Followed s -> step ch s = Some s' -> Followed s'.
Proof.
  destruct ch as [tid pick]. intros [HW|(cell & Hcell & Hst & HI)] Hstep.
  - pose proof (step_unfold _ _ _ _ Hstep)
      as (own & c & s1 & c' & started & Hcr & Htid & Hcode & _).
    pose proof HW as [(rest & Ht & Hr) Hc Hh].
    pose proof (list_elem_of_lookup_2 _ _ _ Htid) as Hin.
    rewrite Ht in Hin. apply elem_of_cons in Hin as [Hin|Hin].
    + right. injection Hin as -> ->.
      destruct (start_waits _ _ _ Hcode) as (cell & Hcell & Hwg).
      assert (status cell <> PENDING) as Hst.
      { rewrite Forall_lookup in Hh. by apply (consistent_wg _ (Hh _ _ Hcell)). }
      exists cell. split_and!; [by eapply step_settled|done|]. intros ->.
      destruct (On_line_step pT src scell line scell_settled line_moves 0 s (tid, pick) s'
        (Waiting_On_line s HW Hcell) Hstep); eauto.
    + left.
      destruct (outsider_step pT s s' tid pick _ rest Ht Hr) as (rest' & Ht' & Hr' & Hc');
        [by eapply lookup_lt_Some|done|by eexists|].
      constructor.
      * by exists rest'.
      * by rewrite Hc'.
      * by eapply step_consistent.
  - right. exists cell. split_and!; [by eapply step_settled|done|]. intros ->.
    destruct (HI eq_refl) as [i Hi].
    destruct (On_line_step pT src scell line scell_settled line_moves i s (tid, pick) s'
      Hi Hstep); eauto.
Qed.

Lemma Followed_reachable s s' : Followed s -> reachable s s' -> Followed s'.
Proof.
  intros HF. revert s'. apply reachable_invariant; [done|].
  intros ch s1 s2 _ H1 Hstep. by eapply Followed_step.
Qed.

(** Once [src] holds [scell], the task is on the line. *)
Lemma Followed_On_line s :
  Followed s -> promises s !! src = Some scell -> exists i, On_line pT src scell line i s.
Proof.
  intros [HW|(cell & Hcell & _ & HI)] Hsrc.
  - exists 0. by apply Waiting_On_line.
  - rewrite Hsrc in Hcell. injection Hcell as <-. by apply HI.
Qed.

(** Where the promise of the task is, when [src] is settled with no
    other cell than [scell]. *)
Lemma Followed_cell s cell :
  Followed s -> promises s !! pT = Some cell ->
  (forall c, promises s !! src = Some c -> status c <> PENDING -> c = scell) ->
  exists j c, line !! j = Some (c, cell).
Proof.
  intros [[_ Hc _]|(c0 & Hc0 & Hst & HI)] Hcell Hsrc.
  - rewrite Hc in Hcell. injection Hcell as <-. eauto.
  - destruct (HI (Hsrc _ Hc0 Hst)) as [i [(c & cell' & rest & Hl & _ & _ & Hc) _ _]].
    rewrite Hc in Hcell. injection Hcell as <-. eauto.
Qed.

(** The task can be run to its exit, and the program has not crashed
    then. *)
Lemma On_line_exits_alive n i s :
  On_line pT src scell line i s -> crashed s = None -> i + n = length line ->
  exists s' j cell,
    reachable s s' /\ crashed s' = None
    /\ line !! j = Some (None, cell) /\ promises s' !! pT = Some cell.
Proof.
  revert i s. induction n as [|n IH]; intros i s HI Hcr Hn.
  - destruct HI as [(c & cell & rest & Hl & _) _ _].
    apply lookup_lt_Some in Hl. lia.
  - pose proof HI as [(c & cell & rest & Hl & Ht & Hr & Hc) _ _].
    destruct c as [c|]; [|exists s, i, cell; split; [apply rtc_refl|done]].
    destruct (list_elem_of_lookup_1 (tasks s) (mkTask (Some pT) (Some c)))
      as [tid Htid]; [rewrite Ht; apply elem_of_cons; by left|].
    destruct (On_line_task_moves pT src scell line scell_settled line_moves
      i s tid true c HI Hcr Htid) as (s1 & Hstep & Hcr1 & HI1).
    destruct (IH (S i) s1 HI1 Hcr1) as (s' & j & cell' & Hreach & ? & Hj & Hc'); [lia|].
    exists s', j, cell'. split; [|done]. by eapply reachable_step.
Qed.

(** The call of [New] that starts the task. *)
Lemma Followed_call s0 caller own exec k pick s1 :
  start = exec pT ->
  pT = length (promises s0) ->
  Forall consistent (promises s0) ->
  tasks s0 !! caller = Some (mkTask own (Some (Spawn exec k))) ->
  own <> Some pT -> aloof pT (k pT) ->
  (forall tid t, tasks s0 !! tid = Some t -> tid <> caller -> outsider pT t) ->
  step (caller, pick) s0 = Some s1 ->
  Followed s1.
Proof.
  intros Hl EpT Hh Htid Hown Hk Hby Hstep. left.
  pose proof (step_unfold _ _ _ _ Hstep)
    as (own0 & c0 & s' & c' & started & Hcr & Htid0 & Hcode & ->).
  rewrite Htid in Htid0. injection Htid0 as <- <-.
  simpl in Hcode. injection Hcode as <- <- <-. rewrite <- EpT, <- Hl.
  constructor; simpl.
  - exists (<[caller := mkTask own (Some (k pT))]> (tasks s0)).
    split; [solve_Permutation|].
    apply Forall_lookup. intros tid t Ht.
    destruct (decide (tid = caller)) as [->|Hne].
    + rewrite list_lookup_insert_eq in Ht by (by eapply lookup_lt_Some).
      injection Ht as <-. by apply bystander_code.
    + rewrite list_lookup_insert_ne in Ht by done. by eapply Hby.
  - rewrite EpT. by apply list_lookup_middle.
  - apply Forall_app. split; [done|]. constructor; [by compute|done].
Qed.

End Follow.

(** The executors of [Then] and [Catch] begin with [src.Await()]. *)
Lemma Then_exec_waits src cb pT s pick o :
  step_code pick (Some pT) (Then_exec (Some src) cb pT) s = Some o ->
  exists cell, promises s !! src = Some cell /\ wg cell = 0.
Proof.
  simpl. destruct (promises s !! src) as [cell|]; [|done].
  destruct (wg cell) eqn:E; [|done]. by exists cell.
Qed.

Lemma Catch_exec_waits src cb pT s pick o :
  step_code pick (Some pT) (Catch_exec (Some src) cb pT) s = Some o ->
  exists cell, promises s !! src = Some cell /\ wg cell = 0.
Proof.
  simpl. destruct (promises s !! src) as [cell|]; [|done].
  destruct (wg cell) eqn:E; [|done]. by exists cell.
Qed.

(** The run of a task that goes down [line] on the promise [src], from
    the call of [New] that starts it: [src] may be pending at the call.
    At a point where [src] holds the settled cell [scell], the task and
    its promise are on a row of the line, and the task can be run to its
    exit. *)
Lemma Followed_run pT src scell (line : list (option prog * Promise)) exec
    s0 s1 s caller pick own k :
  (forall i c cell s pick,
     line !! i = Some (Some c, cell) -> crashed s = None ->
     promises s !! src = Some scell -> promises s !! pT = Some cell ->
     exists c' cell' s1,
       line !! S i = Some (c', cell')
       /\ step_code pick (Some pT) c s = Some (s1, c', [])
       /\ crashed s1 = None /\ promises s1 !! pT = Some cell') ->
  (forall s pick o,
     step_code pick (Some pT) (exec pT) s = Some o ->
     exists cell, promises s !! src = Some cell /\ wg cell = 0) ->
  line !! 0 = Some (Some (exec pT), pending_promise) ->
  pT = length (promises s0) ->
  Forall consistent (promises s0) ->
  tasks s0 !! caller = Some (mkTask own (Some (Spawn exec k))) ->
  own <> Some pT -> aloof pT (k pT) ->
  (forall tid t, tasks s0 !! tid = Some t -> tid <> caller -> outsider pT t) ->
  step (caller, pick) s0 = Some s1 ->
  reachable s1 s ->
  promises s !! src = Some scell -> wg scell = 0 ->
  (exists j c cell,
     line !! j = Some (c, cell) /\ promises s !! pT = Some cell
     /\ forall tid t, tasks s !! tid = Some t -> owner t = Some pT -> code t = c)
  /\ (crashed s = None ->
      exists s' j cell,
        reachable s s' /\ crashed s' = None /\ line !! j = Some (None, cell)
        /\ promises s' !! pT = Some cell).
Proof.
  intros Hmoves Hw Hl EpT Hh Htid Hown Hk Hby Hstep Hreach Hsrc Hwg.
  assert (Forall consistent (promises s)) as Hhs.
  { eapply reachable_consistent; [exact Hreach|]. by eapply step_consistent. }
  assert (status scell <> PENDING) as Hst.
  { rewrite Forall_lookup in Hhs. by apply (consistent_wg _ (Hhs _ _ Hsrc)). }
  pose proof (Followed_call pT src scell line (exec pT) s0 caller own exec k pick s1
    eq_refl EpT Hh Htid Hown Hk Hby Hstep) as H0.
  pose proof (Followed_reachable pT src scell line (exec pT) Hst Hmoves Hl Hw
    _ _ H0 Hreach) as HF.
  destruct (Followed_On_line pT src scell line (exec pT) Hl s HF Hsrc) as [j Hj].
  split.
  - pose proof Hj as [(c & cell & rest & Hlj & _ & _ & Hc) _ _].
    exists j, c, cell. split_and!; [done..|].
    intros tid t Ht Ho.
    destruct (On_line_owner _ _ _ _ _ _ _ Hj (list_elem_of_lookup_2 _ _ _ Ht) Ho)
      as (cell' & Hl' & _).
    rewrite Hlj in Hl'. by injection Hl' as ->.
  - intros Hcr.
    apply (On_line_exits_alive pT src scell line Hst Hmoves (length line - j) j s Hj Hcr).
    destruct Hj as [(c & cell & rest & Hlj & _) _ _].
    apply lookup_lt_Some in Hlj. lia.
Qed.

(** What [Await] returns is in the cell. *)
Lemma Await_cell s p v e :
  Await s p = Some (v, e) ->
  exists cell, promises s !! p = Some cell /\ wg cell = 0
    /\ value cell = v /\ reason cell = e.
Proof.
  unfold Await. intros H. destruct (promises s !! p) as [cell|]; [|done].
  destruct (wg cell) eqn:E; [|done]. injection H as <- <-. by exists cell.
Qed.

(** The caller of [Then] and of [Catch] in the runs below. *)
Definition hold : nat -> prog := fun q => Ret (APromise (Some q)).

(** ** [Then] on a rejected promise *)

(** C6, as the claim states it, fails: [Then] tells a rejected source by
    the error that [Await] returns, not by the status.  On the promise
    rejected with a nil error the continuation is called, with the zero
    value, and the result is fulfilled with what it returns. *)
Lemma Then_of_rejected_with_nil_calls_back :
  exists s,
    run (by_turns [0; 1; 1; 1])
      (boot [Reject None] (Then (Some 0) (fun _ => Ret (AString "invoked")) hold))
      = Some s
    /\ status <$> promises s !! 0 = Some REJECTED
    /\ Await s 1 = Some (AString "invoked", None).
Proof. eexists. split; [vm_compute; reflexivity|]. split_and!; done. Qed.

(** The task of [Then(src, cb)] with the promise [pT], for a source whose
    reason is [e]: it waits, calls [reject(e)], returns, and is gone. *)
Definition Then_line (src : nat) (e : goerror) (cb : any -> prog) (pT : nat)
    : list (option prog * Promise) :=
  [ (Some (Then_exec (Some src) cb pT), pending_promise);
    (Some (Call_reject pT (Some e) (Ret ANil)), pending_promise);
    (Some (Ret ANil), Reject (Some e));
    (None, Reject (Some e)) ].

Lemma Then_line_moves pT src scell e cb i c cell s pick :
  wg scell = 0 -> reason scell = Some e ->
  Then_line src e cb pT !! i = Some (Some c, cell) -> crashed s = None ->
  promises s !! src = Some scell -> promises s !! pT = Some cell ->
  exists c' cell' s1,
    Then_line src e cb pT !! S i = Some (c', cell')
    /\ step_code pick (Some pT) c s = Some (s1, c', [])
    /\ crashed s1 = None /\ promises s1 !! pT = Some cell'.
Proof.
  intros Hwg He Hl Hcr Hsrc Hc.
  pose proof (lookup_lt_Some _ _ _ Hc) as HpT.
  destruct i as [|[|[|[|i]]]]; simpl in Hl; try done; injection Hl as <- <-.
  - exists (Some (Call_reject pT (Some e) (Ret ANil))), pending_promise, s.
    split_and!; try done. simpl. by rewrite Hsrc, Hwg, He.
  - exists (Some (Ret ANil)), (Reject (Some e)), (set_promise pT (Reject (Some e)) s).
    split_and!; try done.
    + simpl. unfold do_settle. by rewrite Hc.
    + simpl. by apply list_lookup_insert_eq.
  - exists None, (Reject (Some e)), (set_promise pT (Reject (Some e)) s).
    split_and!; try done.
    + simpl. unfold deferred. by rewrite Hc.
    + simpl. by apply list_lookup_insert_eq.
Qed.

(** C6, amended: [Then] on a promise that is rejected with a non-nil
    reason [e], before the call or at any point after it.  The call is made
    by a task of a program whose other code makes no settlement call on the
    promise that [Then] returns, and is free in everything else: it may
    settle other promises, call [New], [Then], [Catch], [All] and [Race],
    make channels and arrays, send, receive and stay blocked.  At every
    point of every run after the call at which [Await] on the source
    returns [e], the task of [Then] is at the start of its executor, at the
    call [reject(e)], at its return, or gone, whatever the continuation is:
    the continuation is not called.  [Await] on the result returns nothing
    but the zero value and [e] itself, and a run that has not crashed can
    be continued to where it returns that. *)
Theorem Then_of_rejected (s0 s1 s : state) (caller : nat) (pick : bool)
    (own : option nat) (src : nat) (v : any) (e : goerror)
    (cb : any -> prog) (k : nat -> prog) :
  Forall consistent (promises s0) ->
  tasks s0 !! caller = Some (mkTask own (Some (Then (Some src) cb k))) ->
  own <> Some (length (promises s0)) ->
  aloof (length (promises s0)) (k (length (promises s0))) ->
  (forall tid t, tasks s0 !! tid = Some t -> tid <> caller ->
     outsider (length (promises s0)) t) ->
  step (caller, pick) s0 = Some s1 ->
  reachable s1 s ->
  Await s src = Some (v, Some e) ->
  (forall tid t, tasks s !! tid = Some t -> owner t = Some (length (promises s0)) ->
     code t = Some (Then_exec (Some src) cb (length (promises s0)))
     \/ code t = Some (Call_reject (length (promises s0)) (Some e) (Ret ANil))
     \/ code t = Some (Ret ANil)
     \/ code t = None)
  /\ (forall x, Await s (length (promises s0)) = Some x -> x = (ANil, Some e))
  /\ (crashed s = None ->
      exists s', reachable s s' /\ Await s' (length (promises s0)) = Some (ANil, Some e)).
Proof.
  intros Hh Htid Hown Hk Hby Hstep Hreach Hsrc.
  destruct (Await_cell _ _ _ _ Hsrc) as (scell & Hsc & Hwg & _ & He).
  set (pT := length (promises s0)) in *.
  destruct (Followed_run pT src scell (Then_line src e cb pT) (Then_exec (Some src) cb)
    s0 s1 s caller pick own k) as [(j & c & cell & Hl & Hc & Hcode) Hlive]; try done.
  - intros i c cell s2 pick2. by apply Then_line_moves.
  - intros s2 pick2 o. apply Then_exec_waits.
  - split_and!.
    + intros tid t Ht Ho. rewrite (Hcode _ _ Ht Ho).
      destruct j as [|[|[|[|j]]]]; simpl in Hl; try done; injection Hl as <- _; auto.
    + intros [v' e'] Hx. destruct (Await_cell _ _ _ _ Hx) as (cell' & Hc' & Hw & <- & <-).
      rewrite Hc in Hc'. injection Hc' as <-.
      destruct j as [|[|[|[|j]]]]; simpl in Hl; try done; by injection Hl as _ <-.
    + intros Hcr. destruct (Hlive Hcr) as (s' & i & cell' & Hr & _ & Hi & Hc').
      exists s'. split; [done|]. unfold Await. rewrite Hc'.
      destruct i as [|[|[|[|i]]]]; simpl in Hi; try done. by injection Hi as <-.
Qed.

(** [Then] on the promise of [All] of three rejected promises: when
    [Then] is called, the task of [All] that is to send the third reason is
    blocked on the channel, whose buffer holds the second. *)
Lemma Then_of_rejected_witness :
  exists s0 s1 s,
    run (by_turns [0; 1; 1; 1; 1; 1; 1; 1; 1; 1; 2; 2; 2; 3; 3; 1; 1; 1; 3; 3; 4; 4;
                   4; 5; 5; 5; 5; 6; 6; 6; 7])
      (boot [Reject (Some Err1); Reject (Some Err2); Reject (Some Err3)]
         (All [Some 0; Some 1; Some 2] (fun p => Then p (fun v => Ret v) hold))) = Some s0
    /\ step (0, true) s0 = Some s1
    /\ run (by_turns [8; 8]) s1 = Some s
    /\ chans s = [mkChan 3 []; mkChan 1 [AError Err2]]
    /\ live_tasks s0 = [(0, None); (7, Some 9)]
    /\ (forall x, Await s 10 = Some x -> x = (ANil, Some Err1))
    /\ exists s', reachable s s' /\ Await s' 10 = Some (ANil, Some Err1).
Proof.
  eexists. eexists. eexists.
  split; [vm_compute; reflexivity|].
  match goal with |- step _ ?a = Some _ /\ _ => set (S0 := a) end.
  split; [vm_compute; reflexivity|].
  match goal with |- run _ ?a = Some _ /\ _ => set (S1 := a) end.
  split; [vm_compute; reflexivity|].
  match goal with |- chans ?a = _ /\ _ => set (SF := a) end.
  split; [reflexivity|]. split; [reflexivity|].
  destruct (Then_of_rejected S0 S1 SF 0 true None 3 ANil Err1 (fun v => Ret v) hold)
    as (_ & Hx & Hlive).
  - repeat constructor.
  - reflexivity.
  - done.
  - constructor.
  - intros tid t Ht Hne.
    do 8 (destruct tid as [|tid]; [try done; injection Ht as <-; outsider_task|]).
    simpl in Ht. by rewrite lookup_nil in Ht.
  - reflexivity.
  - apply (run_reachable (by_turns [8; 8])). vm_compute. reflexivity.
  - reflexivity.
  - split; [exact Hx|]. by apply Hlive.
Defined.

(** ** [Catch] on a fulfilled promise *)

(** C2, as the claim states it, fails: [Catch] on the promise fulfilled
    with 42 returns a promise on which [Await] returns the zero value and
    the error ["<nil>"]. *)
Lemma Catch_of_fulfilled_is_rejected :
  exists s,
    run (by_turns [0; 1; 1])
      (boot [Resolve (AInt 42)] (Catch (Some 0) (fun _ => Ret (AString "recovered")) hold))
      = Some s
    /\ Await s 0 = Some (AInt 42, None)
    /\ Await s 1 = Some (ANil, Some (FmtErrorf "<nil>"))
    /\ Await s 1 <> Some (AInt 42, None).
Proof. eexists. split; [vm_compute; reflexivity|]. split_and!; done. Qed.

(** The task of [Catch(src, cb)] with the promise [pT], for a source with a
    nil error: it waits, returns, and is gone, and the deferred function of
    [New] has rejected [pT]. *)
Definition Catch_line (src : nat) (cb : error -> prog) (pT : nat)
    : list (option prog * Promise) :=
  [ (Some (Catch_exec (Some src) cb pT), pending_promise);
    (Some (Ret ANil), pending_promise);
    (None, Reject (Some (FmtErrorf "<nil>"))) ].

Lemma Catch_line_moves pT src scell cb i c cell s pick :
  wg scell = 0 -> reason scell = None ->
  Catch_line src cb pT !! i = Some (Some c, cell) -> crashed s = None ->
  promises s !! src = Some scell -> promises s !! pT = Some cell ->
  exists c' cell' s1,
    Catch_line src cb pT !! S i = Some (c', cell')
    /\ step_code pick (Some pT) c s = Some (s1, c', [])
    /\ crashed s1 = None /\ promises s1 !! pT = Some cell'.
Proof.
  intros Hwg He Hl Hcr Hsrc Hc.
  pose proof (lookup_lt_Some _ _ _ Hc) as HpT.
  destruct i as [|[|[|i]]]; simpl in Hl; try done; injection Hl as <- <-.
  - exists (Some (Ret ANil)), pending_promise, s.
    split_and!; try done. simpl. by rewrite Hsrc, Hwg, He.
  - exists None, (Reject (Some (FmtErrorf "<nil>"))),
      (set_promise pT (Reject (Some (FmtErrorf "<nil>"))) s).
    split_and!; try done.
    + simpl. unfold deferred. by rewrite Hc.
    + simpl. by apply list_lookup_insert_eq.
Qed.

(** C2, amended: [Catch] on a promise on which [Await] returns a nil
    error (a fulfilled one), fulfilled before the call or at any point
    after it.  The call is made by a task of a program whose other code
    makes no settlement call on the promise that [Catch] returns, and is
    free in everything else: it may settle other promises, call [New],
    [Then], [Catch], [All] and [Race], make channels and arrays, send,
    receive and stay blocked.  At every point of every run after the call
    at which [Await] on the source returns a nil error, the task of
    [Catch] is at the start of its executor, at its return, or gone,
    whatever the continuation is: the continuation is not called, and the
    value is not handed on.  The executor returns without a settlement
    call, so the deferred function of [New] rejects the result with
    ["<nil>"]: [Await] on the result returns nothing else, and a run that
    has not crashed can be continued to where it returns that. *)
Theorem Catch_of_fulfilled (s0 s1 s : state) (caller : nat) (pick : bool)
    (own : option nat) (src : nat) (v : any)
    (cb : error -> prog) (k : nat -> prog) :
  Forall consistent (promises s0) ->
  tasks s0 !! caller = Some (mkTask own (Some (Catch (Some src) cb k))) ->
  own <> Some (length (promises s0)) ->
  aloof (length (promises s0)) (k (length (promises s0))) ->
  (forall tid t, tasks s0 !! tid = Some t -> tid <> caller ->
     outsider (length (promises s0)) t) ->
  step (caller, pick) s0 = Some s1 ->
  reachable s1 s ->
  Await s src = Some (v, None) ->
  (forall tid t, tasks s !! tid = Some t -> owner t = Some (length (promises s0)) ->
     code t = Some (Catch_exec (Some src) cb (length (promises s0)))
     \/ code t = Some (Ret ANil)
     \/ code t = None)
  /\ (forall x, Await s (length (promises s0)) = Some x ->
        x = (ANil, Some (FmtErrorf "<nil>")))
  /\ (crashed s = None ->
      exists s', reachable s s'
        /\ Await s' src = Some (v, None)
        /\ Await s' (length (promises s0)) = Some (ANil, Some (FmtErrorf "<nil>"))).
Proof.
  intros Hh Htid Hown Hk Hby Hstep Hreach Hsrc.
  destruct (Await_cell _ _ _ _ Hsrc) as (scell & Hsc & Hwg & Hv & He).
  set (pT := length (promises s0)) in *.
  destruct (Followed_run pT src scell (Catch_line src cb pT) (Catch_exec (Some src) cb)
    s0 s1 s caller pick own k) as [(j & c & cell & Hl & Hc & Hcode) Hlive]; try done.
  - intros i c cell s2 pick2. by apply Catch_line_moves.
  - intros s2 pick2 o. apply Catch_exec_waits.
  - split_and!.
    + intros tid t Ht Ho. rewrite (Hcode _ _ Ht Ho).
      destruct j as [|[|[|j]]]; simpl in Hl; try done; injection Hl as <- _; auto.
    + intros [v' e'] Hx. destruct (Await_cell _ _ _ _ Hx) as (cell' & Hc' & Hw & <- & <-).
      rewrite Hc in Hc'. injection Hc' as <-.
      destruct j as [|[|[|j]]]; simpl in Hl; try done; by injection Hl as _ <-.
    + intros Hcr. destruct (Hlive Hcr) as (s' & i & cell' & Hr & _ & Hi & Hc').
      exists s'. split; [done|]. split.
      * assert (status scell <> PENDING) as Hst.
        { assert (Forall consistent (promises s)) as Hhs.
          { eapply reachable_consistent; [exact Hreach|]. by eapply step_consistent. }
          rewrite Forall_lookup in Hhs. by apply (consistent_wg _ (Hhs _ _ Hsc)). }
        unfold Await. rewrite (reachable_settled _ _ _ _ Hr Hsc Hst).
        by rewrite Hwg, Hv, He.
      * unfold Await. rewrite Hc'.
        destruct i as [|[|[|i]]]; simpl in Hi; try done. by injection Hi as <-.
Qed.

(** [Catch] on the promise of [Race] of three fulfilled promises: when
    [Catch] is called, the task of [Race] that is to send the third value
    is blocked on the channel, whose buffer holds the second. *)
Lemma Catch_of_fulfilled_witness :
  exists s0 s1 s,
    run (by_turns [0; 1; 1; 1; 1; 1; 1; 1; 1; 2; 2; 1; 1; 1; 2; 2; 3; 3; 4; 4; 4; 4;
                   5; 5; 6; 7; 7])
      (boot [Resolve (AInt 1); Resolve (AInt 2); Resolve (AInt 3)]
         (Race [Some 0; Some 1; Some 2]
            (fun p => Catch p (fun _ => Ret (AString "recovered")) hold))) = Some s0
    /\ step (0, true) s0 = Some s1
    /\ run (by_turns [8]) s1 = Some s
    /\ chans s = [mkChan 1 [AInt 2]; mkChan 1 []]
    /\ live_tasks s0 = [(0, None); (6, Some 8)]
    /\ Await s 3 = Some (AInt 1, None)
    /\ (forall x, Await s 10 = Some x -> x = (ANil, Some (FmtErrorf "<nil>")))
    /\ exists s', reachable s s' /\ Await s' 10 = Some (ANil, Some (FmtErrorf "<nil>")).
Proof.
  eexists. eexists. eexists.
  split; [vm_compute; reflexivity|].
  match goal with |- step _ ?a = Some _ /\ _ => set (S0 := a) end.
  split; [vm_compute; reflexivity|].
  match goal with |- run _ ?a = Some _ /\ _ => set (S1 := a) end.
  split; [vm_compute; reflexivity|].
  match goal with |- chans ?a = _ /\ _ => set (SF := a) end.
  split; [reflexivity|]. split; [reflexivity|]. split; [reflexivity|].
  destruct (Catch_of_fulfilled S0 S1 SF 0 true None 3 (AInt 1)
    (fun _ => Ret (AString "recovered")) hold) as (_ & Hx & Hlive).
  - repeat constructor.
  - reflexivity.
  - done.
  - constructor.
  - intros tid t Ht Hne.
    do 8 (destruct tid as [|tid]; [try done; injection Ht as <-; outsider_task|]).
    simpl in Ht. by rewrite lookup_nil in Ht.
  - reflexivity.
  - apply (run_reachable (by_turns [8])). vm_compute. reflexivity.
  - reflexivity.
  - split; [exact Hx|]. destruct (Hlive eq_refl) as (s' & Hr & _ & Ha). by exists s'.
Defined.

(** ** [Then] and [Catch] with a continuation that returns or panics *)








Ltac line_rows H :=
  repeat (match type of H with
          | (_ :: _) !! ?j = Some _ => destruct j as [|j]; simpl in H
          | [] !! _ = Some _ => by rewrite lookup_nil in H
          end);
  try done.















(** ** [Then] and [Catch] in a chain *)

Lemma reachable_trans s1 s2 s3 : reachable s1 s2 -> reachable s2 s3 -> reachable s1 s3.
Proof. apply rtc_trans. Qed.

(** The run of a task that goes down [line] on the promise [src], which
    other tasks settle: at the point [s], [src] is pending or holds
    [scell], and it can be brought to hold [scell]. *)
Lemma Followed_after pT src scell (line : list (option prog * Promise)) exec
    s0 s1 s caller pick own k :
  status scell <> PENDING ->
  (forall i c cell s pick,
     line !! i = Some (Some c, cell) -> crashed s = None ->
     promises s !! src = Some scell -> promises s !! pT = Some cell ->
     exists c' cell' s1,
       line !! S i = Some (c', cell')
       /\ step_code pick (Some pT) c s = Some (s1, c', [])
       /\ crashed s1 = None /\ promises s1 !! pT = Some cell') ->
  (forall s pick o,
     step_code pick (Some pT) (exec pT) s = Some o ->
     exists cell, promises s !! src = Some cell /\ wg cell = 0) ->
  line !! 0 = Some (Some (exec pT), pending_promise) ->
  pT = length (promises s0) ->
  Forall consistent (promises s0) ->
  tasks s0 !! caller = Some (mkTask own (Some (Spawn exec k))) ->
  own <> Some pT -> aloof pT (k pT) ->
  (forall tid t, tasks s0 !! tid = Some t -> tid <> caller -> outsider pT t) ->
  step (caller, pick) s0 = Some s1 ->
  reachable s1 s ->
  (forall c, promises s !! src = Some c -> status c <> PENDING -> c = scell) ->
  (crashed s = None ->
   exists s', reachable s s' /\ crashed s' = None /\ promises s' !! src = Some scell) ->
  (forall cell, promises s !! pT = Some cell -> exists j c, line !! j = Some (c, cell))
  /\ (crashed s = None ->
      exists s' j cell,
        reachable s s' /\ line !! j = Some (None, cell)
        /\ promises s' !! pT = Some cell).
Proof.
  intros Hst Hm Hw Hl EpT Hh Htid Hown Hk Hby Hstep Hreach Hsrc Hlive.
  pose proof (Followed_call pT src scell line (exec pT) s0 caller own exec k pick s1
    eq_refl EpT Hh Htid Hown Hk Hby Hstep) as H1.
  assert (forall t, reachable s1 t -> Followed pT src scell line (exec pT) t) as HF.
  { intros t Ht.
    exact (Followed_reachable pT src scell line (exec pT) Hst Hm Hl Hw _ _ H1 Ht). }
  split.
  - intros cell Hcell.
    exact (Followed_cell pT src scell line (exec pT) Hl s cell (HF s Hreach) Hcell Hsrc).
  - intros Hcr. destruct (Hlive Hcr) as (s' & Hr & Hcr' & Hc).
    destruct (Followed_On_line pT src scell line (exec pT) Hl s'
      (HF s' (reachable_trans _ _ _ Hreach Hr)) Hc) as [i Hi].
    destruct (On_line_exits_alive pT src scell line Hst Hm (length line - i) i s'
      Hi Hcr') as (s'' & j' & cell' & Hr' & _ & Hj' & Hc').
    { destruct Hi as [(c0 & cell0 & rest & Hl0 & _) _ _].
      apply lookup_lt_Some in Hl0. lia. }
    exists s'', j', cell'. split; [|done]. by eapply reachable_trans.
Qed.

(** Two tasks in a chain: the task of [p1] goes down [lineA] on the
    promise [srcA]; the task of [p2], started later, goes down [lineB] on
    [p1], which [lineA] leaves with the cell [scellB].  The promises
    [srcA] and [p1] may be pending when the tasks are started; [srcA]
    holds the settled cell [scellA] at the point [s]. *)
Lemma chain_run p1 srcA scellA (lineA : list (option prog * Promise)) execA
    p2 scellB (lineB : list (option prog * Promise)) execB
    sA sB s0 s1 s callerA caller pickA pick ownA own kA k :
  (forall i c cell s pick,
     lineA !! i = Some (Some c, cell) -> crashed s = None ->
     promises s !! srcA = Some scellA -> promises s !! p1 = Some cell ->
     exists c' cell' s1,
       lineA !! S i = Some (c', cell')
       /\ step_code pick (Some p1) c s = Some (s1, c', [])
       /\ crashed s1 = None /\ promises s1 !! p1 = Some cell') ->
  (forall s pick o,
     step_code pick (Some p1) (execA p1) s = Some o ->
     exists cell, promises s !! srcA = Some cell /\ wg cell = 0) ->
  lineA !! 0 = Some (Some (execA p1), pending_promise) ->
  (forall j c cell, lineA !! j = Some (c, cell) -> wg cell = 0 \/ c = None -> cell = scellB) ->
  p1 = length (promises sA) ->
  Forall consistent (promises sA) ->
  tasks sA !! callerA = Some (mkTask ownA (Some (Spawn execA kA))) ->
  ownA <> Some p1 -> aloof p1 (kA p1) ->
  (forall tid t, tasks sA !! tid = Some t -> tid <> callerA -> outsider p1 t) ->
  step (callerA, pickA) sA = Some sB ->
  reachable sB s0 ->
  status scellB <> PENDING ->
  (forall i c cell s pick,
     lineB !! i = Some (Some c, cell) -> crashed s = None ->
     promises s !! p1 = Some scellB -> promises s !! p2 = Some cell ->
     exists c' cell' s1,
       lineB !! S i = Some (c', cell')
       /\ step_code pick (Some p2) c s = Some (s1, c', [])
       /\ crashed s1 = None /\ promises s1 !! p2 = Some cell') ->
  (forall s pick o,
     step_code pick (Some p2) (execB p2) s = Some o ->
     exists cell, promises s !! p1 = Some cell /\ wg cell = 0) ->
  lineB !! 0 = Some (Some (execB p2), pending_promise) ->
  p2 = length (promises s0) ->
  tasks s0 !! caller = Some (mkTask own (Some (Spawn execB k))) ->
  own <> Some p2 -> aloof p2 (k p2) ->
  (forall tid t, tasks s0 !! tid = Some t -> tid <> caller -> outsider p2 t) ->
  step (caller, pick) s0 = Some s1 ->
  reachable s1 s ->
  promises s !! srcA = Some scellA -> wg scellA = 0 ->
  (forall cell, promises s !! p2 = Some cell -> exists j c, lineB !! j = Some (c, cell))
  /\ (crashed s = None ->
      exists s' j cell,
        reachable s s' /\ lineB !! j = Some (None, cell)
        /\ promises s' !! p2 = Some cell).
Proof.
  intros HmA HwA HlA HAB Ep1 HhA HtidA HownA HkA HbyA HstepA Hreach0
    HstB HmB HwB HlB Ep2 Htid Hown Hk Hby Hstep Hreach HsrcA HwgA.
  assert (reachable sB s) as HreachB.
  { eapply reachable_trans; [exact Hreach0|].
    eapply reachable_trans; [|exact Hreach]. apply rtc_once. by exists (caller, pick). }
  assert (Forall consistent (promises s0)) as Hh0.
  { eapply reachable_consistent; [exact Hreach0|].
    exact (step_consistent _ _ _ HstepA HhA). }
  assert (Forall consistent (promises s)) as Hhs.
  { eapply reachable_consistent; [exact Hreach|]. by eapply step_consistent. }
  destruct (Followed_run p1 srcA scellA lineA execA sA sB s callerA pickA ownA kA
    HmA HwA HlA Ep1 HhA HtidA HownA HkA HbyA HstepA HreachB HsrcA HwgA)
    as [(j & cA & cellA & HlA' & HcA & _) HliveA].
  apply (Followed_after p2 p1 scellB lineB execB s0 s1 s caller pick own k); try done.
  - intros c Hc Hst. rewrite HcA in Hc. injection Hc as <-.
    apply (HAB _ _ _ HlA'). left.
    rewrite Forall_lookup in Hhs. by apply (consistent_wg _ (Hhs _ _ HcA)).
  - intros Hcr.
    destruct (HliveA Hcr) as (s' & i & cell & Hr & Hcr' & Hi & Hc).
    rewrite (HAB _ _ _ Hi (or_intror eq_refl)) in Hc. by exists s'.
Qed.


(** The caller of the chains in the runs below: it calls [Then] or
    [Catch] on the promise it is given and keeps the result. *)
Definition then_hold (g : any -> prog) : nat -> prog :=
  fun p => Then (Some p) g hold.





(** [Then] of [Catch]: the value of a promise does not pass a [Catch]. [Catch]
    on a promise that gives a value and a nil error returns without a
    settlement call, so its promise is rejected with ["<nil>"], and a later
    call of [Then] on that promise does not call its continuation. Each of the
    two calls is made by a task of a program whose other code makes no call of
    the resolve or the reject function of the promise that the call returns
    (the other code of the first call has none for the promise of [Catch],
    that of the second call none for the promise of [Then]), and is free in
    everything else: it may settle other promises, call [New], [Then],
    [Catch], [All] and [Race], make channels and arrays, send, receive and
    stay blocked. At every point of every run after the second call at which
    [Await] on the promise [src] returns a nil error, the promise of [Then] is
    pending or rejected with ["<nil>"], and a run that has not crashed can be
    continued to where [Await] on it returns that error. *)
Theorem Then_of_Catch (sA sB s0 s1 s : state) (callerA caller : nat)
    (pickA pick : bool) (ownA own : option nat) (src : nat) (v : any)
    (h : error -> prog) (g : any -> prog) (kA k : nat -> prog) :
  Forall consistent (promises sA) ->
  tasks sA !! callerA = Some (mkTask ownA (Some (Catch (Some src) h kA))) ->
  ownA <> Some (length (promises sA)) ->
  aloof (length (promises sA)) (kA (length (promises sA))) ->
  (forall tid t, tasks sA !! tid = Some t -> tid <> callerA ->
     outsider (length (promises sA)) t) ->
  step (callerA, pickA) sA = Some sB ->
  reachable sB s0 ->
  tasks s0 !! caller
    = Some (mkTask own (Some (Then (Some (length (promises sA))) g k))) ->
  own <> Some (length (promises s0)) ->
  aloof (length (promises s0)) (k (length (promises s0))) ->
  (forall tid t, tasks s0 !! tid = Some t -> tid <> caller ->
     outsider (length (promises s0)) t) ->
  step (caller, pick) s0 = Some s1 ->
  reachable s1 s ->
  Await s src = Some (v, None) ->
  (forall cell, promises s !! length (promises s0) = Some cell ->
     cell = pending_promise \/ cell = Reject (Some (FmtErrorf "<nil>")))
  /\ (crashed s = None ->
      exists s', reachable s s'
        /\ Await s' (length (promises s0)) = Some (ANil, Some (FmtErrorf "<nil>"))).
Proof.
  intros HhA HtidA HownA HkA HbyA HstepA Hreach0
    Htid Hown Hk Hby Hstep Hreach HsrcA.
  destruct (Await_cell _ _ _ _ HsrcA) as (scell & Hsc & Hwg & Hv & He).
  destruct (chain_run (length (promises sA)) src scell
    (Catch_line src h (length (promises sA))) (Catch_exec (Some src) h)
    (length (promises s0)) (Reject (Some (FmtErrorf "<nil>")))
    (Then_line (length (promises sA)) (FmtErrorf "<nil>") g (length (promises s0)))
    (Then_exec (Some (length (promises sA))) g)
    sA sB s0 s1 s callerA caller pickA pick ownA own kA k) as [Hcell Hlive];
    try done.
  - intros i c cell s2 pick2. by apply Catch_line_moves.
  - intros s2 pick2 o. apply Catch_exec_waits.
  - intros j c cell Hl Hc. unfold Catch_line in Hl.
    line_rows Hl; injection Hl as <- <-; destruct Hc; done.
  - intros i c cell s2 pick2. by apply Then_line_moves.
  - intros s2 pick2 o. apply Then_exec_waits.
  - split.
    + intros cell Hc. destruct (Hcell cell Hc) as (j & c & Hl).
      unfold Then_line in Hl. line_rows Hl; injection Hl as _ <-; auto.
    + intros Hcr. destruct (Hlive Hcr) as (s' & i & cell' & Hr & Hi & Hc').
      exists s'. split; [done|]. unfold Await. rewrite Hc'.
      unfold Then_line in Hi. line_rows Hi. by injection Hi as <-.
Qed.

Lemma Then_of_Catch_witness :
  exists s,
    run (by_turns [0; 0; 1; 1; 2; 2])
      (boot [Resolve (AInt 42)]
         (Catch (Some 0) (fun _ => Ret (AString "recovered")) (then_hold (fun x => Ret x))))
      = Some s
    /\ exists s', reachable s s' /\ Await s' 2 = Some (ANil, Some (FmtErrorf "<nil>")).
Proof.
  eexists. split; [vm_compute; reflexivity|].
  match goal with |- context [reachable ?sF _] =>
    destruct (Then_of_Catch
      (boot [Resolve (AInt 42)]
         (Catch (Some 0) (fun _ => Ret (AString "recovered")) (then_hold (fun x => Ret x))))
      (mkState [Resolve (AInt 42); pending_promise] [] []
         [mkTask None (Some (then_hold (fun x => Ret x) 1));
          mkTask (Some 1)
            (Some (Catch_exec (Some 0) (fun _ => Ret (AString "recovered")) 1))] None)
      (mkState [Resolve (AInt 42); pending_promise] [] []
         [mkTask None (Some (then_hold (fun x => Ret x) 1));
          mkTask (Some 1)
            (Some (Catch_exec (Some 0) (fun _ => Ret (AString "recovered")) 1))] None)
      (mkState [Resolve (AInt 42); pending_promise; pending_promise] [] []
         [mkTask None (Some (hold 2));
          mkTask (Some 1)
            (Some (Catch_exec (Some 0) (fun _ => Ret (AString "recovered")) 1));
          mkTask (Some 2) (Some (Then_exec (Some 1) (fun x => Ret x) 2))] None)
      sF 0 0 true true None None 0 (AInt 42)
      (fun _ => Ret (AString "recovered")) (fun x => Ret x)
      (then_hold (fun x => Ret x)) hold)
      as (_ & Hlive)
  end.
  - repeat constructor.
  - reflexivity.
  - done.
  - unfold then_hold, aloof. quiet_code.
  - intros [|tid] t Ht Hne; [done|]. simpl in Ht. by rewrite lookup_nil in Ht.
  - reflexivity.
  - apply rtc_refl.
  - reflexivity.
  - done.
  - constructor.
  - intros [|[|tid]] t Ht Hne; [done| |simpl in Ht; by rewrite lookup_nil in Ht].
    injection Ht as <-. outsider_task.
  - reflexivity.
  - apply (run_reachable (by_turns [1; 1; 2; 2])). vm_compute. reflexivity.
  - reflexivity.
  - by apply Hlive.
Defined.

(** ** [New] with an executor that settles first *)

Section First_settlement.
(** The executor of the promise [pT] begins with the settlement call [c];
    [after] is the rest of its code, whatever it is. *)
Context (pT : nat) (c : settle_call) (after : prog).

Definition settles_first : prog :=
  match c with
  | call_resolve v => Call_resolve pT v after
  | call_reject e => Call_reject pT e after
  end.

Record Unsettled (s : state) : Prop := mkUnsettled {
  U_tasks : exists rest,
    tasks s ≡ₚ mkTask (Some pT) (Some settles_first) :: rest
    /\ Forall (outsider pT) rest;
  U_heap : Forall consistent (promises s);
  U_cell : promises s !! pT = Some pending_promise
}.

Definition Settled (s : state) : Prop :=
  promises s !! pT = Some (settle c pending_promise).1.

Lemma Settled_step ch s s' : Settled s -> step ch s = Some s' -> Settled s'.
Proof.
  intros H Hstep. eapply step_settled; [done..|]. by apply settle_pending_status.
Qed.

Lemma Unsettled_moves s tid pick :
  Unsettled s -> crashed s = None ->
  tasks s !! tid = Some (mkTask (Some pT) (Some settles_first)) ->
  exists s', step (tid, pick) s = Some s' /\ crashed s' = None /\ Settled s'.
Proof.
  intros [_ _ Hc] Hcr Htid.
  assert (step_code pick (Some pT) settles_first s
    = Some (set_promise pT (settle c pending_promise).1 s, Some after, [])) as Hcode.
  { unfold settles_first. destruct c; simpl; unfold do_settle; by rewrite Hc. }
  pose proof (step_fold _ _ _ _ _ _ _ _ Hcr Htid Hcode) as Hstep.
  eexists. split; [exact Hstep|]. split; [done|].
  unfold Settled. simpl. apply list_lookup_insert_eq. by eapply lookup_lt_Some.
Qed.

Lemma Unsettled_step ch s s' :
  Unsettled s -> step ch s = Some s' -> Unsettled s' \/ Settled s'.
Proof.
  destruct ch as [tid pick]. intros HU Hstep.
  pose proof (step_unfold _ _ _ _ Hstep)
    as (own & c0 & s1 & c' & started & Hcr & Htid & Hcode & _).
  pose proof HU as [(rest & Ht & Hr) Hh Hc].
  pose proof (list_elem_of_lookup_2 _ _ _ Htid) as Hin.
  rewrite Ht in Hin. apply elem_of_cons in Hin as [Hin|Hin].
  - right. injection Hin as -> ->.
    destruct (Unsettled_moves s tid pick HU Hcr Htid) as (s'' & E & _ & HS).
    rewrite Hstep in E. by injection E as <-.
  - left.
    destruct (outsider_step pT s s' tid pick _ rest Ht Hr) as (rest' & Ht' & Hr' & Hc');
      [by eapply lookup_lt_Some|done|by eexists|].
    constructor.
    + by exists rest'.
    + by eapply step_consistent.
    + by rewrite Hc'.
Qed.

Lemma Unsettled_reachable s s' :
  Unsettled s -> reachable s s' -> Unsettled s' \/ Settled s'.
Proof.
  intros HU. revert s'. apply reachable_invariant; [by left|].
  intros ch s1 s2 _ [H1|H1] Hstep.
  - by eapply Unsettled_step.
  - right. by eapply Settled_step.
Qed.

Lemma Unsettled_settles s :
  Unsettled s \/ Settled s -> crashed s = None ->
  exists s', reachable s s' /\ crashed s' = None /\ Settled s'.
Proof.
  intros [HU|HS] Hcr; [|exists s; split; [apply rtc_refl|done]].
  pose proof HU as [(rest & Ht & Hr) _ _].
  destruct (list_elem_of_lookup_1 (tasks s) (mkTask (Some pT) (Some settles_first)))
    as [tid Htid]; [rewrite Ht; apply elem_of_cons; by left|].
  destruct (Unsettled_moves s tid true HU Hcr Htid) as (s' & Hstep & Hcr' & HS).
  exists s'. split; [|done]. eapply rtc_once. by exists (tid, true).
Qed.

Lemma Unsettled_call s0 caller own exec k pick s1 :
  exec pT = settles_first ->
  pT = length (promises s0) ->
  Forall consistent (promises s0) ->
  tasks s0 !! caller = Some (mkTask own (Some (New (Some exec) k))) ->
  own <> Some pT -> aloof pT (k pT) ->
  (forall tid t, tasks s0 !! tid = Some t -> tid <> caller -> outsider pT t) ->
  step (caller, pick) s0 = Some s1 ->
  Unsettled s1.
Proof.
  intros Hexec EpT Hh Htid Hown Hk Hby Hstep.
  pose proof (step_unfold _ _ _ _ Hstep)
    as (own0 & c0 & s' & c' & started & Hcr & Htid0 & Hcode & ->).
  rewrite Htid in Htid0. injection Htid0 as <- <-.
  simpl in Hcode. injection Hcode as <- <- <-. rewrite <- EpT, Hexec.
  constructor; simpl.
  - exists (<[caller := mkTask own (Some (k pT))]> (tasks s0)).
    split; [solve_Permutation|].
    apply Forall_lookup. intros tid t Ht.
    destruct (decide (tid = caller)) as [->|Hne].
    + rewrite list_lookup_insert_eq in Ht by (by eapply lookup_lt_Some).
      injection Ht as <-. by apply bystander_code.
    + rewrite list_lookup_insert_ne in Ht by done. by eapply Hby.
  - apply Forall_app. split; [done|]. constructor; [by compute|done].
  - rewrite EpT. by apply list_lookup_middle.
Qed.

End First_settlement.

(** The first settlement call of an executor decides: [New] with an executor
    that begins with [resolve(v)] (or with [reject(e)]), whatever it does
    after (return, panic, a second call of [resolve] or [reject]). The call is
    made by a task of a program whose other code, the executor apart, makes no
    call of the resolve or the reject function of the promise of [New], and is
    free in everything else: it may settle other promises, call [New], [Then],
    [Catch], [All] and [Race], make channels and arrays, send, receive and
    stay blocked. At every point of every run after the call the promise is
    pending or settled as that first call says, and a run that has not crashed
    can be continued to where it is settled so. *)
Theorem New_settles_with_first_call (s0 s1 s : state) (caller : nat) (pick : bool)
    (own : option nat) (c : settle_call) (exec : nat -> prog) (after : prog)
    (k : nat -> prog) :
  Forall consistent (promises s0) ->
  exec (length (promises s0)) = settles_first (length (promises s0)) c after ->
  tasks s0 !! caller = Some (mkTask own (Some (New (Some exec) k))) ->
  own <> Some (length (promises s0)) ->
  aloof (length (promises s0)) (k (length (promises s0))) ->
  (forall tid t, tasks s0 !! tid = Some t -> tid <> caller ->
     outsider (length (promises s0)) t) ->
  step (caller, pick) s0 = Some s1 ->
  reachable s1 s ->
  (forall cell, promises s !! length (promises s0) = Some cell ->
     cell = pending_promise \/ cell = (settle c pending_promise).1)
  /\ (crashed s = None ->
      exists s', reachable s s'
        /\ Await s' (length (promises s0))
           = Some (value (settle c pending_promise).1, reason (settle c pending_promise).1)).
Proof.
  intros Hh Hexec Htid Hown Hk Hby Hstep Hreach.
  pose proof (Unsettled_call _ c after s0 caller own exec k pick s1 Hexec eq_refl
    Hh Htid Hown Hk Hby Hstep) as HU.
  pose proof (Unsettled_reachable _ _ _ _ _ HU Hreach) as Hs.
  split.
  - intros cell Hcell. destruct Hs as [[_ _ Hc]|Hc]; rewrite Hc in Hcell;
      injection Hcell as <-; auto.
  - intros Hcr. destruct (Unsettled_settles _ _ _ _ Hs Hcr) as (s' & Hr & _ & HS).
    exists s'. split; [done|]. unfold Await. rewrite HS. by destruct c.
Qed.

Lemma New_settles_with_first_call_witness :
  exists s0 s1 s,
    run (by_turns [0; 1; 1; 1; 1; 1; 1; 1; 1; 2; 2; 1; 1; 1; 2; 2; 3; 3; 4; 4; 4; 4;
                   5; 5; 6; 7; 7])
      (boot [Resolve (AInt 1); Resolve (AInt 2); Resolve (AInt 3)]
         (Race [Some 0; Some 1; Some 2]
            (fun _ =>
               New (Some (fun p => Call_resolve p (AInt 42) (Panic (PString "late"))))
                 hold))) = Some s0
    /\ step (0, true) s0 = Some s1
    /\ run (by_turns [8]) s1 = Some s
    /\ chans s = [mkChan 1 [AInt 2]; mkChan 1 []]
    /\ live_tasks s0 = [(0, None); (6, Some 8)]
    /\ (forall cell, promises s !! 10 = Some cell ->
          cell = pending_promise \/ cell = Resolve (AInt 42))
    /\ exists s', reachable s s' /\ Await s' 10 = Some (AInt 42, None).
Proof.
  eexists. eexists. eexists.
  split; [vm_compute; reflexivity|].
  match goal with |- step _ ?a = Some _ /\ _ => set (S0 := a) end.
  split; [vm_compute; reflexivity|].
  match goal with |- run _ ?a = Some _ /\ _ => set (S1 := a) end.
  split; [vm_compute; reflexivity|].
  match goal with |- chans ?a = _ /\ _ => set (SF := a) end.
  split; [reflexivity|]. split; [reflexivity|].
  destruct (New_settles_with_first_call S0 S1 SF 0 true None (call_resolve (AInt 42))
    (fun p => Call_resolve p (AInt 42) (Panic (PString "late")))
    (Panic (PString "late")) hold) as (Hx & Hlive).
  - repeat constructor.
  - reflexivity.
  - reflexivity.
  - done.
  - constructor.
  - intros tid t Ht Hne.
    do 8 (destruct tid as [|tid]; [try done; injection Ht as <-; outsider_task|]).
    simpl in Ht. by rewrite lookup_nil in Ht.
  - reflexivity.
  - apply (run_reachable (by_turns [8])). vm_compute. reflexivity.
  - split; [exact Hx|]. by apply Hlive.
Defined.





(** ** Panics and the program *)

Lemma deferred_crashed p r s o :
  Forall consistent (promises s) -> deferred p r s = Some o ->
  crashed o.1.1 = crashed s.
Proof.
  intros Hh H. unfold deferred in H.
  destruct (promises s !! p) as [cell|] eqn:E; [|done].
  rewrite Forall_lookup in Hh.
  pose proof (settle_consistent_no_panic (call_reject (recovered_reason r)) cell
    (Hh _ _ E)) as Hpan. simpl in Hpan.
  destruct (reject (recovered_reason r) cell) as [cell' pan]. simpl in Hpan. subst pan.
  by injection H as <-.
Qed.

Lemma do_settle_crashed p c k s o :
  do_settle p c k s = Some o -> crashed o.1.1 = crashed s.
Proof.
  unfold do_settle. intros H. destruct (promises s !! p) as [cell|]; [|done].
  destruct (settle c cell) as [cell' pan]. by injection H as <-.
Qed.

(** A step crashes the program only when it is the panic of a task that
    [New] did not start. *)
Lemma step_code_crashed pick own c s s1 c' started r :
  Forall consistent (promises s) -> crashed s = None ->
  step_code pick own c s = Some (s1, c', started) ->
  crashed s1 = Some r -> own = None /\ c = Panic r.
Proof.
  intros Hh Hcr H Hr.
  assert (forall o, crashed o.1.1 = crashed s -> o = (s1, c', started) -> False) as Hno.
  { intros o E ->. simpl in E. congruence. }
  destruct c; simpl in H;
    try (injection H as <- <- <-; simpl in Hr; congruence).
  - destruct own as [p|]; [|injection H as <- <- <-; congruence].
    destruct (Hno _ (deferred_crashed _ _ _ _ Hh H) eq_refl).
  - destruct own as [p|].
    + destruct (Hno _ (deferred_crashed _ _ _ _ Hh H) eq_refl).
    + injection H as <- <- <-. simpl in Hr. by injection Hr as ->.
  - destruct (Hno _ (do_settle_crashed _ _ _ _ _ H) eq_refl).
  - destruct (Hno _ (do_settle_crashed _ _ _ _ _ H) eq_refl).
  - destruct p as [p|]; [|injection H as <- <- <-; congruence].
    destruct (promises s !! p) as [cell|]; [|done].
    destruct (wg cell); [|done]. injection H as <- <- <-. congruence.
  - destruct (chans s !! c) as [ch|]; [|done].
    destruct (decide _); [|done]. injection H as <- <- <-. simpl in Hr. congruence.
  - destruct (chans s !! c1) as [ch1|]; [|done].
    destruct (chans s !! c2) as [ch2|]; [|done].
    destruct (buffer ch1), (buffer ch2); try done; [| |destruct pick];
      injection H as <- <- <-; simpl in Hr; congruence.
  - destruct (slices s !! a) as [l|]; [|done].
    destruct (decide _); injection H as <- <- <-; simpl in Hr; congruence.
Qed.

(** No panic of an executor, of a continuation, of [wg.Done] or of a nil
    pointer in a task started by [New] crashes the program: from a heap of
    cells made by [New], [Resolve] and [Reject], the step after which the
    program has crashed with [r] is the panic with [r] of a task that has
    no deferred function, the goroutine of a caller. *)
Theorem only_a_caller_crashes (s0 s s' : state) (tid : nat) (pick : bool) (r : payload) :
  Forall consistent (promises s0) ->
  reachable s0 s ->
  step (tid, pick) s = Some s' ->
  crashed s' = Some r ->
  tasks s !! tid = Some (mkTask None (Some (Panic r))).
Proof.
  intros Hh Hreach Hstep Hr.
  pose proof (reachable_consistent _ _ Hreach Hh) as Hs.
  pose proof (step_unfold _ _ _ _ Hstep)
    as (own & c & s1 & c' & started & Hcr & Htid & Hcode & ->).
  simpl in Hr.
  destruct (step_code_crashed _ _ _ _ _ _ _ _ Hs Hcr Hcode Hr) as [-> ->]. done.
Qed.

Lemma only_a_caller_crashes_witness :
  tasks (boot [] (New None hold)) !! 0
    = Some (mkTask None (Some (Panic (PString "executor cannot be nil")))).
Proof.
  apply (only_a_caller_crashes (boot [] (New None hold)) (boot [] (New None hold))
    (mkState [] [] [] [mkTask None None] (Some (PString "executor cannot be nil")))
    0 true (PString "executor cannot be nil")).
  - constructor.
  - apply rtc_refl.
  - reflexivity.
  - reflexivity.
Defined.

(** ** [Resolve] and [Reject] *)

(** A call that puts a settled cell in the heap and goes on with its
    address: the cell is there at every later point. *)
Lemma settled_cell_stays s tid pick own c cell (k : nat -> prog) :
  crashed s = None ->
  tasks s !! tid = Some (mkTask own (Some c)) ->
  step_code pick own c s = Some (alloc_promise cell s, Some (k (length (promises s))), []) ->
  status cell <> PENDING ->
  exists s1,
    step (tid, pick) s = Some s1
    /\ tasks s1 = <[tid := mkTask own (Some (k (length (promises s))))]> (tasks s)
    /\ forall s', reachable s1 s' -> promises s' !! length (promises s) = Some cell.
Proof.
  intros Hcr Htid Hcode Hst.
  pose proof (step_fold _ _ _ _ _ _ _ _ Hcr Htid Hcode) as Hstep.
  eexists. split; [exact Hstep|]. simpl. split; [by rewrite app_nil_r|].
  intros s' Hreach.
  apply (reachable_settled _ s' (length (promises s)) cell Hreach); [|done].
  simpl. by apply list_lookup_middle.
Qed.

(** [Resolve(v)] starts no task and returns a promise that is fulfilled
    at once: at every later point of the run its status is [FULFILLED] and
    [Await] on it returns [v] and a nil error. *)
Theorem Resolve_is_fulfilled (s : state) (tid : nat) (pick : bool) (own : option nat)
    (v : any) (k : nat -> prog) :
  crashed s = None ->
  tasks s !! tid = Some (mkTask own (Some (Call_Resolve v k))) ->
  exists s1,
    step (tid, pick) s = Some s1
    /\ tasks s1 = <[tid := mkTask own (Some (k (length (promises s))))]> (tasks s)
    /\ forall s', reachable s1 s' ->
         status <$> promises s' !! length (promises s) = Some FULFILLED
         /\ Await s' (length (promises s)) = Some (v, None).
Proof.
  intros Hcr Htid.
  destruct (settled_cell_stays s tid pick own _ (Resolve v) k Hcr Htid eq_refl)
    as (s1 & Hstep & Ht & Hs1); [done|].
  exists s1. split_and!; [done..|]. intros s' Hreach.
  unfold Await. by rewrite (Hs1 s' Hreach).
Qed.

Lemma Resolve_is_fulfilled_witness :
  exists s1,
    step (0, true) (boot [] (Call_Resolve (AInt 42) hold)) = Some s1
    /\ Await s1 0 = Some (AInt 42, None).
Proof.
  destruct (Resolve_is_fulfilled (boot [] (Call_Resolve (AInt 42) hold)) 0 true None
    (AInt 42) hold eq_refl eq_refl) as (s1 & H1 & _ & H2).
  exists s1. split; [exact H1|]. apply (H2 s1), rtc_refl.
Defined.

(** [Reject(err)] starts no task and returns a promise that is rejected at
    once: at every later point its status is [REJECTED] and [Await] on it
    returns the zero value and [err] itself, a nil error when [err] is
    nil. *)
Theorem Reject_is_rejected (s : state) (tid : nat) (pick : bool) (own : option nat)
    (err : error) (k : nat -> prog) :
  crashed s = None ->
  tasks s !! tid = Some (mkTask own (Some (Call_Reject err k))) ->
  exists s1,
    step (tid, pick) s = Some s1
    /\ tasks s1 = <[tid := mkTask own (Some (k (length (promises s))))]> (tasks s)
    /\ forall s', reachable s1 s' ->
         status <$> promises s' !! length (promises s) = Some REJECTED
         /\ Await s' (length (promises s)) = Some (ANil, err).
Proof.
  intros Hcr Htid.
  destruct (settled_cell_stays s tid pick own _ (Reject err) k Hcr Htid eq_refl)
    as (s1 & Hstep & Ht & Hs1); [done|].
  exists s1. split_and!; [done..|]. intros s' Hreach.
  unfold Await. by rewrite (Hs1 s' Hreach).
Qed.

Lemma Reject_is_rejected_witness :
  exists s1,
    step (0, true) (boot [] (Call_Reject None hold)) = Some s1
    /\ Await s1 0 = Some (ANil, None).
Proof.
  destruct (Reject_is_rejected (boot [] (Call_Reject None hold)) 0 true None
    None hold eq_refl eq_refl) as (s1 & H1 & _ & H2).
  exists s1. split; [exact H1|]. apply (H2 s1), rtc_refl.
Defined.

(** ** [Race]: the tasks it starts and what they have done *)

Section Race_protocol.
(** The promises given to [Race] up to the first nil one, what follows
    them ([tl], empty or with a nil promise first), the promise of [Race]
    and its channels [valueChan] and [errChan], once the executor has made
    them. *)
Context (ps : list nat) (tl : list (option nat)) (pR vC eC : nat).

(** The continuations that [Race] gives to [Then] and [Catch],
    lines 185-192. *)
Definition on_first_value (val : any) : prog := Send vC val (Ret val).

Definition on_first_error (err : error) : prog :=
  Send eC (any_of_error err) (Ret (any_of_error err)).

(** The [select] of lines 195-200. *)
Definition select_code : prog :=
  Select vC eC
    (fun val => Call_resolve pR val (Ret ANil))
    (fun err => Call_reject pR (error_of_any err) (Ret ANil)).

Definition loop_code (l : list (option nat)) : prog :=
  Race_range vC eC l select_code.

(** Where the executor of [Race] stands, once it has made its channels:
    in the loop before the promise of index [j] (past the loop when [j] is
    the number of promises), at a settlement call, or after it. *)
Inductive rphase : Type :=
| R_loop (j : nat) (catch_next : bool)
| R_settle (c : settle_call)
| R_done (c : settle_call) (exited : bool).

Definition rcode (a : rphase) : option prog :=
  match a with
  | R_loop j false => Some (loop_code ((Some <$> drop j ps) ++ tl))
  | R_loop j true =>
      Some (Catch (ps !! j) on_first_error
              (fun _ => loop_code ((Some <$> drop (S j) ps) ++ tl)))
  | R_settle (call_resolve v) => Some (Call_resolve pR v (Ret ANil))
  | R_settle (call_reject e) => Some (Call_reject pR e (Ret ANil))
  | R_done _ false => Some (Ret ANil)
  | R_done _ true => None
  end.

Definition rcell (a : rphase) : Promise :=
  match a with
  | R_done c _ => (settle c pending_promise).1
  | _ => pending_promise
  end.

(** The value, the error, is that of one of the promises. *)
Definition first_value (s : state) (v : any) : Prop :=
  exists p, p ∈ ps /\ settled_as s p v None.

Definition first_error (s : state) (x : any) : Prop :=
  exists p v g, p ∈ ps /\ x = AError g /\ settled_as s p v (Some g).

(** The tasks of [Then] that have not sent yet: about to wait, or about
    to send the value. *)
Inductive then_worker (s : state) : task -> Prop :=
| TW_await r p :
    r <> pR -> p ∈ ps ->
    then_worker s (mkTask (Some r) (Some (Then_exec (Some p) on_first_value r)))
| TW_send r v :
    r <> pR -> first_value s v ->
    then_worker s (mkTask (Some r) (Some (Send vC v (finish r v)))).

(** The tasks of [Catch] that have not sent yet. *)
Inductive catch_worker (s : state) : task -> Prop :=
| CW_await r p :
    r <> pR -> p ∈ ps ->
    catch_worker s (mkTask (Some r) (Some (Catch_exec (Some p) on_first_error r)))
| CW_send r g :
    r <> pR -> first_error s (AError g) ->
    catch_worker s
      (mkTask (Some r) (Some (Send eC (AError g) (finish r (AError g))))).

Definition chans_of (s : state) : Prop :=
  exists bv be,
    chans s !! vC = Some (mkChan 1 bv) /\ chans s !! eC = Some (mkChan 1 be)
    /\ Forall (first_value s) bv /\ Forall (first_error s) be.

(** A value will reach [valueChan], or has: the task of [Then] on [p] is
    still to wait, or [p] has a reason, or a task is about to send, or the
    buffer holds a value. *)
Definition then_live (tws : list task) (s : state) (p : nat) : Prop :=
  (exists r, mkTask (Some r) (Some (Then_exec (Some p) on_first_value r)) ∈ tws)
  \/ (exists v g, settled_as s p v (Some g))
  \/ (exists r v, mkTask (Some r) (Some (Send vC v (finish r v))) ∈ tws)
  \/ (exists ch, chans s !! vC = Some ch /\ buffer ch <> []).

Definition catch_live (cws : list task) (s : state) (p : nat) : Prop :=
  (exists r, mkTask (Some r) (Some (Catch_exec (Some p) on_first_error r)) ∈ cws)
  \/ (exists v, settled_as s p v None)
  \/ (exists r g,
        mkTask (Some r) (Some (Send eC (AError g) (finish r (AError g)))) ∈ cws)
  \/ (exists ch, chans s !! eC = Some ch /\ buffer ch <> []).

Definition loop_of (a : rphase) (tws cws : list task) (s : state) : Prop :=
  match a with
  | R_loop j b =>
      (if b then j < length ps else j <= length ps)
      /\ (forall i p, ps !! i = Some p -> i < (if b then S j else j) -> then_live tws s p)
      /\ (forall i p, ps !! i = Some p -> i < j -> catch_live cws s p)
  | _ => True
  end.

Definition nil_promise : goerror := FmtErrorf "must provide valid promise".

(** What the executor settles its promise with. *)
Definition decided (s : state) (c : settle_call) : Prop :=
  match tl with
  | [] =>
      match c with
      | call_resolve v => first_value s v
      | call_reject e => exists g, e = Some g /\ first_error s (AError g)
      end
  | _ :: _ => c = call_reject (Some nil_promise)
  end.

Definition decided_of (a : rphase) (s : state) : Prop :=
  match a with
  | R_settle c => tl = [] /\ decided s c
  | R_done c _ => decided s c
  | _ => True
  end.

Record Rac (a : rphase) (tws cws rest : list task) (s : state) : Prop := mkRac {
  Rc_tasks : tasks s ≡ₚ mkTask (Some pR) (rcode a) :: tws ++ cws ++ rest;
  Rc_thens : Forall (then_worker s) tws;
  Rc_catches : Forall (catch_worker s) cws;
  Rc_rest : Forall (bystander pR (own_chans vC eC) nothing) rest;
  Rc_heap : Forall consistent (promises s);
  Rc_pR : promises s !! pR = Some (rcell a);
  Rc_chans : chans_of s;
  Rc_loop : loop_of a tws cws s;
  Rc_decided : decided_of a s
}.

(** *** What a step keeps *)

Lemma first_value_step ch s s' v :
  step ch s = Some s' -> first_value s v -> first_value s' v.
Proof. intros H (p & ? & ?). exists p. eauto using settled_as_step. Qed.

Lemma first_error_step ch s s' x :
  step ch s = Some s' -> first_error s x -> first_error s' x.
Proof. intros H (p & v & g & ? & ? & ?). exists p, v, g. eauto using settled_as_step. Qed.

Lemma then_worker_step ch s s' t :
  step ch s = Some s' -> then_worker s t -> then_worker s' t.
Proof. intros H [|]; constructor; eauto using first_value_step. Qed.

Lemma catch_worker_step ch s s' t :
  step ch s = Some s' -> catch_worker s t -> catch_worker s' t.
Proof. intros H [|]; constructor; eauto using first_error_step. Qed.

Lemma decided_step ch s s' c :
  step ch s = Some s' -> decided s c -> decided s' c.
Proof.
  intros H. unfold decided. destruct tl; [|done].
  destruct c; [exact (first_value_step _ _ _ _ H)|].
  intros (g & ? & ?). exists g. eauto using first_error_step.
Qed.

Lemma then_await_inv s r p :
  then_worker s (mkTask (Some r) (Some (Then_exec (Some p) on_first_value r))) ->
  r <> pR /\ p ∈ ps.
Proof. intros H. inversion H; subst; done. Qed.

Lemma then_send_inv s r v :
  then_worker s (mkTask (Some r) (Some (Send vC v (finish r v)))) ->
  r <> pR /\ first_value s v.
Proof. intros H. inversion H; subst; done. Qed.

Lemma catch_await_inv s r p :
  catch_worker s (mkTask (Some r) (Some (Catch_exec (Some p) on_first_error r))) ->
  r <> pR /\ p ∈ ps.
Proof. intros H. inversion H; subst; done. Qed.

Lemma catch_send_inv s r g :
  catch_worker s
    (mkTask (Some r) (Some (Send eC (AError g) (finish r (AError g))))) ->
  r <> pR /\ first_error s (AError g).
Proof. intros H. inversion H; subst; done. Qed.

(** [then_live] when the tasks of [Then] change from [tws] to [tws']. *)
Lemma then_live_step ch s s' tws tws' p :
  step ch s = Some s' ->
  (forall r, mkTask (Some r) (Some (Then_exec (Some p) on_first_value r)) ∈ tws ->
     mkTask (Some r) (Some (Then_exec (Some p) on_first_value r)) ∈ tws'
     \/ (exists v g, settled_as s' p v (Some g))
     \/ (exists r v, mkTask (Some r) (Some (Send vC v (finish r v))) ∈ tws')) ->
  (forall r v, mkTask (Some r) (Some (Send vC v (finish r v))) ∈ tws ->
     mkTask (Some r) (Some (Send vC v (finish r v))) ∈ tws'
     \/ (exists ch, chans s' !! vC = Some ch /\ buffer ch <> [])) ->
  (forall ch, chans s !! vC = Some ch -> buffer ch <> [] ->
     exists ch', chans s' !! vC = Some ch' /\ buffer ch' <> []) ->
  then_live tws s p -> then_live tws' s' p.
Proof.
  intros Hstep Ha Hs Hc [(r & Hin)|[(v & g & Hset)|[(r & v & Hin)|(c & Hch & Hb)]]].
  - destruct (Ha _ Hin) as [?|[?|?]].
    + left. eauto.
    + right; left. done.
    + right; right; left. done.
  - right; left. exists v, g. by eapply settled_as_step.
  - destruct (Hs _ _ Hin) as [?|?].
    + right; right; left. eauto.
    + right; right; right. done.
  - right; right; right. eauto.
Qed.

Lemma catch_live_step ch s s' cws cws' p :
  step ch s = Some s' ->
  (forall r, mkTask (Some r) (Some (Catch_exec (Some p) on_first_error r)) ∈ cws ->
     mkTask (Some r) (Some (Catch_exec (Some p) on_first_error r)) ∈ cws'
     \/ (exists v, settled_as s' p v None)
     \/ (exists r g,
           mkTask (Some r) (Some (Send eC (AError g) (finish r (AError g)))) ∈ cws')) ->
  (forall r g,
     mkTask (Some r) (Some (Send eC (AError g) (finish r (AError g)))) ∈ cws ->
     mkTask (Some r) (Some (Send eC (AError g) (finish r (AError g)))) ∈ cws'
     \/ (exists ch, chans s' !! eC = Some ch /\ buffer ch <> [])) ->
  (forall ch, chans s !! eC = Some ch -> buffer ch <> [] ->
     exists ch', chans s' !! eC = Some ch' /\ buffer ch' <> []) ->
  catch_live cws s p -> catch_live cws' s' p.
Proof.
  intros Hstep Ha Hs Hc [(r & Hin)|[(v & Hset)|[(r & g & Hin)|(c & Hch & Hb)]]].
  - destruct (Ha _ Hin) as [?|[?|?]].
    + left. eauto.
    + right; left. done.
    + right; right; left. done.
  - right; left. exists v. by eapply settled_as_step.
  - destruct (Hs _ _ Hin) as [?|?].
    + right; right; left. eauto.
    + right; right; right. done.
  - right; right; right. eauto.
Qed.

Lemma then_live_keep ch s s' tws tws' p :
  step ch s = Some s' -> tws ⊆ tws' -> chans s' !! vC = chans s !! vC ->
  then_live tws s p -> then_live tws' s' p.
Proof.
  intros Hstep Hsub Hch. apply (then_live_step ch); [done|..].
  - intros r Hin. left. by apply Hsub.
  - intros r v Hin. left. by apply Hsub.
  - intros c Hc Hb. exists c. by rewrite Hch.
Qed.

Lemma catch_live_keep ch s s' cws cws' p :
  step ch s = Some s' -> cws ⊆ cws' -> chans s' !! eC = chans s !! eC ->
  catch_live cws s p -> catch_live cws' s' p.
Proof.
  intros Hstep Hsub Hch. apply (catch_live_step ch); [done|..].
  - intros r Hin. left. by apply Hsub.
  - intros r g Hin. left. by apply Hsub.
  - intros c Hc Hb. exists c. by rewrite Hch.
Qed.

(** *** The steps of the executor of [Race] *)

Ltac rac_intro :=
  intros [Ht Htw Hcw Hr Hh HpR Hc Hl Hd] Hcr Htid; simpl in *.

Ltac rac_step pick s1 c' started :=
  match goal with
  | Hcr : crashed ?s = None, Htid : tasks ?s !! ?tid = Some (mkTask ?own (Some ?c))
    |- _ =>
      let Hstep := fresh "Hstep" in
      assert (step (tid, pick) s
        = Some (set_tasks (<[tid := mkTask own c']> (tasks s) ++ started) s1)) as Hstep;
      [ apply (step_fold _ _ _ _ c); [exact Hcr|exact Htid|]
      | eexists; split; [exact Hstep|]; split; [exact Hcr|] ]
  end.

(** The parts of [Rac] that every step keeps. *)
Ltac rac_frame :=
  match goal with
  | Hstep : step _ ?s = Some ?s' |- _ =>
      first
        [ match goal with H : Forall consistent (promises s) |- _ =>
            exact (step_consistent _ _ _ Hstep H) end
        | match goal with H : Forall (then_worker s) ?l |- Forall _ ?l =>
            exact (Forall_impl _ _ _ H (fun t => then_worker_step _ _ _ t Hstep)) end
        | match goal with H : Forall (catch_worker s) ?l |- Forall _ ?l =>
            exact (Forall_impl _ _ _ H (fun t => catch_worker_step _ _ _ t Hstep)) end
        | match goal with H : Forall (bystander pR _ _) ?l |- Forall _ ?l => exact H end
        | (simpl; done)
        | simpl ]
  end.

Lemma pR_allocated a tws cws rest s : Rac a tws cws rest s -> pR < length (promises s).
Proof. intros H. eapply lookup_lt_Some, Rc_pR, H. Qed.

Lemma R_loop_then_moves j tws cws rest s tid pick :
  Rac (R_loop j false) tws cws rest s -> crashed s = None ->
  tasks s !! tid = Some (mkTask (Some pR) (rcode (R_loop j false))) ->
  j < length ps ->
  exists s', step (tid, pick) s = Some s' /\ crashed s' = None
    /\ Rac (R_loop j true)
         (mkTask (Some (length (promises s)))
            (Some (Then_exec (Some (ps !!! j)) on_first_value (length (promises s))))
          :: tws) cws rest s'.
Proof.
  rac_intro. intros Hj. destruct Hl as (_ & Hlt & Hlc).
  destruct (lookup_lt_is_Some_2 ps j Hj) as [p Hp].
  pose proof (lookup_lt_Some _ _ _ HpR) as HltR.
  rewrite (list_lookup_total_correct _ _ _ Hp).
  rewrite (drop_S _ _ _ Hp) in Htid, Ht. simpl in Htid, Ht.
  rac_step pick (alloc_promise pending_promise s)
    (rcode (R_loop j true))
    [mkTask (Some (length (promises s)))
       (Some (Then_exec (Some p) on_first_value (length (promises s))))].
  { simpl. by rewrite Hp. }
  constructor; rac_frame.
  - eapply tasks_after_step; [done..|]. solve_Permutation.
  - constructor.
    + constructor; [lia|]. by eapply list_elem_of_lookup_2.
    + exact (Forall_impl _ _ _ Htw (fun t => then_worker_step _ _ _ t Hstep)).
  - by apply lookup_app_l_Some.
  - destruct Hc as (bv & be & ? & ? & Hbv & Hbe). exists bv, be. split_and!; try done.
    + exact (Forall_impl _ _ _ Hbv (fun v => first_value_step _ _ _ v Hstep)).
    + exact (Forall_impl _ _ _ Hbe (fun v => first_error_step _ _ _ v Hstep)).
  - split_and!; [done|..].
    + intros i q Hq Hi. destruct (decide (i = j)) as [->|Hne].
      * left. exists (length (promises s)). rewrite Hp in Hq. injection Hq as <-.
        apply elem_of_cons. by left.
      * apply (then_live_keep _ _ _ tws _ q Hstep);
          [intros t Hin; apply elem_of_cons; by right|done|].
        apply (Hlt i); [done|lia].
    + intros i q Hq Hi.
      apply (catch_live_keep _ _ _ cws _ q Hstep); [done..|]. by apply (Hlc i).
Qed.

Lemma R_loop_catch_moves j tws cws rest s tid pick :
  Rac (R_loop j true) tws cws rest s -> crashed s = None ->
  tasks s !! tid = Some (mkTask (Some pR) (rcode (R_loop j true))) ->
  exists s', step (tid, pick) s = Some s' /\ crashed s' = None
    /\ Rac (R_loop (S j) false) tws
         (mkTask (Some (length (promises s)))
            (Some (Catch_exec (Some (ps !!! j)) on_first_error (length (promises s))))
          :: cws) rest s'.
Proof.
  rac_intro. destruct Hl as (Hj & Hlt & Hlc).
  destruct (lookup_lt_is_Some_2 ps j Hj) as [p Hp].
  pose proof (lookup_lt_Some _ _ _ HpR) as HltR.
  rewrite (list_lookup_total_correct _ _ _ Hp).
  rewrite Hp in Htid, Ht. simpl in Htid, Ht.
  rac_step pick (alloc_promise pending_promise s)
    (rcode (R_loop (S j) false))
    [mkTask (Some (length (promises s)))
       (Some (Catch_exec (Some p) on_first_error (length (promises s))))].
  { done. }
  constructor; rac_frame.
  - eapply tasks_after_step; [done..|]. solve_Permutation.
  - constructor.
    + constructor; [lia|]. by eapply list_elem_of_lookup_2.
    + exact (Forall_impl _ _ _ Hcw (fun t => catch_worker_step _ _ _ t Hstep)).
  - by apply lookup_app_l_Some.
  - destruct Hc as (bv & be & ? & ? & Hbv & Hbe). exists bv, be. split_and!; try done.
    + exact (Forall_impl _ _ _ Hbv (fun v => first_value_step _ _ _ v Hstep)).
    + exact (Forall_impl _ _ _ Hbe (fun v => first_error_step _ _ _ v Hstep)).
  - split_and!; [lia|..].
    + intros i q Hq Hi.
      apply (then_live_keep _ _ _ tws _ q Hstep); [done..|]. by apply (Hlt i).
    + intros i q Hq Hi. destruct (decide (i = j)) as [->|Hne].
      * left. exists (length (promises s)). rewrite Hp in Hq. injection Hq as <-.
        apply elem_of_cons. by left.
      * apply (catch_live_keep _ _ _ cws _ q Hstep);
          [intros t Hin; apply elem_of_cons; by right|done|].
        apply (Hlc i); [done|lia].
Qed.


Hypothesis tl_nil : forall x, head tl = Some x -> x = None.
Hypothesis chans_apart : vC <> eC.

Lemma rcode_past_loop :
  rcode (R_loop (length ps) false)
  = Some (match tl with
          | [] => select_code
          | _ :: _ => Panic (PString "must provide valid promise")
          end).
Proof.
  simpl. rewrite drop_all. simpl. destruct tl as [|x tl'] eqn:E; [done|].
  by rewrite (tl_nil x eq_refl).
Qed.

Lemma R_select_moves tws cws rest s tid pick :
  Rac (R_loop (length ps) false) tws cws rest s -> crashed s = None ->
  tasks s !! tid = Some (mkTask (Some pR) (rcode (R_loop (length ps) false))) ->
  tl = [] ->
  (exists ch, chans s !! vC = Some ch /\ buffer ch <> [])
  \/ (exists ch, chans s !! eC = Some ch /\ buffer ch <> []) ->
  exists s' c, step (tid, pick) s = Some s' /\ crashed s' = None
    /\ Rac (R_settle c) tws cws rest s'.
Proof.
  intros HR Hcr Htid Htl Hready. rewrite rcode_past_loop in Htid.
  destruct HR as [Ht Htw Hcw Hr Hh HpR Hc Hl Hd]. rewrite rcode_past_loop in Ht.
  rewrite Htl in Htid, Ht. simpl in *.
  destruct Hc as (bv & be & Hv & He & Hbv & Hbe).
  assert (forall s1 c, step_code pick (Some pR) select_code s = Some (s1, rcode (R_settle c), []) ->
    crashed s1 = None -> promises s1 = promises s ->
    (forall s', promises s' = promises s1 -> decided s' c) ->
    (exists bv' be', chans s1 = <[vC := mkChan 1 bv']> (<[eC := mkChan 1 be']> (chans s))
       /\ bv' ⊆ bv /\ be' ⊆ be) ->
    exists s' c, step (tid, pick) s = Some s' /\ crashed s' = None
      /\ Rac (R_settle c) tws cws rest s') as Hgo.
  { intros s1 c Hcode Hcr1 Hp1 Hdec (bv' & be' & Hch & Hsv & Hse).
    pose proof (step_fold _ _ _ _ _ _ _ _ Hcr Htid Hcode) as Hstep.
    eexists _, c. split; [exact Hstep|]. split; [exact Hcr1|].
    constructor; rac_frame.
    - eapply tasks_after_step; [done..|]. solve_Permutation.
    - by rewrite Hp1.
    - exists bv', be'. simpl. rewrite Hch. split_and!.
      + apply list_lookup_insert_eq. rewrite length_insert. by eapply lookup_lt_Some.
      + rewrite list_lookup_insert_ne by (first [done|by apply not_eq_sym]).
        apply list_lookup_insert_eq. by eapply lookup_lt_Some.
      + apply Forall_forall. intros v Hin. rewrite Forall_forall in Hbv.
        exact (first_value_step _ _ _ _ Hstep (Hbv _ (Hsv _ Hin))).
      + apply Forall_forall. intros v Hin. rewrite Forall_forall in Hbe.
        exact (first_error_step _ _ _ _ Hstep (Hbe _ (Hse _ Hin))).
    - split; [done|]. by apply Hdec. }
  assert (forall v s', first_value s v -> promises s' = promises s ->
    decided s' (call_resolve v)) as Hdv.
  { intros v s' (p & ? & cell & ?) Hp. unfold decided. rewrite Htl.
    exists p. split; [done|]. exists cell. by rewrite Hp. }
  assert (forall g s', first_error s (AError g) -> promises s' = promises s ->
    decided s' (call_reject (Some g))) as Hde.
  { intros g s' (p & v & g' & ? & [= <-] & cell & ?) Hp. unfold decided. rewrite Htl.
    exists g. split; [done|]. exists p, v, g. split_and!; [done..|].
    exists cell. by rewrite Hp. }
  assert (forall (l : list chan) i c, l !! i = Some c -> <[i := c]> l = l) as Hid
    by (intros; by apply list_insert_id).
  unfold select_code in Hgo. simpl in Hgo. rewrite Hv, He in Hgo. simpl in Hgo.
  destruct bv as [|v bv], be as [|x be].
  - destruct Hready as [(ch & Hch & Hb)|(ch & Hch & Hb)].
    + rewrite Hv in Hch. by injection Hch as <-.
    + rewrite He in Hch. by injection Hch as <-.
  - apply Forall_cons in Hbe as [Hx Hbe]. pose proof Hx as (p & w & g & _ & -> & _).
    eapply (Hgo _ (call_reject (Some g))); [simpl; reflexivity|try done..].
    + intros s' Hp. by apply Hde.
    + exists [], be. split_and!; [|done|(intros ? ?; apply elem_of_cons; by right)].
      simpl. rewrite list_insert_insert_ne by (first [done|by apply not_eq_sym]). by rewrite (Hid _ _ _ Hv).
  - apply Forall_cons in Hbv as [Hx Hbv].
    eapply (Hgo _ (call_resolve v)); [simpl; reflexivity|try done..].
    + intros s' Hp. by apply Hdv.
    + exists bv, []. split_and!; [|(intros ? ?; apply elem_of_cons; by right)|done].
      simpl. rewrite (Hid _ _ _ He). done.
  - apply Forall_cons in Hbv as [Hxv Hbv]. apply Forall_cons in Hbe as [Hx Hbe].
    pose proof Hx as (p & w & g & _ & -> & _).
    destruct pick.
    + eapply (Hgo _ (call_resolve v)); [simpl; reflexivity|try done..].
      * intros s' Hp. by apply Hdv.
      * exists bv, (AError g :: be). split_and!; [|(intros ? ?; apply elem_of_cons; by right)|done].
        simpl. rewrite (Hid _ _ _ He). done.
    + eapply (Hgo _ (call_reject (Some g))); [simpl; reflexivity|try done..].
      * intros s' Hp. by apply Hde.
      * exists (v :: bv), be. split_and!; [|done|(intros ? ?; apply elem_of_cons; by right)].
        simpl. rewrite list_insert_insert_ne by (first [done|by apply not_eq_sym]). by rewrite (Hid _ _ _ Hv).
Qed.


(** A nil promise in the input: [Then] panics in the executor of [Race],
    and the deferred function rejects the promise of [Race]. *)
Lemma R_nil_moves tws cws rest s tid pick :
  Rac (R_loop (length ps) false) tws cws rest s -> crashed s = None ->
  tasks s !! tid = Some (mkTask (Some pR) (rcode (R_loop (length ps) false))) ->
  tl <> [] ->
  exists s', step (tid, pick) s = Some s' /\ crashed s' = None
    /\ Rac (R_done (call_reject (Some nil_promise)) true) tws cws rest s'.
Proof.
  intros HR Hcr Htid Htl. rewrite rcode_past_loop in Htid.
  destruct HR as [Ht Htw Hcw Hr Hh HpR Hc Hl Hd]. rewrite rcode_past_loop in Ht.
  destruct tl as [|x tl'] eqn:E; [done|]. simpl in *.
  rac_step pick (set_promise pR (Reject (Some nil_promise)) s) (@None prog) (@nil task).
  { simpl. unfold deferred. by rewrite HpR. }
  constructor; rac_frame.
  - eapply tasks_after_step; [done..|]. solve_Permutation.
  - apply list_lookup_insert_eq. by eapply lookup_lt_Some.
  - destruct Hc as (bv & be & ? & ? & Hbv & Hbe). exists bv, be. split_and!; try done.
    + exact (Forall_impl _ _ _ Hbv (fun v => first_value_step _ _ _ v Hstep)).
    + exact (Forall_impl _ _ _ Hbe (fun v => first_error_step _ _ _ v Hstep)).
  - unfold decided. by rewrite E.
Qed.

Lemma R_settle_moves c tws cws rest s tid pick :
  Rac (R_settle c) tws cws rest s -> crashed s = None ->
  tasks s !! tid = Some (mkTask (Some pR) (rcode (R_settle c))) ->
  exists s', step (tid, pick) s = Some s' /\ crashed s' = None
    /\ Rac (R_done c false) tws cws rest s'.
Proof.
  destruct c as [v|e]; rac_intro; destruct Hd as [Htl Hd].
  all: match goal with |- context [R_done ?c false] =>
    rac_step pick (set_promise pR (settle c pending_promise).1 s)
      (Some (Ret ANil)) (@nil task);
    [simpl; unfold do_settle; by rewrite HpR|] end.
  all: constructor; rac_frame.
  all: try (eapply tasks_after_step; [done..|]; solve_Permutation).
  all: try (apply list_lookup_insert_eq; by eapply lookup_lt_Some).
  all: try exact (decided_step _ _ _ _ Hstep Hd).
  all: destruct Hc as (bv & be & ? & ? & Hbv & Hbe); exists bv, be; split_and!; try done.
  all: first [ exact (Forall_impl _ _ _ Hbv (fun v => first_value_step _ _ _ v Hstep))
             | exact (Forall_impl _ _ _ Hbe (fun v => first_error_step _ _ _ v Hstep)) ].
Qed.

Lemma R_exit_moves c tws cws rest s tid pick :
  Rac (R_done c false) tws cws rest s -> crashed s = None ->
  tasks s !! tid = Some (mkTask (Some pR) (rcode (R_done c false))) ->
  exists s', step (tid, pick) s = Some s' /\ crashed s' = None
    /\ Rac (R_done c true) tws cws rest s'.
Proof.
  rac_intro.
  rac_step pick (set_promise pR (settle c pending_promise).1 s) (@None prog) (@nil task).
  { simpl. unfold deferred. rewrite HpR. by destruct c. }
  constructor; rac_frame.
  - eapply tasks_after_step; [done..|]. solve_Permutation.
  - apply list_lookup_insert_eq. by eapply lookup_lt_Some.
  - destruct Hc as (bv & be & ? & ? & Hbv & Hbe). exists bv, be. split_and!; try done.
    + exact (Forall_impl _ _ _ Hbv (fun v => first_value_step _ _ _ v Hstep)).
    + exact (Forall_impl _ _ _ Hbe (fun v => first_error_step _ _ _ v Hstep)).
  - exact (decided_step _ _ _ _ Hstep Hd).
Qed.


(** *** The steps of the tasks of [Then] and [Catch] *)

Lemma Rac_perm a tws tws' cws cws' rest rest' s :
  tws ≡ₚ tws' -> cws ≡ₚ cws' -> rest ≡ₚ rest' ->
  Rac a tws cws rest s -> Rac a tws' cws' rest' s.
Proof.
  intros Ht Hc Hr [H1 H2 H3 H4 H5 H6 H7 H8 H9].
  assert (forall p, then_live tws s p -> then_live tws' s p) as Htl.
  { intros p [(r & ?)|[?|[(r & v & ?)|?]]].
    - left. exists r. by rewrite <- Ht.
    - right; left. done.
    - right; right; left. exists r, v. by rewrite <- Ht.
    - right; right; right. done. }
  assert (forall p, catch_live cws s p -> catch_live cws' s p) as Hcl.
  { intros p [(r & ?)|[?|[(r & g & ?)|?]]].
    - left. exists r. by rewrite <- Hc.
    - right; left. done.
    - right; right; left. exists r, g. by rewrite <- Hc.
    - right; right; right. done. }
  constructor; try done.
  - by rewrite <- Ht, <- Hc, <- Hr.
  - by rewrite <- Ht.
  - by rewrite <- Hc.
  - by rewrite <- Hr.
  - destruct a; simpl in *; try done. destruct H8 as (? & ? & ?). split_and!; eauto.
Qed.

Lemma chans_of_frame ch s s' :
  step ch s = Some s' ->
  chans s' !! vC = chans s !! vC -> chans s' !! eC = chans s !! eC ->
  chans_of s -> chans_of s'.
Proof.
  intros Hstep Hv He (bv & be & ? & ? & Hbv & Hbe). exists bv, be.
  rewrite Hv, He. split_and!; try done.
  - exact (Forall_impl _ _ _ Hbv (fun v => first_value_step _ _ _ v Hstep)).
  - exact (Forall_impl _ _ _ Hbe (fun v => first_error_step _ _ _ v Hstep)).
Qed.

Lemma loop_of_frame a tws cws tws' cws' s s' :
  (forall p, then_live tws s p -> then_live tws' s' p) ->
  (forall p, catch_live cws s p -> catch_live cws' s' p) ->
  loop_of a tws cws s -> loop_of a tws' cws' s'.
Proof.
  intros Ht Hc. destruct a; simpl; try done.
  intros (? & ? & ?). split_and!; eauto.
Qed.

Lemma decided_of_step ch a s s' :
  step ch s = Some s' -> decided_of a s -> decided_of a s'.
Proof.
  intros Hstep. destruct a; simpl; try done.
  - intros [? ?]. split; [done|]. by eapply decided_step.
  - by eapply decided_step.
Qed.

Lemma TW_await_moves a r p T0 cws rest s tid pick cell :
  Rac a (mkTask (Some r) (Some (Then_exec (Some p) on_first_value r)) :: T0) cws rest s ->
  crashed s = None ->
  tasks s !! tid = Some (mkTask (Some r) (Some (Then_exec (Some p) on_first_value r))) ->
  r <> pR -> p ∈ ps -> promises s !! p = Some cell -> wg cell = 0 ->
  exists s', step (tid, pick) s = Some s' /\ crashed s' = None
    /\ match reason cell with
       | None =>
           Rac a (mkTask (Some r) (Some (Send vC (value cell) (finish r (value cell))))
                  :: T0) cws rest s'
       | Some g =>
           Rac a T0 cws
             (mkTask (Some r) (Some (Call_reject r (Some g) (Ret ANil))) :: rest) s'
       end.
Proof.
  intros [Ht Htw Hcw Hr Hh HpR Hc Hl Hd] Hcr Htid Hne Hin Hcell Hwg.
  pose proof (settled_cell _ _ _ Hh Hcell Hwg) as Hset.
  apply Forall_cons in Htw as [_ Htw].
  destruct (reason cell) as [g|] eqn:Hre.
  - rac_step pick s (Some (Call_reject r (Some g) (Ret ANil))) (@nil task).
    { simpl. by rewrite Hcell, Hwg, Hre. }
    constructor; rac_frame.
    + eapply tasks_after_step; [done..|]. solve_Permutation.
    + constructor; [|done]. apply bystander_code; [congruence|]. by repeat constructor.
    + eapply loop_of_frame; [| |exact Hl].
      * intros q. apply (then_live_step _ _ _ _ _ _ Hstep).
        -- intros r0 Hr0. apply elem_of_cons in Hr0 as [[= -> ->]|Hr0]; [|by left].
           right; left. exists (value cell), g. exact (settled_as_step _ _ _ _ _ _ Hstep Hset).
        -- intros r0 v Hr0. apply elem_of_cons in Hr0 as [[=]|Hr0]. by left.
        -- intros c ? ?. by exists c.
      * intros q. by apply (catch_live_keep _ _ _ _ _ _ Hstep).
  - rac_step pick s (Some (Send vC (value cell) (finish r (value cell)))) (@nil task).
    { simpl. by rewrite Hcell, Hwg, Hre. }
    constructor; rac_frame.
    + eapply tasks_after_step; [done..|]. solve_Permutation.
    + constructor.
      * constructor; [done|]. exists p. split; [done|].
        exact (settled_as_step _ _ _ _ _ _ Hstep Hset).
      * exact (Forall_impl _ _ _ Htw (fun t => then_worker_step _ _ _ t Hstep)).
    + eapply loop_of_frame; [| |exact Hl].
      * intros q. apply (then_live_step _ _ _ _ _ _ Hstep).
        -- intros r0 Hr0. apply elem_of_cons in Hr0 as [_|Hr0].
           ++ right; right. exists r, (value cell). apply elem_of_cons. by left.
           ++ left. apply elem_of_cons. by right.
        -- intros r0 v Hr0. apply elem_of_cons in Hr0 as [[=]|Hr0].
           left. apply elem_of_cons. by right.
        -- intros c ? ?. by exists c.
      * intros q. by apply (catch_live_keep _ _ _ _ _ _ Hstep).
Qed.


Lemma TW_send_moves a r v T0 cws rest s tid pick :
  Rac a (mkTask (Some r) (Some (Send vC v (finish r v))) :: T0) cws rest s ->
  crashed s = None ->
  tasks s !! tid = Some (mkTask (Some r) (Some (Send vC v (finish r v)))) ->
  r <> pR -> first_value s v ->
  chans s !! vC = Some (mkChan 1 []) ->
  exists s', step (tid, pick) s = Some s' /\ crashed s' = None
    /\ Rac a T0 cws (mkTask (Some r) (Some (finish r v)) :: rest) s'
    /\ chans s' !! vC = Some (mkChan 1 [v]).
Proof.
  intros HR Hcr Htid Hne Hv Hch.
  pose proof (Rc_chans _ _ _ _ _ HR) as (bv & be & Hbv' & Hbe' & _ & Hbe).
  destruct HR as [Ht Htw Hcw Hr Hh HpR Hc Hl Hd].
  apply Forall_cons in Htw as [_ Htw].
  rac_step pick (set_chan vC (mkChan 1 [v]) s) (Some (finish r v)) (@nil task).
  { simpl. by rewrite Hch. }
  assert (chans (set_chan vC (mkChan 1 [v]) s) !! vC = Some (mkChan 1 [v])) as Hv'.
  { simpl. apply list_lookup_insert_eq. by eapply lookup_lt_Some. }
  split; [|exact Hv'].
  constructor; rac_frame.
  - eapply tasks_after_step; [done..|]. solve_Permutation.
  - constructor; [|done]. apply bystander_code; [congruence|].
    by apply (quiet_finish pR _ _ r v).
  - exists [v], be. split_and!.
    + exact Hv'.
    + simpl. by rewrite list_lookup_insert_ne by (first [done|by apply not_eq_sym]).
    + constructor; [|done]. exact (first_value_step _ _ _ _ Hstep Hv).
    + exact (Forall_impl _ _ _ Hbe (fun x => first_error_step _ _ _ x Hstep)).
  - eapply loop_of_frame; [| |exact Hl].
    + intros q _. right; right; right. by eexists.
    + intros q. apply (catch_live_step _ _ _ _ _ _ Hstep); [by left|by left|].
      intros c Hc' ?. exists c. simpl. by rewrite list_lookup_insert_ne by (first [done|by apply not_eq_sym]).
Qed.

Lemma CW_await_moves a r p tws C0 rest s tid pick cell :
  Rac a tws (mkTask (Some r) (Some (Catch_exec (Some p) on_first_error r)) :: C0) rest s ->
  crashed s = None ->
  tasks s !! tid = Some (mkTask (Some r) (Some (Catch_exec (Some p) on_first_error r))) ->
  r <> pR -> p ∈ ps -> promises s !! p = Some cell -> wg cell = 0 ->
  exists s', step (tid, pick) s = Some s' /\ crashed s' = None
    /\ match reason cell with
       | Some g =>
           Rac a tws
             (mkTask (Some r) (Some (Send eC (AError g) (finish r (AError g)))) :: C0)
             rest s'
       | None => Rac a tws C0 (mkTask (Some r) (Some (Ret ANil)) :: rest) s'
       end.
Proof.
  intros [Ht Htw Hcw Hr Hh HpR Hc Hl Hd] Hcr Htid Hne Hin Hcell Hwg.
  pose proof (settled_cell _ _ _ Hh Hcell Hwg) as Hset.
  apply Forall_cons in Hcw as [_ Hcw].
  destruct (reason cell) as [g|] eqn:Hre.
  - rac_step pick s (Some (Send eC (AError g) (finish r (AError g)))) (@nil task).
    { simpl. by rewrite Hcell, Hwg, Hre. }
    constructor; rac_frame.
    + eapply tasks_after_step; [done..|]. solve_Permutation.
    + constructor.
      * constructor; [done|]. exists p, (value cell), g. split_and!; [done..|].
        exact (settled_as_step _ _ _ _ _ _ Hstep Hset).
      * exact (Forall_impl _ _ _ Hcw (fun t => catch_worker_step _ _ _ t Hstep)).
    + eapply loop_of_frame; [| |exact Hl].
      * intros q. by apply (then_live_keep _ _ _ _ _ _ Hstep).
      * intros q. apply (catch_live_step _ _ _ _ _ _ Hstep).
        -- intros r0 Hr0. apply elem_of_cons in Hr0 as [_|Hr0].
           ++ right; right. exists r, g. apply elem_of_cons. by left.
           ++ left. apply elem_of_cons. by right.
        -- intros r0 g0 Hr0. apply elem_of_cons in Hr0 as [[=]|Hr0].
           left. apply elem_of_cons. by right.
        -- intros c ? ?. by exists c.
  - rac_step pick s (Some (Ret ANil)) (@nil task).
    { simpl. by rewrite Hcell, Hwg, Hre. }
    constructor; rac_frame.
    + eapply tasks_after_step; [done..|]. solve_Permutation.
    + constructor; [|done]. apply bystander_code; [congruence|]. constructor.
    + eapply loop_of_frame; [| |exact Hl].
      * intros q. by apply (then_live_keep _ _ _ _ _ _ Hstep).
      * intros q. apply (catch_live_step _ _ _ _ _ _ Hstep).
        -- intros r0 Hr0. apply elem_of_cons in Hr0 as [[= -> ->]|Hr0]; [|by left].
           right; left. exists (value cell). exact (settled_as_step _ _ _ _ _ _ Hstep Hset).
        -- intros r0 g0 Hr0. apply elem_of_cons in Hr0 as [[=]|Hr0]. by left.
        -- intros c ? ?. by exists c.
Qed.

Lemma CW_send_moves a r g tws C0 rest s tid pick :
  Rac a tws
    (mkTask (Some r) (Some (Send eC (AError g) (finish r (AError g)))) :: C0) rest s ->
  crashed s = None ->
  tasks s !! tid
    = Some (mkTask (Some r) (Some (Send eC (AError g) (finish r (AError g))))) ->
  r <> pR -> first_error s (AError g) ->
  chans s !! eC = Some (mkChan 1 []) ->
  exists s', step (tid, pick) s = Some s' /\ crashed s' = None
    /\ Rac a tws C0 (mkTask (Some r) (Some (finish r (AError g))) :: rest) s'
    /\ chans s' !! eC = Some (mkChan 1 [AError g]).
Proof.
  intros HR Hcr Htid Hne Hv Hch.
  pose proof (Rc_chans _ _ _ _ _ HR) as (bv & be & Hbv' & Hbe' & Hbv & _).
  destruct HR as [Ht Htw Hcw Hr Hh HpR Hc Hl Hd].
  apply Forall_cons in Hcw as [_ Hcw].
  rac_step pick (set_chan eC (mkChan 1 [AError g]) s)
    (Some (finish r (AError g))) (@nil task).
  { simpl. by rewrite Hch. }
  assert (chans (set_chan eC (mkChan 1 [AError g]) s) !! eC
    = Some (mkChan 1 [AError g])) as Hv'.
  { simpl. apply list_lookup_insert_eq. by eapply lookup_lt_Some. }
  split; [|exact Hv'].
  constructor; rac_frame.
  - eapply tasks_after_step; [done..|]. solve_Permutation.
  - constructor; [|done]. apply bystander_code; [congruence|].
    by apply (quiet_finish pR _ _ r (AError g)).
  - exists bv, [AError g]. split_and!.
    + simpl. by rewrite list_lookup_insert_ne by (first [done|by apply not_eq_sym]).
    + exact Hv'.
    + exact (Forall_impl _ _ _ Hbv (fun x => first_value_step _ _ _ x Hstep)).
    + constructor; [|done]. exact (first_error_step _ _ _ _ Hstep Hv).
  - eapply loop_of_frame; [| |exact Hl].
    + intros q. apply (then_live_step _ _ _ _ _ _ Hstep); [by left|by left|].
      intros c Hc' ?. exists c. simpl. by rewrite list_lookup_insert_ne by (first [done|by apply not_eq_sym]).
    + intros q _. right; right; right. by eexists.
Qed.


(** *** The steps of the other tasks *)

Lemma R_bystander_moves a tws cws rest0 s s' tid pick own c :
  Rac a tws cws (mkTask own (Some c) :: rest0) s ->
  step (tid, pick) s = Some s' ->
  tasks s !! tid = Some (mkTask own (Some c)) ->
  exists rest', Rac a tws cws rest' s'.
Proof.
  intros HR Hstep Htid. pose proof (pR_allocated _ _ _ _ _ HR) as HltR.
  destruct HR as [Ht Htw Hcw Hr Hh HpR Hc Hl Hd].
  pose proof (step_unfold _ _ _ _ Hstep)
    as (own0 & c0 & s1 & c' & started & Hcr & Htid0 & Hcode & Es).
  rewrite Htid in Htid0. injection Htid0 as <- <-.
  apply Forall_cons in Hr as [[Hown Hq] Hr]. simpl in *.
  pose proof Hc as (bv & be & Hbv & Hbe & _).
  destruct (quiet_step_code pR (own_chans vC eC) nothing pick own c s s1 c' started
    (Hq _ eq_refl) Hown HltR Hcode) as ((Hch & _) & HpR' & Hby & Hst').
  { intros x [->| ->] _; by eapply lookup_lt_Some. }
  { by intros x []. }
  assert (chans s' !! vC = chans s !! vC) as HvC
    by (subst s'; simpl; apply Hch; by left).
  assert (chans s' !! eC = chans s !! eC) as HeC
    by (subst s'; simpl; apply Hch; by right).
  exists (mkTask own c' :: rest0 ++ started).
  constructor.
  - subst s'. simpl. eapply tasks_after_step; [done..|]. solve_Permutation.
  - exact (Forall_impl _ _ _ Htw (fun t => then_worker_step _ _ _ t Hstep)).
  - exact (Forall_impl _ _ _ Hcw (fun t => catch_worker_step _ _ _ t Hstep)).
  - constructor; [done|]. by apply Forall_app.
  - exact (step_consistent _ _ _ Hstep Hh).
  - subst s'. simpl. by rewrite HpR'.
  - by eapply chans_of_frame.
  - eapply loop_of_frame; [| |exact Hl].
    + intros q. by apply (then_live_keep _ _ _ _ _ _ Hstep).
    + intros q. by apply (catch_live_keep _ _ _ _ _ _ Hstep).
  - exact (decided_of_step _ _ _ _ Hstep Hd).
Qed.

(** *** Every step keeps the relation *)

Ltac same_state :=
  match goal with
  | Hstep : step ?ch ?s = Some ?s', E : step ?ch ?s = Some ?s'' |- _ =>
      rewrite Hstep in E; injection E as <-
  end.

Lemma Rac_step a tws cws rest s ch s' :
  Rac a tws cws rest s -> step ch s = Some s' ->
  exists a' tws' cws' rest', Rac a' tws' cws' rest' s'.
Proof.
  destruct ch as [tid pick]. intros HR Hstep.
  pose proof (step_unfold _ _ _ _ Hstep)
    as (own & c & s1 & c' & started & Hcr & Htid & Hcode & _).
  pose proof (list_elem_of_lookup_2 _ _ _ Htid) as Hin.
  rewrite (Rc_tasks _ _ _ _ _ HR) in Hin.
  apply elem_of_cons in Hin as [Hin|Hin].
  - injection Hin as -> Hc. rewrite Hc in Htid.
    destruct a as [j [|]|sc|sc [|]]; try done.
    + destruct (R_loop_catch_moves _ _ _ _ _ tid pick HR Hcr Htid) as (s'' & E & _ & HR').
      same_state. eauto.
    + pose proof (Rc_loop _ _ _ _ _ HR) as (Hj & _). simpl in Hj.
      destruct (decide (j < length ps)) as [Hlt|Hge].
      * destruct (R_loop_then_moves _ _ _ _ _ tid pick HR Hcr Htid Hlt)
          as (s'' & E & _ & HR').
        same_state. eauto.
      * assert (j = length ps) as -> by lia.
        destruct (decide (tl = [])) as [Htl|Htl].
        -- destruct (R_select_moves _ _ _ _ tid pick HR Hcr Htid Htl)
             as (s'' & sc & E & _ & HR').
           { rewrite rcode_past_loop, Htl in Hc. injection Hc as ->.
             pose proof (Rc_chans _ _ _ _ _ HR) as (bv & be & Hv & He & _).
             simpl in Hcode. rewrite Hv, He in Hcode. simpl in Hcode.
             destruct bv as [|v bv]; [|left; by eexists].
             destruct be as [|x be]; [done|right; by eexists]. }
           same_state. eauto.
        -- destruct (R_nil_moves _ _ _ _ tid pick HR Hcr Htid Htl) as (s'' & E & _ & HR').
           same_state. eauto.
    + destruct (R_settle_moves _ _ _ _ _ tid pick HR Hcr Htid) as (s'' & E & _ & HR').
      same_state. eauto.
    + destruct (R_exit_moves _ _ _ _ _ tid pick HR Hcr Htid) as (s'' & E & _ & HR').
      same_state. eauto.
  - apply elem_of_app in Hin as [Hin|Hin].
    { pose proof (Rc_thens _ _ _ _ _ HR) as Hw. rewrite Forall_forall in Hw.
      pose proof (Hw _ Hin) as Hwt.
      apply elem_of_Permutation in Hin as [T0 HT0].
      pose proof (Rac_perm _ _ _ _ _ _ _ _ HT0 (reflexivity _) (reflexivity _) HR) as HR0.
      inversion Hwt as [r p Hne Hp [E1 E2]|r v Hne Hv [E1 E2]]; subst own c.
      - simpl in Hcode. destruct (promises s !! p) as [cell|] eqn:Hcell; [|done].
        destruct (wg cell) eqn:Hwg; [|done].
        destruct (TW_await_moves _ _ _ _ _ _ _ tid pick cell HR0 Hcr Htid Hne Hp Hcell Hwg)
          as (s'' & E & _ & HR').
        same_state. destruct (reason cell); eauto.
      - pose proof (Rc_chans _ _ _ _ _ HR0) as (bv & be & Hbv & _).
        simpl in Hcode. rewrite Hbv in Hcode. simpl in Hcode.
        destruct (decide (length bv < 1)) as [Hlen|]; [|done].
        destruct bv; [|simpl in Hlen; lia].
        destruct (TW_send_moves _ _ _ _ _ _ _ tid pick HR0 Hcr Htid Hne Hv Hbv)
          as (s'' & E & _ & HR' & _).
        same_state. eauto. }
    apply elem_of_app in Hin as [Hin|Hin].
    { pose proof (Rc_catches _ _ _ _ _ HR) as Hw. rewrite Forall_forall in Hw.
      pose proof (Hw _ Hin) as Hwt.
      apply elem_of_Permutation in Hin as [C0 HC0].
      pose proof (Rac_perm _ _ _ _ _ _ _ _ (reflexivity _) HC0 (reflexivity _) HR) as HR0.
      inversion Hwt as [r p Hne Hp [E1 E2]|r g Hne Hv [E1 E2]]; subst own c.
      - simpl in Hcode. destruct (promises s !! p) as [cell|] eqn:Hcell; [|done].
        destruct (wg cell) eqn:Hwg; [|done].
        destruct (CW_await_moves _ _ _ _ _ _ _ tid pick cell HR0 Hcr Htid Hne Hp Hcell Hwg)
          as (s'' & E & _ & HR').
        same_state. destruct (reason cell); eauto.
      - pose proof (Rc_chans _ _ _ _ _ HR0) as (bv & be & _ & Hbe & _).
        simpl in Hcode. rewrite Hbe in Hcode. simpl in Hcode.
        destruct (decide (length be < 1)) as [Hlen|]; [|done].
        destruct be; [|simpl in Hlen; lia].
        destruct (CW_send_moves _ _ _ _ _ _ _ tid pick HR0 Hcr Htid Hne Hv Hbe)
          as (s'' & E & _ & HR' & _).
        same_state. eauto. }
    apply elem_of_Permutation in Hin as [rest0 Hrest].
    pose proof (Rac_perm _ _ _ _ _ _ _ _ (reflexivity _) (reflexivity _) Hrest HR) as HR0.
    destruct (R_bystander_moves _ _ _ _ _ _ _ _ _ _ HR0 Hstep Htid) as [rest' HR'].
    eauto.
Qed.

(** *** What the promise of [Race] is settled with *)

Definition Race_outcome (s : state) (cell : Promise) : Prop :=
  match tl with
  | [] =>
      match status cell with
      | PENDING => True
      | FULFILLED => reason cell = None /\ first_value s (value cell)
      | REJECTED =>
          value cell = ANil
          /\ exists g, reason cell = Some g /\ first_error s (AError g)
      end
  | _ :: _ => cell = pending_promise \/ cell = Reject (Some nil_promise)
  end.

Lemma Rac_outcome a tws cws rest s :
  Rac a tws cws rest s ->
  forall cell, promises s !! pR = Some cell -> Race_outcome s cell.
Proof.
  intros [_ _ _ _ _ HpR _ _ Hd] cell Hcell. rewrite HpR in Hcell. injection Hcell as <-.
  unfold Race_outcome.
  assert (forall c, a = R_done c false \/ a = R_done c true -> decided s c ->
    match tl with
    | [] =>
        match status (rcell a) with
        | PENDING => True
        | FULFILLED => reason (rcell a) = None /\ first_value s (value (rcell a))
        | REJECTED =>
            value (rcell a) = ANil
            /\ exists g, reason (rcell a) = Some g /\ first_error s (AError g)
        end
    | _ :: _ => rcell a = pending_promise \/ rcell a = Reject (Some nil_promise)
    end) as Hdone.
  { intros c Ha Hc. unfold decided in Hc.
    destruct tl; [|subst c; destruct Ha as [-> | ->]; by right].
    destruct c as [v|e]; destruct Ha as [-> | ->]; simpl; try done.
    all: destruct Hc as (g & -> & ?); split; [done|]; by exists g. }
  destruct a as [j b|sc|sc [|]]; simpl in *;
    try (destruct tl; [done|by left]).
  - apply (Hdone sc); [by right|done].
  - apply (Hdone sc); [by left|done].
Qed.

(** *** The executor at the start of its loop *)

Lemma Rac_start rest s :
  tasks s ≡ₚ mkTask (Some pR) (rcode (R_loop 0 false)) :: rest ->
  Forall (bystander pR (own_chans vC eC) nothing) rest ->
  Forall consistent (promises s) -> promises s !! pR = Some pending_promise ->
  chans s !! vC = Some (mkChan 1 []) -> chans s !! eC = Some (mkChan 1 []) ->
  Rac (R_loop 0 false) [] [] rest s.
Proof.
  intros Ht Hr Hh HpR Hv He. constructor; simpl; try done.
  - by exists [], [].
  - split_and!; [lia|intros; lia..].
Qed.

(** *** The promise of [Race] gets settled *)

(** The run can be continued to a state in which the promise of [Race]
    is settled. *)
Definition settles (s : state) : Prop :=
  exists s' cell,
    reachable s s' /\ promises s' !! pR = Some cell /\ status cell <> PENDING.

Lemma settles_step ch s s' : step ch s = Some s' -> settles s' -> settles s.
Proof.
  intros Hstep (s'' & cell & Hr & ?). exists s'', cell. split; [|done].
  by eapply reachable_step.
Qed.

Lemma Rac_task_at a tws cws rest s t :
  Rac a tws cws rest s ->
  t ∈ mkTask (Some pR) (rcode a) :: tws ++ cws ++ rest ->
  exists tid, tasks s !! tid = Some t.
Proof.
  intros HR Hin. apply list_elem_of_lookup_1. by rewrite (Rc_tasks _ _ _ _ _ HR).
Qed.

Lemma Rac_exec_at a tws cws rest s :
  Rac a tws cws rest s -> exists tid, tasks s !! tid = Some (mkTask (Some pR) (rcode a)).
Proof. intros HR. eapply Rac_task_at; [done|]. apply elem_of_cons. by left. Qed.

Lemma done_settles c ex tws cws rest s : Rac (R_done c ex) tws cws rest s -> settles s.
Proof.
  intros HR. exists s, (settle c pending_promise).1. split_and!.
  - apply rtc_refl.
  - exact (Rc_pR _ _ _ _ _ HR).
  - by apply settle_pending_status.
Qed.

Lemma settle_settles c tws cws rest s :
  Rac (R_settle c) tws cws rest s -> crashed s = None -> settles s.
Proof.
  intros HR Hcr. destruct (Rac_exec_at _ _ _ _ _ HR) as [tid Htid].
  destruct (R_settle_moves _ _ _ _ _ tid true HR Hcr Htid) as (s' & Hstep & _ & HR').
  eapply settles_step; [done|]. by eapply done_settles.
Qed.

Lemma select_settles tws cws rest s :
  Rac (R_loop (length ps) false) tws cws rest s -> crashed s = None -> tl = [] ->
  (exists ch, chans s !! vC = Some ch /\ buffer ch <> [])
  \/ (exists ch, chans s !! eC = Some ch /\ buffer ch <> []) ->
  settles s.
Proof.
  intros HR Hcr Htl Hready. destruct (Rac_exec_at _ _ _ _ _ HR) as [tid Htid].
  destruct (R_select_moves _ _ _ _ tid true HR Hcr Htid Htl Hready)
    as (s' & c & Hstep & Hcr' & HR').
  eapply settles_step; [done|]. by eapply settle_settles.
Qed.

Lemma then_send_settles tws cws rest s r v :
  Rac (R_loop (length ps) false) tws cws rest s -> crashed s = None -> tl = [] ->
  mkTask (Some r) (Some (Send vC v (finish r v))) ∈ tws ->
  settles s.
Proof.
  intros HR Hcr Htl Hin.
  pose proof (Rc_thens _ _ _ _ _ HR) as Hw. rewrite Forall_forall in Hw.
  pose proof (Hw _ Hin) as Hwt.
  destruct (Rac_task_at _ _ _ _ _
    (mkTask (Some r) (Some (Send vC v (finish r v)))) HR)
    as [tid Htid].
  { apply elem_of_cons. right. apply elem_of_app. by left. }
  apply elem_of_Permutation in Hin as [T0 HT0].
  pose proof (Rac_perm _ _ _ _ _ _ _ _ HT0 (reflexivity _) (reflexivity _) HR) as HR0.
  pose proof (Rc_chans _ _ _ _ _ HR0) as (bv & be & Hbv & _).
  destruct bv as [|w bv].
  - destruct (then_send_inv _ _ _ Hwt) as [Hne Hv].
    destruct (TW_send_moves _ _ _ _ _ _ _ tid true HR0 Hcr Htid Hne Hv Hbv)
      as (s' & Hstep & Hcr' & HR' & Hch).
    eapply settles_step; [done|].
    eapply select_settles; [done..|]. left. by eexists.
  - eapply select_settles; [done..|]. left. by eexists.
Qed.

Lemma catch_send_settles tws cws rest s r g :
  Rac (R_loop (length ps) false) tws cws rest s -> crashed s = None -> tl = [] ->
  mkTask (Some r) (Some (Send eC (AError g) (finish r (AError g)))) ∈ cws ->
  settles s.
Proof.
  intros HR Hcr Htl Hin.
  pose proof (Rc_catches _ _ _ _ _ HR) as Hw. rewrite Forall_forall in Hw.
  pose proof (Hw _ Hin) as Hwt.
  destruct (Rac_task_at _ _ _ _ _
    (mkTask (Some r) (Some (Send eC (AError g) (finish r (AError g))))) HR)
    as [tid Htid].
  { apply elem_of_cons. right. apply elem_of_app. right. apply elem_of_app. by left. }
  apply elem_of_Permutation in Hin as [C0 HC0].
  pose proof (Rac_perm _ _ _ _ _ _ _ _ (reflexivity _) HC0 (reflexivity _) HR) as HR0.
  pose proof (Rc_chans _ _ _ _ _ HR0) as (bv & be & _ & Hbe & _).
  destruct be as [|w be].
  - destruct (catch_send_inv _ _ _ Hwt) as [Hne Hv].
    destruct (CW_send_moves _ _ _ _ _ _ _ tid true HR0 Hcr Htid Hne Hv Hbe)
      as (s' & Hstep & Hcr' & HR' & Hch).
    eapply settles_step; [done|].
    eapply select_settles; [done..|]. right. by eexists.
  - eapply select_settles; [done..|]. right. by eexists.
Qed.

Lemma then_await_settles tws cws rest s r p cell :
  Rac (R_loop (length ps) false) tws cws rest s -> crashed s = None -> tl = [] ->
  mkTask (Some r) (Some (Then_exec (Some p) on_first_value r)) ∈ tws ->
  promises s !! p = Some cell -> wg cell = 0 -> reason cell = None ->
  settles s.
Proof.
  intros HR Hcr Htl Hin Hcell Hwg Hre.
  pose proof (Rc_thens _ _ _ _ _ HR) as Hw. rewrite Forall_forall in Hw.
  pose proof (Hw _ Hin) as Hwt.
  destruct (Rac_task_at _ _ _ _ _
    (mkTask (Some r) (Some (Then_exec (Some p) on_first_value r))) HR)
    as [tid Htid].
  { apply elem_of_cons. right. apply elem_of_app. by left. }
  apply elem_of_Permutation in Hin as [T0 HT0].
  pose proof (Rac_perm _ _ _ _ _ _ _ _ HT0 (reflexivity _) (reflexivity _) HR) as HR0.
  destruct (then_await_inv _ _ _ Hwt) as [Hne Hp].
  destruct (TW_await_moves _ _ _ _ _ _ _ tid true cell HR0 Hcr Htid Hne Hp Hcell Hwg)
    as (s' & Hstep & Hcr' & HR').
  rewrite Hre in HR'. eapply settles_step; [done|].
  eapply then_send_settles; [done..|]. apply elem_of_cons. by left.
Qed.

Lemma catch_await_settles tws cws rest s r p cell g :
  Rac (R_loop (length ps) false) tws cws rest s -> crashed s = None -> tl = [] ->
  mkTask (Some r) (Some (Catch_exec (Some p) on_first_error r)) ∈ cws ->
  promises s !! p = Some cell -> wg cell = 0 -> reason cell = Some g ->
  settles s.
Proof.
  intros HR Hcr Htl Hin Hcell Hwg Hre.
  pose proof (Rc_catches _ _ _ _ _ HR) as Hw. rewrite Forall_forall in Hw.
  pose proof (Hw _ Hin) as Hwt.
  destruct (Rac_task_at _ _ _ _ _
    (mkTask (Some r) (Some (Catch_exec (Some p) on_first_error r))) HR)
    as [tid Htid].
  { apply elem_of_cons. right. apply elem_of_app. right. apply elem_of_app. by left. }
  apply elem_of_Permutation in Hin as [C0 HC0].
  pose proof (Rac_perm _ _ _ _ _ _ _ _ (reflexivity _) HC0 (reflexivity _) HR) as HR0.
  destruct (catch_await_inv _ _ _ Hwt) as [Hne Hp].
  destruct (CW_await_moves _ _ _ _ _ _ _ tid true cell HR0 Hcr Htid Hne Hp Hcell Hwg)
    as (s' & Hstep & Hcr' & HR').
  rewrite Hre in HR'. eapply settles_step; [done|].
  eapply catch_send_settles; [done..|]. apply elem_of_cons. by left.
Qed.


(** One of the promises is settled. *)
Definition one_settled (s : state) : Prop :=
  exists p cell, p ∈ ps /\ promises s !! p = Some cell /\ wg cell = 0.

Lemma one_settled_step ch s s' :
  Forall consistent (promises s) -> step ch s = Some s' ->
  one_settled s -> one_settled s'.
Proof.
  intros Hh Hstep (p & cell & Hp & Hcell & Hwg). exists p, cell. split_and!; [done| |done].
  eapply step_settled; [done..|].
  rewrite Forall_lookup in Hh. by apply (consistent_wg _ (Hh _ _ Hcell)).
Qed.

Lemma past_loop_settles tws cws rest s :
  Rac (R_loop (length ps) false) tws cws rest s -> crashed s = None ->
  (tl = [] -> one_settled s) ->
  settles s.
Proof.
  intros HR Hcr Hone. destruct (decide (tl = [])) as [Htl|Htl].
  - destruct (Hone Htl) as (p & cell & Hp & Hcell & Hwg).
    apply list_elem_of_lookup_1 in Hp as [i Hi].
    pose proof (lookup_lt_Some _ _ _ Hi) as Hlt.
    pose proof (Rc_loop _ _ _ _ _ HR) as (_ & Hthen & Hcatch). simpl in Hthen, Hcatch.
    assert (forall v e, settled_as s p v e -> e = reason cell) as Hsame.
    { intros v e (cell' & Hc' & _ & _ & _ & <-). rewrite Hcell in Hc'. by injection Hc' as <-. }
    destruct (reason cell) as [g|] eqn:Hre.
    + destruct (Hcatch i p Hi Hlt) as [(r & Hin)|[(v & Hset)|[(r & g' & Hin)|Hch]]].
      * by eapply catch_await_settles.
      * by apply Hsame in Hset.
      * by eapply catch_send_settles.
      * eapply select_settles; [done..|]. by right.
    + destruct (Hthen i p Hi Hlt) as [(r & Hin)|[(v & g & Hset)|[(r & v & Hin)|Hch]]].
      * by eapply then_await_settles.
      * by apply Hsame in Hset.
      * by eapply then_send_settles.
      * eapply select_settles; [done..|]. by left.
  - destruct (Rac_exec_at _ _ _ _ _ HR) as [tid Htid].
    destruct (R_nil_moves _ _ _ _ tid true HR Hcr Htid Htl) as (s' & Hstep & _ & HR').
    eapply settles_step; [done|]. by eapply done_settles.
Qed.

(** The executor can be run to the end of its loop. *)
Lemma loop_settles n j b tws cws rest s :
  Rac (R_loop j b) tws cws rest s -> crashed s = None ->
  (tl = [] -> one_settled s) ->
  2 * (length ps - j) = n + (if b then 1 else 0) ->
  settles s.
Proof.
  revert j b tws cws s. induction n as [n IH] using lt_wf_ind.
  intros j b tws cws s HR Hcr Hone Hn.
  pose proof (Rc_loop _ _ _ _ _ HR) as (Hj & _). simpl in Hj.
  pose proof (Rc_heap _ _ _ _ _ HR) as Hh.
  destruct (Rac_exec_at _ _ _ _ _ HR) as [tid Htid].
  destruct b.
  - destruct (R_loop_catch_moves _ _ _ _ _ tid true HR Hcr Htid)
      as (s' & Hstep & Hcr' & HR').
    eapply settles_step; [done|].
    apply (IH (n - 1)) with (j := S j) (b := false) (tws := tws)
      (cws := mkTask (Some (length (promises s)))
                (Some (Catch_exec (Some (ps !!! j)) on_first_error (length (promises s))))
              :: cws); try done; [lia| |lia].
    intros Htl. eapply one_settled_step; eauto.
  - destruct (decide (j < length ps)) as [Hlt|Hge].
    + destruct (R_loop_then_moves _ _ _ _ _ tid true HR Hcr Htid Hlt)
        as (s' & Hstep & Hcr' & HR').
      eapply settles_step; [done|].
      apply (IH (n - 1)) with (j := j) (b := true)
        (tws := mkTask (Some (length (promises s)))
                  (Some (Then_exec (Some (ps !!! j)) on_first_value (length (promises s))))
                :: tws) (cws := cws); try done; [lia| |lia].
      intros Htl. eapply one_settled_step; eauto.
    + assert (j = length ps) as -> by lia. by eapply past_loop_settles.
Qed.

Lemma Rac_settles a tws cws rest s :
  Rac a tws cws rest s -> crashed s = None ->
  (tl = [] -> one_settled s) ->
  settles s.
Proof.
  intros HR Hcr Hone. pose proof (Rc_heap _ _ _ _ _ HR) as Hh.
  destruct a as [j b|c|c ex].
  - pose proof (Rc_loop _ _ _ _ _ HR) as (Hj & _). simpl in Hj.
    eapply (loop_settles (2 * (length ps - j) - (if b then 1 else 0)) j b); [done..|].
    destruct b; lia.
  - by eapply settle_settles.
  - by eapply done_settles.
Qed.

End Race_protocol.

(** ** [Race]: the executor makes its channels *)

Section Race_setup.
(** The promises given to [Race] and the promise of [Race].  The
    channels are the next ones of the machine when the executor makes
    them, after those that the other tasks have made meanwhile. *)
Context (ps : list nat) (tl : list (option nat)) (pR : nat).
Hypothesis tl_nil : forall x, head tl = Some x -> x = None.

(** Where the executor stands before its loop: at its start, after it
    has made [valueChan]. *)
Inductive qphase : Type :=
| Q_start
| Q_chan (d : nat).

Definition qcode (a : qphase) : prog :=
  match a with
  | Q_start => Race_exec ((Some <$> ps) ++ tl) pR
  | Q_chan d =>
      MakeChan 1 (fun e =>
        Race_range d e ((Some <$> ps) ++ tl)
          (Select d e
             (fun val => Call_resolve pR val (Ret ANil))
             (fun err => Call_reject pR (error_of_any err) (Ret ANil))))
  end.

(** The channels that the executor has made or may still make. *)
Definition chans_to_come (a : qphase) (s : state) (d e : nat) : Prop :=
  match a with
  | Q_start => length (chans s) <= d /\ length (chans s) <= e
  | Q_chan d0 => d = d0 /\ length (chans s) <= e
  end.

Definition chans_made (a : qphase) (s : state) : Prop :=
  match a with
  | Q_start => True
  | Q_chan d => chans s !! d = Some (mkChan 1 [])
  end.

Record RSetup (a : qphase) (rest : list task) (s : state) : Prop := mkRSetup {
  RS_tasks : tasks s ≡ₚ mkTask (Some pR) (Some (qcode a)) :: rest;
  RS_rest : forall d e, chans_to_come a s d e ->
    Forall (bystander pR (own_chans d e) nothing) rest;
  RS_heap : Forall consistent (promises s);
  RS_pR : promises s !! pR = Some pending_promise;
  RS_made : chans_made a s
}.

(** The executor is before its loop, or it has made its channels and
    stands with its tasks as [Rac] says. *)
Definition Race_inv (s : state) : Prop :=
  (exists a rest, RSetup a rest s)
  \/ (exists vC eC a tws cws rest, vC <> eC /\ Rac ps tl pR vC eC a tws cws rest s).

Definition RSetup_next (a : qphase) (s : state) : Prop :=
  match a with
  | Q_start => exists d rest, RSetup (Q_chan d) rest s
  | Q_chan d => exists e rest, d <> e /\ Rac ps tl pR d e (R_loop 0 false) [] [] rest s
  end.

Lemma RSetup_next_inv a s : RSetup_next a s -> Race_inv s.
Proof.
  destruct a as [|d]; simpl.
  - intros (d & rest & H). left. by exists (Q_chan d), rest.
  - intros (e & rest & Hne & H). right. by exists d, e, (R_loop 0 false), [], [], rest.
Qed.

Lemma chans_to_come_some a s : exists d e, chans_to_come a s d e.
Proof.
  destruct a as [|d].
  - by exists (length (chans s)), (length (chans s)).
  - by exists d, (length (chans s)).
Qed.

Lemma RSetup_exec_moves a rest s tid pick :
  RSetup a rest s -> crashed s = None ->
  tasks s !! tid = Some (mkTask (Some pR) (Some (qcode a))) ->
  exists s', step (tid, pick) s = Some s' /\ crashed s' = None /\ RSetup_next a s'.
Proof.
  intros [Ht Hr Hh HpR Hm] Hcr Htid. destruct a as [|d]; simpl in *.
  - assert (step (tid, pick) s
      = Some (set_tasks
          (<[tid := mkTask (Some pR) (Some (qcode (Q_chan (length (chans s)))))]> (tasks s)
           ++ []) (alloc_chan (mkChan 1 []) s))) as Hstep.
    { by apply (step_fold _ _ _ _ _ _ _ _ Hcr Htid). }
    eexists. split; [exact Hstep|]. split; [done|].
    exists (length (chans s)), rest. constructor; simpl.
    + eapply tasks_after_step; [done..|]. solve_Permutation.
    + unfold chans_to_come. simpl. intros d e (-> & He). apply Hr.
      rewrite length_app in He. simpl in He. split; lia.
    + exact (step_consistent _ _ _ Hstep Hh).
    + done.
    + by apply list_lookup_middle.
  - assert (step (tid, pick) s
      = Some (set_tasks
          (<[tid := mkTask (Some pR)
                      (rcode ps tl pR d (length (chans s)) (R_loop 0 false))]> (tasks s)
           ++ []) (alloc_chan (mkChan 1 []) s))) as Hstep.
    { by apply (step_fold _ _ _ _ _ _ _ _ Hcr Htid). }
    eexists. split; [exact Hstep|]. split; [done|].
    exists (length (chans s)), rest.
    assert (d <> length (chans s)) as Hne by (apply lookup_lt_Some in Hm; lia).
    split; [done|]. apply Rac_start; simpl; try done.
    + eapply tasks_after_step; [done..|]. solve_Permutation.
    + apply Hr. by split.
    + by apply lookup_app_l_Some.
    + by apply list_lookup_middle.
Qed.

Lemma RSetup_other_moves a rest rest' s s' tid pick own c :
  RSetup a rest s ->
  tasks s !! tid = Some (mkTask own (Some c)) ->
  rest ≡ₚ mkTask own (Some c) :: rest' ->
  step (tid, pick) s = Some s' ->
  exists rest'', RSetup a rest'' s'.
Proof.
  intros [Ht Hr Hh HpR Hm] Htid Hrest Hstep.
  pose proof (lookup_lt_Some _ _ _ HpR) as HltR.
  pose proof (step_unfold _ _ _ _ Hstep)
    as (own0 & c0 & s1 & c' & started & Hcr & Htid0 & Hcode & Hs').
  rewrite Htid in Htid0. injection Htid0 as <- <-.
  destruct (step_code_lengths _ _ _ _ _ _ _ Hcode) as [Hlc Hls].
  assert (forall d e, chans_to_come a s' d e -> chans_to_come a s d e) as Hmono.
  { intros d e. subst s'. unfold chans_to_come. destruct a; simpl; intros; lia. }
  assert (forall d e, chans_to_come a s' d e ->
    kept (own_chans d e) nothing s s1
    /\ promises s1 !! pR = promises s !! pR
    /\ bystander pR (own_chans d e) nothing (mkTask own c')
    /\ Forall (bystander pR (own_chans d e) nothing) started) as Hfr.
  { intros d e Hto. pose proof (Hr d e (Hmono _ _ Hto)) as Hb.
    rewrite Hrest in Hb. apply Forall_cons in Hb as [[Hown Hq] _]. simpl in *.
    apply (quiet_step_code pR _ _ pick own c s s1 c' started (Hq _ eq_refl) Hown HltR Hcode).
    - subst s'. intros x Hx Hlt. unfold chans_to_come in Hto.
      destruct a as [|d0]; simpl in *.
      + destruct Hx as [->| ->]; lia.
      + apply lookup_lt_Some in Hm. destruct Hx as [->| ->]; lia.
    - by intros x []. }
  exists (mkTask own c' :: rest' ++ started). constructor.
  - subst s'. simpl. eapply tasks_after_step; [done..|]. rewrite Hrest. solve_Permutation.
  - intros d e Hto. destruct (Hfr _ _ Hto) as (_ & _ & Hb & Hst).
    pose proof (Hr d e (Hmono _ _ Hto)) as Hb0.
    rewrite Hrest in Hb0. apply Forall_cons in Hb0 as [_ Hb0].
    constructor; [done|]. by apply Forall_app.
  - exact (step_consistent _ _ _ Hstep Hh).
  - destruct (chans_to_come_some a s') as (d & e & Hto).
    destruct (Hfr _ _ Hto) as (_ & HpR' & _). subst s'. simpl. by rewrite HpR'.
  - destruct a as [|d0]; simpl in *; [done|].
    destruct (Hfr d0 (length (chans s'))) as ((Hch & _) & _); [by split|].
    subst s'. simpl. rewrite Hch; [done|by left].
Qed.

Lemma Race_inv_step ch s s' : Race_inv s -> step ch s = Some s' -> Race_inv s'.
Proof.
  destruct ch as [tid pick].
  intros [(a & rest & HS)|(vC & eC & a & tws & cws & rest & Hne & HR)] Hstep.
  - pose proof (step_unfold _ _ _ _ Hstep)
      as (own & c & s1 & c' & started & Hcr & Htid & Hcode & _).
    pose proof (list_elem_of_lookup_2 _ _ _ Htid) as Hin.
    rewrite (RS_tasks _ _ _ HS) in Hin. apply elem_of_cons in Hin as [Hin|Hin].
    + injection Hin as -> ->.
      destruct (RSetup_exec_moves _ _ _ _ pick HS Hcr Htid) as (s'' & E & _ & Hn).
      rewrite Hstep in E. injection E as <-. by eapply RSetup_next_inv.
    + apply elem_of_Permutation in Hin as [rest' Hrest].
      destruct (RSetup_other_moves _ _ _ _ _ _ _ _ _ HS Htid Hrest Hstep) as [rest'' H'].
      left. by exists a, rest''.
  - destruct (Rac_step ps tl pR vC eC tl_nil Hne _ _ _ _ _ _ _ HR Hstep)
      as (a' & tws' & cws' & rest' & HR').
    right. by exists vC, eC, a', tws', cws', rest'.
Qed.

Lemma Race_inv_reachable s s' : Race_inv s -> reachable s s' -> Race_inv s'.
Proof.
  intros H. revert s'. apply reachable_invariant; [done|].
  intros ch s1 s2 _ H1 Hstep. by eapply Race_inv_step.
Qed.

(** The call of [Race]. *)
Lemma Race_inv_call s0 caller own k pick s1 :
  (Some <$> ps) ++ tl <> [] ->
  tasks s0 !! caller = Some (mkTask own (Some (Race ((Some <$> ps) ++ tl) k))) ->
  pR = length (promises s0) ->
  Forall consistent (promises s0) ->
  apart_chans pR s0 (mkTask own (Some (k (Some pR)))) ->
  (forall tid t, tasks s0 !! tid = Some t -> tid <> caller -> apart_chans pR s0 t) ->
  step (caller, pick) s0 = Some s1 ->
  Race_inv s1.
Proof.
  intros Hne Htid EpR Hh Hk Hby Hstep.
  pose proof (step_unfold _ _ _ _ Hstep)
    as (own0 & c0 & s' & c' & started & Hcr & Htid0 & Hcode & ->).
  rewrite Htid in Htid0. injection Htid0 as <- <-.
  assert (Race ((Some <$> ps) ++ tl) k
    = Spawn (Race_exec ((Some <$> ps) ++ tl)) (fun p => k (Some p))) as ERace
    by (by destruct ((Some <$> ps) ++ tl)).
  rewrite ERace in Hcode. simpl in Hcode. injection Hcode as <- <- <-.
  rewrite <- EpR.
  left. exists Q_start, (<[caller := mkTask own (Some (k (Some pR)))]> (tasks s0)).
  constructor; simpl.
  - solve_Permutation.
  - intros d e (Hd & He). apply Forall_lookup. intros tid t Ht.
    destruct (decide (tid = caller)) as [->|Hne'].
    + rewrite list_lookup_insert_eq in Ht by (by eapply lookup_lt_Some).
      injection Ht as <-. by apply Hk.
    + rewrite list_lookup_insert_ne in Ht by done. by eapply Hby.
  - apply Forall_app. split; [done|]. constructor; [by compute|done].
  - rewrite EpR. by apply list_lookup_middle.
  - done.
Qed.

Lemma Race_inv_outcome s cell :
  Race_inv s -> promises s !! pR = Some cell -> Race_outcome ps tl s cell.
Proof.
  intros [(a & rest & HS)|(vC & eC & a & tws & cws & rest & Hne & HR)] Hcell.
  - rewrite (RS_pR _ _ _ HS) in Hcell. injection Hcell as <-.
    unfold Race_outcome. destruct tl; [done|by left].
  - eapply Rac_outcome; eauto.
Qed.

(** Once one of the promises is settled, the run can be continued until
    the promise of [Race] is settled. *)
Lemma Race_inv_settles s :
  Race_inv s -> crashed s = None -> Forall consistent (promises s) ->
  (tl = [] -> one_settled ps s) ->
  settles pR s.
Proof.
  assert (forall d rest s, RSetup (Q_chan d) rest s -> crashed s = None ->
    (tl = [] -> one_settled ps s) -> settles pR s) as H2.
  { intros d rest s0 HS Hcr Hone.
    destruct (task_at s0 _ (mkTask (Some pR) (Some (qcode (Q_chan d)))) (RS_tasks _ _ _ HS))
      as [tid Htid]; [apply elem_of_cons; by left|].
    destruct (RSetup_exec_moves _ _ _ _ true HS Hcr Htid)
      as (s' & Hstep & Hcr' & e & rest' & Hne & HR).
    eapply settles_step; [done|].
    apply (Rac_settles ps tl pR d e tl_nil Hne _ _ _ _ _ HR Hcr').
    intros Htl. eapply one_settled_step; [exact (RS_heap _ _ _ HS)|done|by apply Hone]. }
  intros [(a & rest & HS)|(vC & eC & a & tws & cws & rest & Hne & HR)] Hcr Hh Hone.
  - destruct a as [|d]; [|by eapply H2].
    destruct (task_at s _ (mkTask (Some pR) (Some (qcode Q_start))) (RS_tasks _ _ _ HS))
      as [tid Htid]; [apply elem_of_cons; by left|].
    destruct (RSetup_exec_moves _ _ _ _ true HS Hcr Htid)
      as (s' & Hstep & Hcr' & d & rest' & HS').
    eapply settles_step; [done|]. eapply H2; [done..|].
    intros Htl. eapply one_settled_step; [done|done|by apply Hone].
  - by apply (Rac_settles ps tl pR vC eC tl_nil Hne _ _ _ _ _ HR Hcr).
Qed.

End Race_setup.

(** [Race] of N >= 1 promises, none of them nil.  The call is made by a
    task of a program whose other code makes no settlement call on the
    promise of [Race] and does not use the two channels that the executor
    of [Race] makes after the call (of the channels that do not exist at
    the call, it uses those it makes itself); it is free in everything
    else: it may settle other promises, call [New], [Then], [Catch], [All]
    and [Race], make channels and arrays of its own, send, receive and
    stay blocked.
    At every point of every run after the call the promise that [Race]
    returned is pending, or fulfilled with the value of one of the N
    promises, one that is settled with a nil error, or rejected with the
    non-nil reason of one of them.  And once one of the N promises is
    settled, a run that has not crashed can be continued until the promise
    of [Race] is settled. *)
Theorem Race_settles_with_one_of_its_promises (s0 s1 s : state) (caller : nat)
    (pick : bool) (own : option nat) (ps : list nat) (k : option nat -> prog) :
  ps <> [] ->
  Forall consistent (promises s0) ->
  tasks s0 !! caller = Some (mkTask own (Some (Race (Some <$> ps) k))) ->
  apart_chans (length (promises s0)) s0
    (mkTask own (Some (k (Some (length (promises s0)))))) ->
  (forall tid t, tasks s0 !! tid = Some t -> tid <> caller ->
     apart_chans (length (promises s0)) s0 t) ->
  step (caller, pick) s0 = Some s1 ->
  reachable s1 s ->
  (forall cell, promises s !! length (promises s0) = Some cell ->
     match status cell with
     | PENDING => True
     | FULFILLED =>
         reason cell = None /\ exists p, p ∈ ps /\ settled_as s p (value cell) None
     | REJECTED =>
         value cell = ANil
         /\ exists p v g, p ∈ ps /\ reason cell = Some g /\ settled_as s p v (Some g)
     end)
  /\ (crashed s = None ->
      (exists p cell, p ∈ ps /\ promises s !! p = Some cell /\ wg cell = 0) ->
      exists s' cell,
        reachable s s' /\ promises s' !! length (promises s0) = Some cell
        /\ status cell <> PENDING).
Proof.
  intros Hps Hh Htid Hk Hby Hstep Hreach.
  assert (forall x : option nat, head (@nil (option nat)) = Some x -> x = None) as Hnil
    by done.
  rewrite <- (app_nil_r (Some <$> ps)) in Htid.
  assert (Race_inv ps [] (length (promises s0)) s1) as H1.
  { eapply Race_inv_call; try done. rewrite app_nil_r. by destruct ps. }
  pose proof (Race_inv_reachable ps [] _ Hnil _ _ H1 Hreach) as HI.
  split.
  - intros cell Hcell.
    pose proof (Race_inv_outcome ps [] _ Hnil _ _ HI Hcell) as Ho.
    unfold Race_outcome in Ho. destruct (status cell); [done|done|].
    destruct Ho as (Hv & g & Hg & p & v & g' & Hp & [= <-] & Hset).
    split; [done|]. by exists p, v, g.
  - intros Hcr Hone. apply (Race_inv_settles ps [] _ Hnil s HI Hcr); [|done].
    eapply reachable_consistent; [exact Hreach|]. by eapply step_consistent.
Qed.

(** [Race] called while a task of [All] of three rejected promises is
    blocked on the channel of [All]: the channels of [Race] are the next
    two. *)
Lemma Race_settles_with_one_of_its_promises_witness :
  exists s0 s1 s,
    run (by_turns [0; 1; 1; 1; 1; 1; 1; 1; 1; 1; 2; 2; 2; 3; 3; 1; 1; 1; 3; 3; 4; 4;
                   4; 5; 5; 5; 5; 6; 6; 6; 7])
      (boot [Reject (Some Err1); Reject (Some Err2); Reject (Some Err3)]
         (All [Some 0; Some 1; Some 2] (fun r => Race [r; Some 0] keep))) = Some s0
    /\ step (0, true) s0 = Some s1
    /\ run (by_turns [8; 8; 8; 8; 8; 8; 10; 10; 8; 8]) s1 = Some s
    /\ chans s = [mkChan 3 []; mkChan 1 [AError Err2]; mkChan 1 []; mkChan 1 []]
    /\ live_tasks s0 = [(0, None); (7, Some 9)]
    /\ promises s !! 10 = Some (Reject (Some Err1))
    /\ exists p v, p ∈ [3; 0] /\ settled_as s p v (Some Err1).
Proof.
  eexists. eexists. eexists.
  split; [vm_compute; reflexivity|].
  match goal with |- step _ ?a = Some _ /\ _ => set (S0 := a) end.
  split; [vm_compute; reflexivity|].
  match goal with |- run _ ?a = Some _ /\ _ => set (S1 := a) end.
  split; [vm_compute; reflexivity|].
  match goal with |- chans ?a = _ /\ _ => set (SF := a) end.
  split; [reflexivity|]. split; [reflexivity|]. split; [reflexivity|].
  destruct (Race_settles_with_one_of_its_promises S0 S1 SF 0 true None [3; 0] keep)
    as (H & _).
  - done.
  - repeat constructor.
  - reflexivity.
  - apart_chans_task.
  - intros tid t Ht Hne.
    do 8 (destruct tid as [|tid]; [try done; injection Ht as <-; apart_chans_task|]).
    simpl in Ht. by rewrite lookup_nil in Ht.
  - reflexivity.
  - apply (run_reachable (by_turns [8; 8; 8; 8; 8; 8; 10; 10; 8; 8])).
    vm_compute. reflexivity.
  - destruct (H (Reject (Some Err1)) eq_refl) as (_ & p & v & g & Hp & [= <-] & Hset).
    by exists p, v.
Defined.

(** ** A nil promise given to [All] or to [Race] *)

(** Code that runs into the panic [r] whatever the machine gives it: it
    makes channels and arrays and starts tasks, none of which has a
    settlement call on [pT], and then panics.  So does the executor of
    [All] and of [Race] when one of the promises is nil: [Then] panics on
    it, lines 85-87, after the tasks for the promises before it have been
    started. *)
Inductive runs_into (pT : nat) (r : payload) : prog -> Prop :=
| into_Panic : runs_into pT r (Panic r)
| into_MakeChan n k :
    (forall c, runs_into pT r (k c)) -> runs_into pT r (MakeChan n k)
| into_MakeSlice n k :
    (forall a, runs_into pT r (k a)) -> runs_into pT r (MakeSlice n k)
| into_Spawn exec k :
    (forall p, p <> pT -> aloof pT (exec p)) -> (forall p, runs_into pT r (k p)) ->
    runs_into pT r (Spawn exec k).

Section Into_panic.
(** The task that owns [pT] runs into the panic [r]; no other task makes
    a settlement call on [pT]. *)
Context (pT : nat) (r : payload).

Definition Heading (s : state) : Prop :=
  (exists c rest,
     tasks s ≡ₚ mkTask (Some pT) (Some c) :: rest /\ runs_into pT r c
     /\ Forall (outsider pT) rest /\ promises s !! pT = Some pending_promise)
  \/ promises s !! pT = Some (Reject (recovered_reason r)).

(** Where the step of the task leads. *)
Definition Heading_next (c : prog) (s' : state) : Prop :=
  match c with
  | Panic _ => promises s' !! pT = Some (Reject (recovered_reason r))
  | MakeChan _ k | MakeSlice _ k | Spawn _ k =>
      exists x rest',
        tasks s' ≡ₚ mkTask (Some pT) (Some (k x)) :: rest'
        /\ Forall (outsider pT) rest' /\ promises s' !! pT = Some pending_promise
  | _ => False
  end.

Lemma Heading_moves c rest s tid pick :
  tasks s ≡ₚ mkTask (Some pT) (Some c) :: rest -> runs_into pT r c ->
  Forall (outsider pT) rest -> promises s !! pT = Some pending_promise ->
  crashed s = None -> tasks s !! tid = Some (mkTask (Some pT) (Some c)) ->
  exists s', step (tid, pick) s = Some s' /\ crashed s' = None /\ Heading_next c s'.
Proof.
  intros Ht Hc Hr HpT Hcr Htid. pose proof (lookup_lt_Some _ _ _ HpT) as Hlt.
  assert (forall s1 c' started,
    step_code pick (Some pT) c s = Some (s1, Some c', started) ->
    crashed s1 = None -> promises s1 !! pT = Some pending_promise ->
    Forall (outsider pT) started ->
    exists s',
      step (tid, pick) s = Some s' /\ crashed s' = None
      /\ exists rest',
           tasks s' ≡ₚ mkTask (Some pT) (Some c') :: rest'
           /\ Forall (outsider pT) rest' /\ promises s' !! pT = Some pending_promise) as Hgo.
  { intros s1 c' started Hcode Hcr1 Hp1 Hst.
    pose proof (step_fold _ _ _ _ _ _ _ _ Hcr Htid Hcode) as Hstep.
    eexists. split; [exact Hstep|]. split; [exact Hcr1|].
    exists (rest ++ started). split_and!; try done.
    - simpl. eapply tasks_after_step; [done..|]. solve_Permutation.
    - by apply Forall_app. }
  destruct Hc as [|n k Hk|n k Hk|exec k He Hk].
  - assert (step_code pick (Some pT) (Panic r) s
      = Some (set_promise pT (Reject (recovered_reason r)) s, None, [])) as Hcode.
    { simpl. unfold deferred. by rewrite HpT. }
    pose proof (step_fold _ _ _ _ _ _ _ _ Hcr Htid Hcode) as Hstep.
    eexists. split; [exact Hstep|]. split; [done|].
    simpl. by apply list_lookup_insert_eq.
  - destruct (Hgo (alloc_chan (mkChan n []) s) (k (length (chans s))) [])
      as (s' & Hstep & Hcr' & rest' & H); try done.
    exists s'. split_and!; try done. by exists (length (chans s)), rest'.
  - destruct (Hgo (alloc_slice (replicate n ANil) s) (k (length (slices s))) [])
      as (s' & Hstep & Hcr' & rest' & H); try done.
    exists s'. split_and!; try done. by exists (length (slices s)), rest'.
  - destruct (Hgo (alloc_promise pending_promise s) (k (length (promises s)))
      [mkTask (Some (length (promises s))) (Some (exec (length (promises s))))])
      as (s' & Hstep & Hcr' & rest' & H); try done.
    + simpl. by rewrite lookup_app_l.
    + constructor; [|done]. apply bystander_code; [intros [=]; lia|].
      apply He. lia.
    + exists s'. split_and!; try done. by exists (length (promises s)), rest'.
Qed.

Lemma Heading_step ch s s' : Heading s -> step ch s = Some s' -> Heading s'.
Proof.
  destruct ch as [tid pick]. intros [(c & rest & Ht & Hc & Hr & HpT)|Hdone] Hstep.
  - pose proof (step_unfold _ _ _ _ Hstep)
      as (own & c0 & s1 & c' & started & Hcr & Htid & Hcode & _).
    pose proof (list_elem_of_lookup_2 _ _ _ Htid) as Hin.
    rewrite Ht in Hin. apply elem_of_cons in Hin as [Hin|Hin].
    + injection Hin as -> ->.
      destruct (Heading_moves c rest s tid pick Ht Hc Hr HpT Hcr Htid)
        as (s'' & E & _ & H). rewrite Hstep in E. injection E as <-.
      destruct Hc as [|n k Hk|n k Hk|exec k He Hk]; simpl in H.
      * by right.
      * destruct H as (x & rest' & ? & ? & ?). left. by exists (k x), rest'.
      * destruct H as (x & rest' & ? & ? & ?). left. by exists (k x), rest'.
      * destruct H as (x & rest' & ? & ? & ?). left. by exists (k x), rest'.
    + left.
      destruct (outsider_step pT s s' tid pick _ rest Ht Hr) as (rest' & Ht' & Hr' & Hc');
        [by eapply lookup_lt_Some|done|by eexists|].
      exists c, rest'. split_and!; try done. by rewrite Hc'.
  - right. eapply step_settled; [done..|]. by destruct (recovered_reason r).
Qed.

Lemma Heading_reachable s s' : Heading s -> reachable s s' -> Heading s'.
Proof.
  intros H. revert s'. apply reachable_invariant; [done|].
  intros ch s1 s2 _ H1 Hstep. by eapply Heading_step.
Qed.

(** The task can be run to its panic, which rejects its promise. *)
Lemma runs_into_exits c :
  runs_into pT r c ->
  forall s rest,
    tasks s ≡ₚ mkTask (Some pT) (Some c) :: rest ->
    Forall (outsider pT) rest -> promises s !! pT = Some pending_promise ->
    crashed s = None ->
    exists s', reachable s s' /\ promises s' !! pT = Some (Reject (recovered_reason r)).
Proof.
  intros Hc. pose proof Hc as Hc0. revert Hc0.
  induction Hc as [|n k Hk IH|n k Hk IH|exec k He Hk IH];
    intros Hc0 s rest Ht Hr HpT Hcr;
    (destruct (task_at s _ _ Ht (list_elem_of_here _ _)) as [tid Htid]);
    destruct (Heading_moves _ rest s tid true Ht Hc0 Hr HpT Hcr Htid)
      as (s' & Hstep & Hcr' & H); simpl in H.
  - exists s'. split; [|done]. apply rtc_once. by exists (tid, true).
  - destruct H as (x & rest' & Ht' & Hr' & Hp').
    destruct (IH x (Hk x) s' rest' Ht' Hr' Hp' Hcr') as (s'' & Hreach & Hp).
    exists s''. split; [|done]. by eapply reachable_step.
  - destruct H as (x & rest' & Ht' & Hr' & Hp').
    destruct (IH x (Hk x) s' rest' Ht' Hr' Hp' Hcr') as (s'' & Hreach & Hp).
    exists s''. split; [|done]. by eapply reachable_step.
  - destruct H as (x & rest' & Ht' & Hr' & Hp').
    destruct (IH x (Hk x) s' rest' Ht' Hr' Hp' Hcr') as (s'' & Hreach & Hp).
    exists s''. split; [|done]. by eapply reachable_step.
Qed.

(** The run of the task from the call of [New] that starts it. *)
Lemma Heading_run exec s0 s1 s caller pick own k :
  runs_into pT r (exec pT) ->
  pT = length (promises s0) ->
  tasks s0 !! caller = Some (mkTask own (Some (Spawn exec k))) ->
  own <> Some pT -> aloof pT (k pT) ->
  (forall tid t, tasks s0 !! tid = Some t -> tid <> caller -> outsider pT t) ->
  step (caller, pick) s0 = Some s1 ->
  reachable s1 s ->
  (forall cell, promises s !! pT = Some cell ->
     cell = pending_promise \/ cell = Reject (recovered_reason r))
  /\ (crashed s = None ->
      exists s', reachable s s' /\ promises s' !! pT = Some (Reject (recovered_reason r))).
Proof.
  intros Hexec EpT Htid Hown Hk Hby Hstep Hreach.
  assert (Heading s1) as H1.
  { pose proof (step_unfold _ _ _ _ Hstep)
      as (own0 & c0 & s' & c' & started & Hcr & Htid0 & Hcode & ->).
    rewrite Htid in Htid0. injection Htid0 as <- <-.
    simpl in Hcode. injection Hcode as <- <- <-. rewrite <- EpT.
    left. exists (exec pT), (<[caller := mkTask own (Some (k pT))]> (tasks s0)).
    split_and!; simpl.
    - solve_Permutation.
    - done.
    - apply Forall_lookup. intros tid t Ht.
      destruct (decide (tid = caller)) as [->|Hne].
      + rewrite list_lookup_insert_eq in Ht by (by eapply lookup_lt_Some).
        injection Ht as <-. by apply bystander_code.
      + rewrite list_lookup_insert_ne in Ht by done. by eapply Hby.
    - rewrite EpT. by apply list_lookup_middle. }
  pose proof (Heading_reachable _ _ H1 Hreach) as [(c & rest & Ht & Hc & Hr & HpT)|Hdone].
  - split.
    + intros cell Hcell. rewrite HpT in Hcell. injection Hcell as <-. by left.
    + intros Hcr. by eapply runs_into_exits.
  - split.
    + intros cell Hcell. rewrite Hdone in Hcell. injection Hcell as <-. by right.
    + intros _. exists s. split; [apply rtc_refl|done].
Qed.

End Into_panic.

(** The panic of [Then] on a nil promise, line 86. *)
Definition nil_panic : payload := PString "must provide valid promise".

Lemma runs_into_Then_Catch pT r src cb cb' k :
  (forall v, aloof pT (cb v)) -> (forall g, aloof pT (cb' g)) ->
  runs_into pT r k ->
  runs_into pT r (Then (Some src) cb (fun _ => Catch (Some src) cb' (fun _ => k))).
Proof.
  intros Hcb Hcb' Hk. unfold Then, Catch, New.
  apply into_Spawn; [intros p Hp; by apply quiet_Then_exec|]. intros _.
  apply into_Spawn; [intros p Hp; by apply quiet_Catch_exec|]. by intros _.
Qed.

(** The first loop of [All] runs into the panic of [Then] when one of the
    promises is nil. *)
Lemma runs_into_All_range pT d e a i ps others k :
  runs_into pT nil_panic (All_range d e a i ((Some <$> ps) ++ None :: others) k).
Proof.
  revert i. induction ps as [|p ps IH]; intros i; simpl; [constructor|].
  apply runs_into_Then_Catch; [| |apply IH].
  - intros v. constructor; [by intros []|]. constructor; [by intros []|]. constructor.
  - intros g. constructor; [by intros []|]. constructor.
Qed.

Lemma runs_into_All_exec pT ps others :
  runs_into pT nil_panic (All_exec ((Some <$> ps) ++ None :: others) pT).
Proof.
  unfold All_exec. constructor. intros d. constructor. intros e. constructor. intros a.
  apply runs_into_All_range.
Qed.

(** So does the loop of [Race]. *)
Lemma runs_into_Race_range pT d e ps others k :
  runs_into pT nil_panic (Race_range d e ((Some <$> ps) ++ None :: others) k).
Proof.
  induction ps as [|p ps IH]; simpl; [constructor|].
  apply runs_into_Then_Catch; [| |apply IH].
  - intros v. constructor; [by intros []|]. constructor.
  - intros g. constructor; [by intros []|]. constructor.
Qed.

Lemma runs_into_Race_exec pT ps others :
  runs_into pT nil_panic (Race_exec ((Some <$> ps) ++ None :: others) pT).
Proof.
  unfold Race_exec. constructor. intros d. constructor. intros e.
  apply runs_into_Race_range.
Qed.

(** [Race] of promises of which one is nil does not panic in its
    caller: [Then] panics on the nil promise inside the executor of
    [Race], after the tasks for the promises before it have been started,
    and the deferred function of [New] rejects the promise of [Race].
    The other code of the program is free but for one condition: it makes
    no call of the resolve or the reject function of the promise of
    [Race]; it may call [All] and [Race], use channels and arrays, and
    settle any other promise.  Then at every point of every run after the
    call the promise of [Race] is pending or rejected with the error
    ["must provide valid promise"], whatever the other promises are
    settled with, and a run that has not crashed can be continued to
    where [Await] on it returns that error. *)
Theorem Race_with_a_nil_promise (s0 s1 s : state) (caller : nat)
    (pick : bool) (own : option nat) (ps : list nat) (others : list (option nat))
    (k : option nat -> prog) :
  tasks s0 !! caller
    = Some (mkTask own (Some (Race ((Some <$> ps) ++ None :: others) k))) ->
  own <> Some (length (promises s0)) ->
  aloof (length (promises s0)) (k (Some (length (promises s0)))) ->
  (forall tid t, tasks s0 !! tid = Some t -> tid <> caller ->
     outsider (length (promises s0)) t) ->
  step (caller, pick) s0 = Some s1 ->
  reachable s1 s ->
  (forall cell, promises s !! length (promises s0) = Some cell ->
     cell = pending_promise
     \/ cell = Reject (Some (FmtErrorf "must provide valid promise")))
  /\ (crashed s = None ->
      exists s',
        reachable s s'
        /\ Await s' (length (promises s0))
           = Some (ANil, Some (FmtErrorf "must provide valid promise"))).
Proof.
  intros Htid Hown Hk Hby Hstep Hreach.
  assert (Race ((Some <$> ps) ++ None :: others) k
    = Spawn (Race_exec ((Some <$> ps) ++ None :: others)) (fun p => k (Some p))) as E
    by (by destruct ps).
  rewrite E in Htid.
  destruct (Heading_run (length (promises s0)) nil_panic _ s0 s1 s caller pick own _
    (runs_into_Race_exec _ ps others) eq_refl Htid Hown Hk Hby Hstep Hreach) as [Hsafe Hlive].
  split; [exact Hsafe|]. intros Hcr.
  destruct (Hlive Hcr) as (s' & Hr & Hcell). exists s'. split; [done|].
  unfold Await. by rewrite Hcell.
Qed.

Lemma Race_with_a_nil_promise_witness :
  exists s0 s1 s,
    run (by_turns [0; 1; 1; 1; 1; 1; 1; 1; 1; 1; 2; 2; 2; 3; 3; 1; 1; 1; 3; 3; 4; 4;
                   4; 5; 5; 5; 5; 6; 6; 6; 7])
      (boot [Reject (Some Err1); Reject (Some Err2); Reject (Some Err3)]
         (All [Some 0; Some 1; Some 2] (fun r => Race [r; None] keep))) = Some s0
    /\ step (0, true) s0 = Some s1
    /\ run (by_turns [8; 8; 8; 8; 8]) s1 = Some s
    /\ live_tasks s0 = [(0, None); (7, Some 9)]
    /\ Await s 10 = Some (ANil, Some (FmtErrorf "must provide valid promise"))
    /\ forall cell, promises s !! 10 = Some cell ->
         cell = pending_promise
         \/ cell = Reject (Some (FmtErrorf "must provide valid promise")).
Proof.
  eexists. eexists. eexists.
  split; [vm_compute; reflexivity|].
  match goal with |- step _ ?a = Some _ /\ _ => set (S0 := a) end.
  split; [vm_compute; reflexivity|].
  match goal with |- run _ ?a = Some _ /\ _ => set (S1 := a) end.
  split; [vm_compute; reflexivity|].
  match goal with |- _ /\ Await ?a _ = _ /\ _ => set (SF := a) end.
  split; [reflexivity|]. split; [reflexivity|].
  destruct (Race_with_a_nil_promise S0 S1 SF 0 true None [3] [] keep) as (H & _).
  - reflexivity.
  - done.
  - constructor.
  - intros tid t Ht Hne.
    do 8 (destruct tid as [|tid]; [try done; injection Ht as <-; outsider_task|]).
    simpl in Ht. by rewrite lookup_nil in Ht.
  - reflexivity.
  - apply (run_reachable (by_turns [8; 8; 8; 8; 8])). vm_compute. reflexivity.
  - exact H.
Defined.

(** [All] of promises of which one is nil does not panic in its
    caller: [Then] panics on the nil promise inside the executor of
    [All], after the tasks for the promises before it have been started,
    and the deferred function of [New] rejects the promise of [All].  The
    other code of the program is free but for one condition: it makes no
    call of the resolve or the reject function of the promise of [All];
    it may call [All] and [Race], use channels and arrays, and settle any
    other promise.  Then at every point of every run after the call the
    promise of [All] is pending or rejected with the error
    ["must provide valid promise"], whatever the other promises are
    settled with, and a run that has not crashed can be continued to
    where [Await] on it returns that error. *)
Theorem All_with_a_nil_promise (s0 s1 s : state) (caller : nat)
    (pick : bool) (own : option nat) (ps : list nat) (others : list (option nat))
    (k : option nat -> prog) :
  tasks s0 !! caller
    = Some (mkTask own (Some (All ((Some <$> ps) ++ None :: others) k))) ->
  own <> Some (length (promises s0)) ->
  aloof (length (promises s0)) (k (Some (length (promises s0)))) ->
  (forall tid t, tasks s0 !! tid = Some t -> tid <> caller ->
     outsider (length (promises s0)) t) ->
  step (caller, pick) s0 = Some s1 ->
  reachable s1 s ->
  (forall cell, promises s !! length (promises s0) = Some cell ->
     cell = pending_promise
     \/ cell = Reject (Some (FmtErrorf "must provide valid promise")))
  /\ (crashed s = None ->
      exists s',
        reachable s s'
        /\ Await s' (length (promises s0))
           = Some (ANil, Some (FmtErrorf "must provide valid promise"))).
Proof.
  intros Htid Hown Hk Hby Hstep Hreach.
  assert (All ((Some <$> ps) ++ None :: others) k
    = Spawn (All_exec ((Some <$> ps) ++ None :: others)) (fun p => k (Some p))) as E
    by (by destruct ps).
  rewrite E in Htid.
  destruct (Heading_run (length (promises s0)) nil_panic _ s0 s1 s caller pick own _
    (runs_into_All_exec _ ps others) eq_refl Htid Hown Hk Hby Hstep Hreach) as [Hsafe Hlive].
  split; [exact Hsafe|]. intros Hcr.
  destruct (Hlive Hcr) as (s' & Hr & Hcell). exists s'. split; [done|].
  unfold Await. by rewrite Hcell.
Qed.

Lemma All_with_a_nil_promise_witness :
  exists s0 s1 s,
    run (by_turns [0; 1; 1; 1; 1; 1; 1; 1; 1; 2; 2; 1; 1; 1; 2; 2; 3; 3; 4; 4; 4; 4;
                   5; 5; 6; 7; 7])
      (boot [Resolve (AInt 1); Resolve (AInt 2); Resolve (AInt 3)]
         (Race [Some 0; Some 1; Some 2] (fun r => All [r; None] keep))) = Some s0
    /\ step (0, true) s0 = Some s1
    /\ run (by_turns [8; 8; 8; 8; 8; 8]) s1 = Some s
    /\ live_tasks s0 = [(0, None); (6, Some 8)]
    /\ Await s 10 = Some (ANil, Some (FmtErrorf "must provide valid promise"))
    /\ forall cell, promises s !! 10 = Some cell ->
         cell = pending_promise
         \/ cell = Reject (Some (FmtErrorf "must provide valid promise")).
Proof.
  eexists. eexists. eexists.
  split; [vm_compute; reflexivity|].
  match goal with |- step _ ?a = Some _ /\ _ => set (S0 := a) end.
  split; [vm_compute; reflexivity|].
  match goal with |- run _ ?a = Some _ /\ _ => set (S1 := a) end.
  split; [vm_compute; reflexivity|].
  match goal with |- _ /\ Await ?a _ = _ /\ _ => set (SF := a) end.
  split; [reflexivity|]. split; [reflexivity|].
  destruct (All_with_a_nil_promise S0 S1 SF 0 true None [3] [] keep) as (H & _).
  - reflexivity.
  - done.
  - constructor.
  - intros tid t Ht Hne.
    do 8 (destruct tid as [|tid]; [try done; injection Ht as <-; outsider_task|]).
    simpl in Ht. by rewrite lookup_nil in Ht.
  - reflexivity.
  - apply (run_reachable (by_turns [8; 8; 8; 8; 8; 8])). vm_compute. reflexivity.
  - exact H.
Defined.
